(** * A shallow embedding of sunhengzhe/promise

    The repository holds two iterations of one Promises/A+ implementation:
    [src/promise.js] (module [PromiseJs] below) and [src/unnamed/part_000]
    (module [Part000] below).  Both are embedded over one model of the
    JavaScript heap: promise objects with their property descriptors, the
    closure environments of the resolving functions, and the host's
    [setImmediate] queue. *)

From Stdlib Require Import ZArith String List Bool Arith Lia.
From Stdlib Require Import DecimalString.
Import ListNotations.
Open Scope string_scope.
Open Scope list_scope.

Set Implicit Arguments.

(** ** JavaScript values *)

(** The functions the library itself hands out as values. *)
Inductive native : Type :=
| ResolveFn (c : nat)   (* the resolve closure over closure environment [c] *)
| RejectFn (c : nat)    (* the reject closure over closure environment [c] *)
| PromiseThen.          (* Promise.prototype.then *)

Inductive value : Type :=
| VUndefined
| VNull
| VBool (b : bool)
| VNum (n : Z)
| VStr (s : string)
| VTypeError (msg : string)          (* new TypeError(msg) *)
| VObject (o : nat)                  (* an object of the host program *)
| VFunction (f : nat)                (* a function of the host program *)
| VPromise (p : nat)                 (* the promise object at heap address p *)
| VNative (b : native)
| VRecord (promise resolve reject : value).
    (* the plain object { promise, resolve, reject } of a capability *)

(** What a call or a property read produces: a value, or a thrown value. *)
Inductive outcome (A : Type) : Type :=
| Returned (a : A)
| Thrown (e : value).
Arguments Thrown {A} e.

Definition completion := outcome value.

Definition native_eq_dec (a b : native) : {a = b} + {a <> b}.
Proof. decide equality; apply Nat.eq_dec. Defined.

Definition value_eq_dec (a b : value) : {a = b} + {a <> b}.
Proof.
  decide equality;
    first [ apply Nat.eq_dec | apply Z.eq_dec | apply string_dec
          | apply Bool.bool_dec | apply native_eq_dec ].
Defined.

(** [a === b].  The model has no NaN, and objects are compared by what they
    are; the library compares only against a promise, [null] and
    [undefined], where this is exact. *)
Definition strict_equal (a b : value) : bool :=
  if value_eq_dec a b then true else false.

Definition typeof (v : value) : string :=
  match v with
  | VUndefined => "undefined"
  | VNull => "object"
  | VBool _ => "boolean"
  | VNum _ => "number"
  | VStr _ => "string"
  | VTypeError _ | VObject _ | VPromise _ | VRecord _ _ _ => "object"
  | VFunction _ | VNative _ => "function"
  end.

(** ToBoolean, as used by [if (x)] and [!x]. *)
Definition truthy (v : value) : bool :=
  match v with
  | VUndefined | VNull => false
  | VBool b => b
  | VNum n => negb (Z.eqb n 0)
  | VStr s => negb (String.eqb s EmptyString)
  | _ => true
  end.

(** ** Printing a number

    The model's numbers are integers.  Up to 2^53 in size every integer is a
    JavaScript number; a larger integer stands for the double nearest to it,
    as a numeric literal does. *)
Section NumberToString.
Local Open Scope Z_scope.

Definition digits (n : Z) : string := NilZero.string_of_int (Z.to_int n).

(** The double nearest to the integer [n > 0], ties to the even mantissa. *)
Definition nearest_double (n : Z) : Z :=
  let e := Z.log2 n - 52 in
  if e <=? 0 then n else
  let q := Z.shiftr n e in
  let r := n - Z.shiftl q e in
  let half := Z.shiftl 1 (e - 1) in
  let q' := if (half <? r) || ((half =? r) && Z.odd q) then q + 1 else q in
  Z.shiftl q' e.

(** Twice the two bounds of the reals that read back as the double [x > 0],
    and whether the bounds themselves do. *)
Definition rounding_interval (x : Z) : Z * Z * bool :=
  let e := Z.log2 x - 52 in
  let m := Z.shiftr x e in
  let ulp := Z.shiftl 1 e in
  let below := if m =? 2 ^ 52 then Z.shiftr ulp 1 else ulp in
  (2 * x - below, 2 * x + ulp, Z.even m).

Definition reads_back (x c : Z) : bool :=
  let '(lo, hi, closed) := rounding_interval x in
  ((lo <? 2 * c) && (2 * c <? hi))
  || (closed && ((2 * c =? lo) || (2 * c =? hi))).

(** The multiple of [10^p] nearest to [x] among those that read back as [x],
    when there is one. *)
Definition shortest_at (x : Z) (p : nat) : option Z :=
  let t := 10 ^ Z.of_nat p in
  let c1 := (x / t) * t in
  let c2 := c1 + t in
  match reads_back x c1, reads_back x c2 with
  | true, true =>
      if x - c1 <? c2 - x then Some c1
      else if c2 - x <? x - c1 then Some c2
      else if Z.even (c1 / t) then Some c1 else Some c2
  | true, false => Some c1
  | false, true => Some c2
  | false, false => None
  end.

(** The fewest digits that read back as [x]: the largest [p] that has such a
    multiple. *)
Fixpoint shortest (x : Z) (p : nat) : Z * nat :=
  match shortest_at x p with
  | Some c => (c, p)
  | None => match p with O => (x, O) | S p' => shortest x p' end
  end.

(** [d.ddde+n] *)
Definition exponent_form (c : Z) (p : nat) : string :=
  let n := Z.of_nat (String.length (digits c)) in
  match digits (c / 10 ^ Z.of_nat p) with
  | EmptyString => digits c
  | String d rest =>
      String d (match rest with
                | EmptyString => EmptyString
                | _ => String.append "." rest
                end)
      ++ "e+" ++ digits (n - 1)
  end.

(** Number::toString of ECMAScript, radix 10, on an integer. *)
Definition Number_toString (n : Z) : string :=
  if Z.abs n <? 2 ^ 53 then digits n else
  let x := nearest_double (Z.abs n) in
  let sign := if n <? 0 then "-" else EmptyString in
  if 2 ^ 1024 <=? x then sign ++ "Infinity" else
  let '(c, p) := shortest x (Z.to_nat (Z.log2 x)) in
  if c <? 10 ^ 21 then sign ++ digits c else sign ++ exponent_form c p.

End NumberToString.

(** Modelled from the spec: the npm package [is-callable] is not under src/;
    the spec takes it as "a generic callable predicate ... assumed correct",
    so it answers true exactly on function values. *)
Definition isCallable (v : value) : bool :=
  match v with
  | VFunction _ | VNative _ => true
  | _ => false
  end.

(** [promise instanceof Promise] *)
Definition instanceof_Promise (v : value) : bool :=
  match v with VPromise _ => true | _ => false end.

Definition argument (i : nat) (args : list value) : value :=
  nth i args VUndefined.

(** What the engine throws when a value that is not a function is called.
    The engine's message names the expression that was called; the model
    keeps one text for every call site. *)
Definition not_a_function : value := VTypeError "is not a function".

(** ** Records of the library *)

Record PromiseCapability : Type := {
  cap_promise : value;
  cap_resolve : value;
  cap_reject : value }.

Definition capability_object (c : PromiseCapability) : value :=
  VRecord (cap_promise c) (cap_resolve c) (cap_reject c).

Inductive REACTION_TYPE : Type := Fulfill | Reject.

Record Reaction : Type := {
  capability : PromiseCapability;
  type : REACTION_TYPE;
  handler : value }.

Inductive PROMISE_STATE : Type := PENDING | FULFILLED | REJECTED.

Definition is_pending (st : PROMISE_STATE) : bool :=
  match st with PENDING => true | _ => false end.

(** A data property with its [writable] attribute.  [Object.create(proto,
    { k: { value: v } })] makes [k] non-writable; neither file runs in strict
    mode, so an assignment to such a property is silently dropped. *)
Record property (A : Type) : Type := {
  prop_value : A;
  writable : bool }.

Definition assign {A} (p : property A) (v : A) : property A :=
  if writable p then {| prop_value := v; writable := true |} else p.

(** A promise object.  [None] in a reaction list is [undefined]; [None] in
    [PromiseResult] and [PromiseIsHandled_own] is an own property that does
    not exist yet (the object is extensible, so an assignment creates it). *)
Record PromiseObject : Type := {
  PromiseState : property PROMISE_STATE;
  PromiseFulfillReactions : property (option (list Reaction));
  PromiseRejectReactions : property (option (list Reaction));
  PromiseIsHandled : property bool;
  PromiseResult : option value;
  PromiseIsHandled_own : option bool }.

(** The object both constructors build with [Object.create]. *)
Definition created_promise : PromiseObject := {|
  PromiseState := {| prop_value := PENDING; writable := true |};
  PromiseFulfillReactions := {| prop_value := Some []; writable := false |};
  PromiseRejectReactions := {| prop_value := Some []; writable := false |};
  PromiseIsHandled := {| prop_value := false; writable := true |};
  PromiseResult := None;
  PromiseIsHandled_own := None |}.

Definition set_PromiseState (st : PROMISE_STATE) (o : PromiseObject) :=
  {| PromiseState := assign (PromiseState o) st;
     PromiseFulfillReactions := PromiseFulfillReactions o;
     PromiseRejectReactions := PromiseRejectReactions o;
     PromiseIsHandled := PromiseIsHandled o;
     PromiseResult := PromiseResult o;
     PromiseIsHandled_own := PromiseIsHandled_own o |}.

Definition set_PromiseFulfillReactions (l : option (list Reaction))
    (o : PromiseObject) :=
  {| PromiseState := PromiseState o;
     PromiseFulfillReactions := assign (PromiseFulfillReactions o) l;
     PromiseRejectReactions := PromiseRejectReactions o;
     PromiseIsHandled := PromiseIsHandled o;
     PromiseResult := PromiseResult o;
     PromiseIsHandled_own := PromiseIsHandled_own o |}.

Definition set_PromiseRejectReactions (l : option (list Reaction))
    (o : PromiseObject) :=
  {| PromiseState := PromiseState o;
     PromiseFulfillReactions := PromiseFulfillReactions o;
     PromiseRejectReactions := assign (PromiseRejectReactions o) l;
     PromiseIsHandled := PromiseIsHandled o;
     PromiseResult := PromiseResult o;
     PromiseIsHandled_own := PromiseIsHandled_own o |}.

Definition set_PromiseIsHandled (b : bool) (o : PromiseObject) :=
  {| PromiseState := PromiseState o;
     PromiseFulfillReactions := PromiseFulfillReactions o;
     PromiseRejectReactions := PromiseRejectReactions o;
     PromiseIsHandled := assign (PromiseIsHandled o) b;
     PromiseResult := PromiseResult o;
     PromiseIsHandled_own := PromiseIsHandled_own o |}.

Definition set_PromiseResult (v : value) (o : PromiseObject) :=
  {| PromiseState := PromiseState o;
     PromiseFulfillReactions := PromiseFulfillReactions o;
     PromiseRejectReactions := PromiseRejectReactions o;
     PromiseIsHandled := PromiseIsHandled o;
     PromiseResult := Some v;
     PromiseIsHandled_own := PromiseIsHandled_own o |}.

Definition set_PromiseIsHandled_own (b : bool) (o : PromiseObject) :=
  {| PromiseState := PromiseState o;
     PromiseFulfillReactions := PromiseFulfillReactions o;
     PromiseRejectReactions := PromiseRejectReactions o;
     PromiseIsHandled := PromiseIsHandled o;
     PromiseResult := PromiseResult o;
     PromiseIsHandled_own := Some b |}.

(** [array.push(r)] changes the array the property refers to, not the
    property, so it goes through whatever [writable] says. *)
Definition push_fulfill (r : Reaction) (o : PromiseObject) :=
  {| PromiseState := PromiseState o;
     PromiseFulfillReactions :=
       {| prop_value :=
            option_map (fun l => l ++ [r])
              (prop_value (PromiseFulfillReactions o));
          writable := writable (PromiseFulfillReactions o) |};
     PromiseRejectReactions := PromiseRejectReactions o;
     PromiseIsHandled := PromiseIsHandled o;
     PromiseResult := PromiseResult o;
     PromiseIsHandled_own := PromiseIsHandled_own o |}.

Definition push_reject (r : Reaction) (o : PromiseObject) :=
  {| PromiseState := PromiseState o;
     PromiseFulfillReactions := PromiseFulfillReactions o;
     PromiseRejectReactions :=
       {| prop_value :=
            option_map (fun l => l ++ [r])
              (prop_value (PromiseRejectReactions o));
          writable := writable (PromiseRejectReactions o) |};
     PromiseIsHandled := PromiseIsHandled o;
     PromiseResult := PromiseResult o;
     PromiseIsHandled_own := PromiseIsHandled_own o |}.

(** Reading a property that may not exist. *)
Definition read (v : option value) : value :=
  match v with Some x => x | None => VUndefined end.

(** ** The host: job queue and user code *)

(** The callbacks given to [setImmediate]. *)
Inductive Job : Type :=
| ReactionJob (reaction : Reaction) (argument : value)
| ResolveThenableJob (promise : nat) (thenable then_ : value).

(** User code, as the tree of the calls it makes into the library; each
    continuation receives what the call produced: [Invoke] calls a function
    value the library handed out, [NewPromise] is [new Promise(executor)] with
    the executor's own tree, [Deferred] is [Promise.deferred()].  Calls among
    the host's own functions are part of the tree itself.  User code reaches
    the heap of the library through these calls only: it does not write the
    properties of a promise object itself. *)
Inductive prog : Type :=
| Ret (c : completion)
| Invoke (f : native) (this : value) (args : list value)
    (k : completion -> prog)
| NewPromise (executor : value -> value -> prog) (k : completion -> prog)
| Deferred (k : completion -> prog).

Record Host : Type := {
  object_then : nat -> completion;     (* reading [o.then] on a host object *)
  function_then : nat -> completion;   (* reading [f.then] on a host function *)
  object_string : value -> outcome string;
    (* converting an object or a function to a string, which runs its own
       Symbol.toPrimitive, toString or valueOf: the text, or what the
       conversion throws *)
  body : nat -> value -> list value -> prog }.
    (* host function [f] called with [this] and arguments *)

(** ToString, as a template literal applies it.  A primitive has its text.
    An object or a function is first converted by its own methods, which are
    code outside the library: they return a text, or throw. *)
Definition ToString (H : Host) (v : value) : outcome string :=
  match v with
  | VUndefined => Returned "undefined"
  | VNull => Returned "null"
  | VBool true => Returned "true"
  | VBool false => Returned "false"
  | VNum n => Returned (Number_toString n)
  | VStr s => Returned s
  | VTypeError _ | VObject _ | VFunction _ | VPromise _ | VNative _
  | VRecord _ _ _ => object_string H v
  end.

(** [resolution.then] *)
Definition get_then (H : Host) (v : value) : completion :=
  match v with
  | VUndefined => Thrown (VTypeError "Cannot read property 'then' of undefined")
  | VNull => Thrown (VTypeError "Cannot read property 'then' of null")
  | VBool _ | VNum _ | VStr _ | VTypeError _ | VRecord _ _ _ =>
      Returned VUndefined
  | VObject o => object_then H o
  | VFunction f => function_then H f
  | VPromise _ => Returned (VNative PromiseThen)
  | VNative _ => Returned VUndefined
  end.

(** A call the library makes of a function value it holds. *)
Record Invocation : Type := {
  callee : value;
  receiver : value;
  arguments : list value }.

(** ** The heap *)

Record State (C : Type) : Type := {
  heap : nat -> PromiseObject;
  next_promise : nat;
  closures : nat -> C;          (* closure environments of resolving functions *)
  next_closure : nat;
  queue : list Job;             (* setImmediate callbacks not yet run *)
  ran : list Job;               (* callbacks the host loop took, oldest first *)
  calls : list Invocation;      (* calls of function values, oldest first *)
  console : list string }.

Section Heap.
Context {C : Type}.

Definition M (A : Type) : Type := State C -> outcome A * State C.

Definition ret {A} (a : A) : M A := fun s => (Returned a, s).
Definition throw {A} (e : value) : M A := fun s => (Thrown e, s).
Definition bind {A B} (m : M A) (k : A -> M B) : M B :=
  fun s => match m s with
           | (Returned a, s') => k a s'
           | (Thrown e, s') => (Thrown e, s')
           end.
(** try { m } catch (e) { h e } *)
Definition try_catch {A} (m : M A) (h : value -> M A) : M A :=
  fun s => match m s with
           | (Thrown e, s') => h e s'
           | r => r
           end.
(** run [m] and hand its completion over as a value *)
Definition attempt {A} (m : M A) : M (outcome A) :=
  fun s => let (r, s') := m s in (Returned r, s').
Definition gets {A} (f : State C -> A) : M A := fun s => (Returned (f s), s).
Definition modify (f : State C -> State C) : M unit :=
  fun s => (Returned tt, f s).
Definition lift {A} (r : outcome A) : M A := fun s => (r, s).

Definition with_heap (h : nat -> PromiseObject) (n : nat) (s : State C) :=
  {| heap := h; next_promise := n; closures := closures s;
     next_closure := next_closure s; queue := queue s; ran := ran s;
     calls := calls s; console := console s |}.

Definition with_closures (cl : nat -> C) (n : nat) (s : State C) :=
  {| heap := heap s; next_promise := next_promise s; closures := cl;
     next_closure := n; queue := queue s; ran := ran s; calls := calls s;
     console := console s |}.

Definition with_queue (q : list Job) (s : State C) :=
  {| heap := heap s; next_promise := next_promise s; closures := closures s;
     next_closure := next_closure s; queue := q; ran := ran s;
     calls := calls s; console := console s |}.

Definition with_calls (l : list Invocation) (s : State C) :=
  {| heap := heap s; next_promise := next_promise s; closures := closures s;
     next_closure := next_closure s; queue := queue s; ran := ran s;
     calls := l; console := console s |}.

Definition with_console (l : list string) (s : State C) :=
  {| heap := heap s; next_promise := next_promise s; closures := closures s;
     next_closure := next_closure s; queue := queue s; ran := ran s;
     calls := calls s; console := l |}.

(** The host loop takes callback [j] off the front of the queue. *)
Definition take_job (j : Job) (q : list Job) (s : State C) : State C :=
  {| heap := heap s; next_promise := next_promise s; closures := closures s;
     next_closure := next_closure s; queue := q; ran := ran s ++ [j];
     calls := calls s; console := console s |}.

Definition override {A} (f : nat -> A) (i : nat) (a : A) : nat -> A :=
  fun j => if Nat.eqb j i then a else f j.

(** Change the object at address [p]. *)
Definition update (p : nat) (f : PromiseObject -> PromiseObject)
    (s : State C) : State C :=
  with_heap (override (heap s) p (f (heap s p))) (next_promise s) s.

(** Object.create: a new promise object at a fresh address. *)
Definition allocate_promise : M nat := fun s =>
  (Returned (next_promise s),
   with_heap (override (heap s) (next_promise s) created_promise)
     (S (next_promise s)) s).

(** A new closure environment. *)
Definition allocate_closure (c : C) : M nat := fun s =>
  (Returned (next_closure s),
   with_closures (override (closures s) (next_closure s) c)
     (S (next_closure s)) s).

Definition update_closure (c : nat) (f : C -> C) (s : State C) : State C :=
  with_closures (override (closures s) c (f (closures s c)))
    (next_closure s) s.

(** Modelled from the spec: the host's [setImmediate] is not code of the
    repository; the spec (6) asks of it "FIFO deferred execution; must not run
    callback synchronously within the call that schedules it".  The callback
    goes to the back of the queue. *)
Definition setImmediate (j : Job) : M unit :=
  modify (fun s => with_queue (queue s ++ [j]) s).

Definition console_log (line : string) : M unit :=
  modify (fun s => with_console (console s ++ [line]) s).

Definition log_call (i : Invocation) : M unit :=
  modify (fun s => with_calls (calls s ++ [i]) s).

Definition state_of (s : State C) (p : nat) : PROMISE_STATE :=
  prop_value (PromiseState (heap s p)).
Definition result_of (s : State C) (p : nat) : option value :=
  PromiseResult (heap s p).
Definition fulfillReactions_of (s : State C) (p : nat) :=
  prop_value (PromiseFulfillReactions (heap s p)).
Definition rejectReactions_of (s : State C) (p : nat) :=
  prop_value (PromiseRejectReactions (heap s p)).

(** [list.forEach(f)] *)
Fixpoint forEach {A} (l : list A) (f : A -> M unit) : M unit :=
  match l with
  | [] => ret tt
  | x :: l' => bind (f x) (fun _ => forEach l' f)
  end.

Definition empty_state (c : C) : State C :=
  {| heap := fun _ => created_promise; next_promise := 0;
     closures := fun _ => c; next_closure := 0;
     queue := []; ran := []; calls := []; console := [] |}.
End Heap.

Arguments M : clear implicits.

Declare Scope js_scope.
Delimit Scope js_scope with js.
Notation "x <- m ;; k" := (bind m (fun x => k))
  (at level 61, m at next level, right associativity) : js_scope.
Notation "m ;;; k" := (bind m (fun _ => k))
  (at level 61, right associativity) : js_scope.
Open Scope js_scope.

Definition map_outcome {A B} (f : A -> B) (r : outcome A) : outcome B :=
  match r with Returned a => Returned (f a) | Thrown e => Thrown e end.

(** * src/unnamed/part_000 *)
Module Part000.

(** The variables a pair of resolving functions closes over. *)
Record Closure : Type := {
  promise_var : nat;          (* the [promise] parameter *)
  alreadySettled : bool }.

Definition set_alreadySettled (b : bool) (c : Closure) : Closure :=
  {| promise_var := promise_var c; alreadySettled := b |}.

Definition St := State Closure.

(* src/unnamed/part_000, lines 3-5 *)
Definition isObject (obj : value) : bool := String.eqb (typeof obj) "object".
(* src/unnamed/part_000, lines 7-9 *)
Definition isFunction (func : value) : bool :=
  String.eqb (typeof func) "function".
(* src/unnamed/part_000, lines 11-13 *)
Definition isPromise (promise : value) : bool := instanceof_Promise promise.

(* src/unnamed/part_000, lines 163-169 *)
Definition triggerPromiseReactions (reactions : option (list Reaction))
    (argument : value) : M Closure value :=
  match reactions with
  | None => throw (VTypeError "Cannot read property 'forEach' of undefined")
  | Some l =>
      forEach l (fun reaction => setImmediate (ReactionJob reaction argument)) ;;;
      ret VUndefined
  end.

(* src/unnamed/part_000, lines 123-136 *)
Definition fulfillPromise (promise : nat) (v : value) : M Closure value :=
  st <- gets (fun s => state_of s promise) ;;
  if negb (is_pending st) then ret VUndefined else
  reactions <- gets (fun s => fulfillReactions_of s promise) ;;
  modify (update promise (set_PromiseResult v)) ;;;
  modify (update promise (set_PromiseFulfillReactions None)) ;;;
  modify (update promise (set_PromiseRejectReactions None)) ;;;
  modify (update promise (set_PromiseState FULFILLED)) ;;;
  triggerPromiseReactions reactions v.

(* src/unnamed/part_000, lines 138-155 *)
Definition rejectPromise (promise : nat) (reason : value) : M Closure value :=
  st <- gets (fun s => state_of s promise) ;;
  if negb (is_pending st) then ret VUndefined else
  reactions <- gets (fun s => rejectReactions_of s promise) ;;
  modify (update promise (set_PromiseResult reason)) ;;;
  modify (update promise (set_PromiseFulfillReactions None)) ;;;
  modify (update promise (set_PromiseRejectReactions None)) ;;;
  modify (update promise (set_PromiseState REJECTED)) ;;;
  triggerPromiseReactions reactions reason.

(* src/unnamed/part_000, lines 69-121 *)
(** [createResolvingFunctions(promise)] makes one closure environment [c]; the
    object it returns is [{ resolve: VNative (ResolveFn c), reject: VNative
    (RejectFn c) }], so the environment's address stands for the pair. *)
Definition createResolvingFunctions (promise : nat) : M Closure nat :=
  allocate_closure {| promise_var := promise; alreadySettled := false |}.

Section WithHost.
Variable H : Host.

(* src/unnamed/part_000, lines 72-105 *)
(** The closure [resolve] of environment [c]. *)
Definition resolve (c : nat) (resolution : value) : M Closure value :=
  settled <- gets (fun s => alreadySettled (closures s c)) ;;
  if settled then ret VUndefined else
  modify (update_closure c (set_alreadySettled true)) ;;;
  promise <- gets (fun s => promise_var (closures s c)) ;;
  if strict_equal resolution (VPromise promise) then
    rejectPromise promise (VTypeError "resolution === promise")
  else if strict_equal resolution VNull then
    fulfillPromise promise resolution
  else if negb (isObject resolution) && negb (isFunction resolution) then
    fulfillPromise promise resolution
  else
    try_catch
      (thenAction <- lift (get_then H resolution) ;;
       if negb (isCallable thenAction) then
         fulfillPromise promise resolution
       else
         setImmediate (ResolveThenableJob promise resolution thenAction) ;;;
         ret VUndefined)
      (fun error => rejectPromise promise error).

(* src/unnamed/part_000, lines 107-115 *)
(** The closure [reject] of environment [c]. *)
Definition reject (c : nat) (reason : value) : M Closure value :=
  settled <- gets (fun s => alreadySettled (closures s c)) ;;
  if settled then ret VUndefined else
  modify (update_closure c (set_alreadySettled true)) ;;;
  promise <- gets (fun s => promise_var (closures s c)) ;;
  rejectPromise promise reason.

(* src/unnamed/part_000, lines 35-60 *)
(** [function Promise (executor)] from [Object.create] on, that is after the
    two guards, for an executor given by what it does.  Besides the promise it
    hands back how the executor completed. *)
Definition Promise_body {A} (executor : value -> value -> M Closure A)
    : M Closure (value * outcome A) :=
  promise <- allocate_promise ;;
  c <- createResolvingFunctions promise ;;
  r <- attempt (executor (VNative (ResolveFn c)) (VNative (RejectFn c))) ;;
  match r with
  | Thrown err => reject c err ;;; ret (VPromise promise, r)
  | Returned _ => ret (VPromise promise, r)
  end.

(* src/unnamed/part_000, lines 242-253 *)
(** The executor inside [newPromiseCapability]; it returns the capability
    record as it leaves it. *)
Definition capability_executor (promiseCapability : PromiseCapability)
    (resolve reject : value) : outcome PromiseCapability :=
  if truthy (cap_resolve promiseCapability) then
    Thrown (VTypeError "promiseCapability.Resolve")
  else if truthy (cap_reject promiseCapability) then
    Thrown (VTypeError "promiseCapability.Reject")
  else
    Returned {| cap_promise := cap_promise promiseCapability;
                cap_resolve := resolve;
                cap_reject := reject |}.

(* src/unnamed/part_000, lines 235-266 *)
Definition newPromiseCapability : M Closure PromiseCapability :=
  let promiseCapability :=
    {| cap_promise := VUndefined; cap_resolve := VUndefined;
       cap_reject := VUndefined |} in
  (* new Promise(executor): called with new, and executor is a function *)
  pr <- Promise_body (fun resolve reject =>
          lift (capability_executor promiseCapability resolve reject)) ;;
  let promiseCapability :=
    match snd pr with Returned cap => cap | Thrown _ => promiseCapability end in
  let promiseCapability :=
    {| cap_promise := fst pr;
       cap_resolve := cap_resolve promiseCapability;
       cap_reject := cap_reject promiseCapability |} in
  if negb (isCallable (cap_resolve promiseCapability)) then
    throw (VTypeError "!isCallable(promiseCapability.Resolve)")
  else if negb (isCallable (cap_reject promiseCapability)) then
    throw (VTypeError "!isCallable(promiseCapability.Reject)")
  else ret promiseCapability.

(* src/unnamed/part_000, lines 276-321 *)
Definition performPromiseThen (promise : nat) (onFulfilled onRejected : value)
    (resultCapability : PromiseCapability) : M Closure value :=
  let onFulfilled :=
    if negb (isCallable onFulfilled) then VUndefined else onFulfilled in
  let onRejected :=
    if negb (isCallable onRejected) then VUndefined else onRejected in
  let fulfillReaction :=
    {| capability := resultCapability; type := Fulfill;
       handler := onFulfilled |} in
  let rejectReaction :=
    {| capability := resultCapability; type := Reject;
       handler := onRejected |} in
  st <- gets (fun s => state_of s promise) ;;
  match st with
  | PENDING =>
      fl <- gets (fun s => fulfillReactions_of s promise) ;;
      match fl with
      | None => throw (VTypeError "Cannot read property 'push' of undefined")
      | Some _ => modify (update promise (push_fulfill fulfillReaction))
      end ;;;
      rl <- gets (fun s => rejectReactions_of s promise) ;;
      match rl with
      | None => throw (VTypeError "Cannot read property 'push' of undefined")
      | Some _ => modify (update promise (push_reject rejectReaction))
      end
  | FULFILLED =>
      v <- gets (fun s => read (result_of s promise)) ;;
      setImmediate (ReactionJob fulfillReaction v)
  | REJECTED =>
      reason <- gets (fun s => read (result_of s promise)) ;;
      setImmediate (ReactionJob rejectReaction reason)
  end ;;;
  (* promise.PromiseIsHandled = true: makes an own property of that name *)
  modify (update promise (set_PromiseIsHandled_own true)) ;;;
  ret (cap_promise resultCapability).

(* src/unnamed/part_000, lines 216-225 *)
(** [Promise.prototype.then] *)
Definition Promise_then (this onFulfilled onRejected : value)
    : M Closure value :=
  if negb (isPromise this) then throw (VTypeError "!IsPromise(promise)") else
  match this with
  | VPromise promise =>
      resultCapability <- newPromiseCapability ;;
      performPromiseThen promise onFulfilled onRejected resultCapability
  | _ => throw (VTypeError "!IsPromise(promise)")
  end.

(** Calling a function value made by the library. *)
Definition call_native (f : native) (this : value) (args : list value)
    : M Closure value :=
  match f with
  | ResolveFn c => resolve c (argument 0 args)
  | RejectFn c => reject c (argument 0 args)
  | PromiseThen => Promise_then this (argument 0 args) (argument 1 args)
  end.

(* src/unnamed/part_000, line 339 *)
(** [Promise.deferred = newPromiseCapability] *)
Definition Promise_deferred : M Closure value :=
  cap <- newPromiseCapability ;; ret (capability_object cap).

(** Running user code. *)
Fixpoint exec (t : prog) : M Closure value :=
  match t with
  | Ret c => lift c
  | Invoke f this args k =>
      r <- attempt (call_native f this args) ;; exec (k r)
  | NewPromise executor k =>
      r <- attempt (Promise_body (fun res rej => exec (executor res rej))) ;;
      exec (k (map_outcome fst r))
  | Deferred k =>
      r <- attempt Promise_deferred ;; exec (k r)
  end.

(** Calling any value [f] as [f.call(this, ...args)]. *)
Definition call (f : value) (this : value) (args : list value)
    : M Closure value :=
  match f with
  | VNative b =>
      log_call {| callee := f; receiver := this; arguments := args |} ;;;
      call_native b this args
  | VFunction g =>
      log_call {| callee := f; receiver := this; arguments := args |} ;;;
      exec (body H g this args)
  | _ => throw not_a_function
  end.

(* src/unnamed/part_000, lines 26-61 *)
(** [function Promise (executor)]; [new_target] says whether it was called
    with [new]. *)
Definition Promise (new_target : bool) (executor : value) : M Closure value :=
  if negb new_target then
    throw (VTypeError "undefined is not a promise")
  else if negb (isCallable executor) then
    text <- lift (ToString H executor) ;;
    throw (VTypeError (String.append "Promise resolver "
             (String.append text " is not a function")))
  else
    pr <- Promise_body (fun resolve reject =>
            call executor VUndefined [resolve; reject]) ;;
    ret (fst pr).

(* src/unnamed/part_000, lines 176-197 *)
Definition promiseReactionJob (reaction : Reaction) (argument : value)
    : M Closure value :=
  let capability := capability reaction in
  let type := type reaction in
  let handler := handler reaction in
  if negb (truthy handler) then
    match type with
    | Fulfill =>
        call (cap_resolve capability) (capability_object capability)
          [argument]
    | Reject =>
        call (cap_reject capability) (capability_object capability)
          [argument]
    end ;;; ret VUndefined
  else
    try_catch
      (handlerResult <- call handler VUndefined [argument] ;;
       call (cap_resolve capability) (capability_object capability)
         [handlerResult] ;;;
       ret VUndefined)
      (fun error =>
         call (cap_reject capability) (capability_object capability) [error] ;;;
         ret VUndefined).

(* src/unnamed/part_000, lines 207-214 *)
Definition promiseResolveThenableJob (promise : nat) (thenable then_ : value)
    : M Closure value :=
  c <- createResolvingFunctions promise ;;
  try_catch
    (call then_ thenable [VNative (ResolveFn c); VNative (RejectFn c)])
    (fun error => reject c error).

(* src/unnamed/part_000, lines 323-329 *)
(** [Promise.resolve] *)
Definition Promise_resolve (x : value) : M Closure value :=
  promiseCapability <- newPromiseCapability ;;
  call (cap_resolve promiseCapability) (capability_object promiseCapability)
    [x] ;;;
  ret (cap_promise promiseCapability).

(* src/unnamed/part_000, lines 331-337 *)
(** [Promise.reject] *)
Definition Promise_reject (r : value) : M Closure value :=
  promiseCapability <- newPromiseCapability ;;
  call (cap_reject promiseCapability) (capability_object promiseCapability)
    [r] ;;;
  ret (cap_promise promiseCapability).

(** The callback a job stands for. *)
Definition run_job (j : Job) : M Closure value :=
  match j with
  | ReactionJob reaction argument => promiseReactionJob reaction argument
  | ResolveThenableJob promise thenable then_ =>
      promiseResolveThenableJob promise thenable then_
  end.

(** Modelled from the spec: the host's loop (spec 5, "jobs execute in the
    order they were scheduled").  It takes the callback at the front of the
    queue and runs it, at most [n] times.  What the host does with a throw no
    callback caught is its own business; the loop goes on with the next
    callback. *)
Fixpoint run_jobs (n : nat) (s : St) : St :=
  match n with
  | O => s
  | S n' =>
      match queue s with
      | [] => s
      | j :: q => run_jobs n' (snd (run_job j (take_job j q s)))
      end
  end.

(** What the program around the library can do, one step at a time. *)
Inductive Action : Type :=
| Run (t : prog)                                   (* user code *)
| Call (f this : value) (args : list value)        (* f.call(this, ...args) *)
| Construct (new_target : bool) (executor : value) (* Promise(executor) *)
| StaticResolve (x : value)                        (* Promise.resolve(x) *)
| StaticReject (r : value)                         (* Promise.reject(r) *)
| Turn (n : nat).                                  (* the host loop *)

Definition perform (a : Action) (s : St) : St :=
  match a with
  | Run t => snd (exec t s)
  | Call f this args => snd (call f this args s)
  | Construct new_target executor => snd (Promise new_target executor s)
  | StaticResolve x => snd (Promise_resolve x s)
  | StaticReject r => snd (Promise_reject r s)
  | Turn n => run_jobs n s
  end.

(** [later s s']: the heap [s'] comes after the heap [s]. *)
Inductive later : St -> St -> Prop :=
| later_now (s : St) : later s s
| later_step (s s' : St) (a : Action) : later s s' -> later s (perform a s').

End WithHost.
End Part000.

(** * src/promise.js *)
Module PromiseJs.

(** The variables one resolving function closes over: each of
    [getPromiseResolveFunctions] and [getPromiseRejectFunctions] declares its
    own [let Promise; let AlreadyResolved;].  [None] is a variable that is
    still [undefined]. *)
Record Closure : Type := {
  Promise_var : option nat;
  AlreadyResolved_var : option bool }.

Definition St := State Closure.

(* src/promise.js, lines 3-5 *)
Definition isObject (obj : value) : bool := String.eqb (typeof obj) "object".
(* src/promise.js, lines 7-9 *)
Definition IsPromise (promise : value) : bool := instanceof_Promise promise.

(* src/promise.js, lines 218-221 *)
Definition HostPromiseRejectionTracker (promise : nat) (operation : string)
    : M Closure unit :=
  console_log (String.append "HostPromiseRejectionTracker is invoked: " operation).

(* src/promise.js, lines 229-235 *)
Definition TriggerPromiseReactions (reactions : option (list Reaction))
    (argument : value) : M Closure value :=
  match reactions with
  | None => throw (VTypeError "Cannot read property 'forEach' of undefined")
  | Some l =>
      forEach l (fun reaction => setImmediate (ReactionJob reaction argument)) ;;;
      ret VUndefined
  end.

(* src/promise.js, lines 193-201 *)
Definition FulfillPromise (promise : nat) (v : value) : M Closure value :=
  reactions <- gets (fun s => fulfillReactions_of s promise) ;;
  modify (update promise (set_PromiseResult v)) ;;;
  modify (update promise (set_PromiseFulfillReactions None)) ;;;
  modify (update promise (set_PromiseRejectReactions None)) ;;;
  modify (update promise (set_PromiseState FULFILLED)) ;;;
  TriggerPromiseReactions reactions v.

(* src/promise.js, lines 203-216 *)
Definition RejectPromise (promise : nat) (reason : value) : M Closure value :=
  reactions <- gets (fun s => rejectReactions_of s promise) ;;
  modify (update promise (set_PromiseResult reason)) ;;;
  modify (update promise (set_PromiseFulfillReactions None)) ;;;
  modify (update promise (set_PromiseRejectReactions None)) ;;;
  modify (update promise (set_PromiseState REJECTED)) ;;;
  handled <- gets (fun s => prop_value (PromiseIsHandled (heap s promise))) ;;
  (if negb handled then HostPromiseRejectionTracker promise "reject"
   else ret tt) ;;;
  TriggerPromiseReactions reactions reason.

(* src/promise.js, lines 134-139 *)
(** [getPromiseResolveFunctions()]: a new environment with both variables
    undefined; its address stands for the object of the two setters and
    [Function]. *)
Definition getPromiseResolveFunctions : M Closure nat :=
  allocate_closure {| Promise_var := None; AlreadyResolved_var := None |}.

(* src/promise.js, lines 172-177 *)
Definition getPromiseRejectFunctions : M Closure nat :=
  allocate_closure {| Promise_var := None; AlreadyResolved_var := None |}.

(* src/promise.js, lines 138 and 176 *)
Definition setPromise (c : nat) (v : nat) : M Closure unit :=
  modify (update_closure c (fun e =>
    {| Promise_var := Some v; AlreadyResolved_var := AlreadyResolved_var e |})).

(* src/promise.js, lines 139 and 177 *)
Definition setAlreadyResolved (c : nat) (v : bool) : M Closure unit :=
  modify (update_closure c (fun e =>
    {| Promise_var := Promise_var e; AlreadyResolved_var := Some v |})).

(** The truth value of the variable [AlreadyResolved]. *)
Definition alreadyResolved_of (e : Closure) : bool :=
  match AlreadyResolved_var e with Some b => b | None => false end.

(** A read of a property of [promise] when the variable was never set. *)
Definition the_promise (v : option nat) : M Closure nat :=
  match v with
  | Some p => ret p
  | None => throw (VTypeError "Cannot read property of undefined")
  end.

(* src/promise.js, lines 117-132 *)
(** [CreateResolvingFunctions(promise)]: the pair holds the addresses of the
    environments of [Resolve] and of [Reject]. *)
Definition CreateResolvingFunctions (promise : nat) : M Closure (nat * nat) :=
  let alreadyResolved := false in
  resolve <- getPromiseResolveFunctions ;;
  setPromise resolve promise ;;;
  setAlreadyResolved resolve alreadyResolved ;;;
  reject <- getPromiseRejectFunctions ;;
  setPromise reject promise ;;;
  setAlreadyResolved reject alreadyResolved ;;;
  ret (resolve, reject).

Section WithHost.
Variable H : Host.

(* src/promise.js, lines 140-168 *)
(** [Function] of [getPromiseResolveFunctions], over environment [c]. *)
Definition resolve_Function (c : nat) (resolution : value) : M Closure value :=
  promise_v <- gets (fun s => Promise_var (closures s c)) ;;
  alreadyResolved <- gets (fun s => alreadyResolved_of (closures s c)) ;;
  if alreadyResolved then ret VUndefined else
  setAlreadyResolved c true ;;;
  promise <- the_promise promise_v ;;
  if strict_equal resolution (VPromise promise) then
    RejectPromise promise (VTypeError "resolution === promise")
  else if negb (isObject resolution) then
    FulfillPromise promise resolution
  else
    thenAction <- lift (get_then H resolution) ;;
    if negb (isCallable thenAction) then
      FulfillPromise promise resolution
    else
      setImmediate (ResolveThenableJob promise resolution thenAction) ;;;
      ret VUndefined.

(* src/promise.js, lines 178-189 *)
(** [Function] of [getPromiseRejectFunctions], over environment [c]. *)
Definition reject_Function (c : nat) (reason : value) : M Closure value :=
  promise_v <- gets (fun s => Promise_var (closures s c)) ;;
  alreadyResolved <- gets (fun s => alreadyResolved_of (closures s c)) ;;
  if alreadyResolved then ret VUndefined else
  setAlreadyResolved c true ;;;
  promise <- the_promise promise_v ;;
  RejectPromise promise reason.

(* src/promise.js, lines 20-45 *)
(** [function Promise (executor)] from [Object.create] on, for an executor
    given by what it does. *)
Definition Promise_body {A} (executor : value -> value -> M Closure A)
    : M Closure (value * outcome A) :=
  promise <- allocate_promise ;;
  resolvingFunctions <- CreateResolvingFunctions promise ;;
  r <- attempt (executor (VNative (ResolveFn (fst resolvingFunctions)))
                  (VNative (RejectFn (snd resolvingFunctions)))) ;;
  match r with
  | Thrown err =>
      reject_Function (snd resolvingFunctions) err ;;;
      ret (VPromise promise, r)
  | Returned _ => ret (VPromise promise, r)
  end.

(* src/promise.js, lines 312-323 *)
Definition capability_executor (promiseCapability : PromiseCapability)
    (resolve reject : value) : outcome PromiseCapability :=
  if truthy (cap_resolve promiseCapability) then
    Thrown (VTypeError "promiseCapability.Resolve")
  else if truthy (cap_reject promiseCapability) then
    Thrown (VTypeError "promiseCapability.Reject")
  else
    Returned {| cap_promise := cap_promise promiseCapability;
                cap_resolve := resolve;
                cap_reject := reject |}.

(* src/promise.js, lines 305-336 *)
Definition NewPromiseCapability : M Closure PromiseCapability :=
  let promiseCapability :=
    {| cap_promise := VUndefined; cap_resolve := VUndefined;
       cap_reject := VUndefined |} in
  pr <- Promise_body (fun resolve reject =>
          lift (capability_executor promiseCapability resolve reject)) ;;
  let promiseCapability :=
    match snd pr with Returned cap => cap | Thrown _ => promiseCapability end in
  let promiseCapability :=
    {| cap_promise := fst pr;
       cap_resolve := cap_resolve promiseCapability;
       cap_reject := cap_reject promiseCapability |} in
  if negb (isCallable (cap_resolve promiseCapability)) then
    throw (VTypeError "!isCallable(promiseCapability.Resolve)")
  else if negb (isCallable (cap_reject promiseCapability)) then
    throw (VTypeError "!isCallable(promiseCapability.Reject)")
  else ret promiseCapability.

Definition state_name (st : PROMISE_STATE) : string :=
  match st with
  | PENDING => "pending"
  | FULFILLED => "fulfilled"
  | REJECTED => "rejected"
  end.

(* src/promise.js, lines 245-295 *)
Definition PerformPromiseThen (promise : nat) (onFulfilled onRejected : value)
    (resultCapability : PromiseCapability) : M Closure value :=
  let onFulfilled :=
    if negb (isCallable onFulfilled) then VUndefined else onFulfilled in
  let onRejected :=
    if negb (isCallable onRejected) then VUndefined else onRejected in
  let fulfillReaction :=
    {| capability := resultCapability; type := Fulfill;
       handler := onFulfilled |} in
  let rejectReaction :=
    {| capability := resultCapability; type := Reject;
       handler := onRejected |} in
  st <- gets (fun s => state_of s promise) ;;
  console_log (String.append "state: " (state_name st)) ;;;
  match st with
  | PENDING =>
      fl <- gets (fun s => fulfillReactions_of s promise) ;;
      match fl with
      | None => throw (VTypeError "Cannot read property 'push' of undefined")
      | Some _ => modify (update promise (push_fulfill fulfillReaction))
      end ;;;
      rl <- gets (fun s => rejectReactions_of s promise) ;;
      match rl with
      | None => throw (VTypeError "Cannot read property 'push' of undefined")
      | Some _ => modify (update promise (push_reject rejectReaction))
      end
  | FULFILLED =>
      v <- gets (fun s => read (result_of s promise)) ;;
      setImmediate (ReactionJob fulfillReaction v)
  | REJECTED =>
      reason <- gets (fun s => read (result_of s promise)) ;;
      handled <- gets (fun s => prop_value (PromiseIsHandled (heap s promise))) ;;
      (if negb handled then HostPromiseRejectionTracker promise "handle"
       else ret tt) ;;;
      setImmediate (ReactionJob rejectReaction reason)
  end ;;;
  modify (update promise (set_PromiseIsHandled true)) ;;;
  ret (cap_promise resultCapability).

(* src/promise.js, lines 48-57 *)
(** [Promise.prototype.then] *)
Definition Promise_then (this onFulfilled onRejected : value)
    : M Closure value :=
  if negb (IsPromise this) then throw (VTypeError "!IsPromise(promise)") else
  match this with
  | VPromise promise =>
      resultCapability <- NewPromiseCapability ;;
      PerformPromiseThen promise onFulfilled onRejected resultCapability
  | _ => throw (VTypeError "!IsPromise(promise)")
  end.

Definition call_native (f : native) (this : value) (args : list value)
    : M Closure value :=
  match f with
  | ResolveFn c => resolve_Function c (argument 0 args)
  | RejectFn c => reject_Function c (argument 0 args)
  | PromiseThen => Promise_then this (argument 0 args) (argument 1 args)
  end.

(* src/promise.js, lines 338-350 *)
(** [Promise.deferred] *)
Definition Promise_deferred : M Closure value :=
  cap <- NewPromiseCapability ;;
  ret (VRecord (cap_promise cap) (cap_resolve cap) (cap_reject cap)).

Fixpoint exec (t : prog) : M Closure value :=
  match t with
  | Ret c => lift c
  | Invoke f this args k =>
      r <- attempt (call_native f this args) ;; exec (k r)
  | NewPromise executor k =>
      r <- attempt (Promise_body (fun res rej => exec (executor res rej))) ;;
      exec (k (map_outcome fst r))
  | Deferred k =>
      r <- attempt Promise_deferred ;; exec (k r)
  end.

(** [f.call(this, ...args)] *)
Definition call (f : value) (this : value) (args : list value)
    : M Closure value :=
  match f with
  | VNative b =>
      log_call {| callee := f; receiver := this; arguments := args |} ;;;
      call_native b this args
  | VFunction g =>
      log_call {| callee := f; receiver := this; arguments := args |} ;;;
      exec (body H g this args)
  | _ => throw not_a_function
  end.

(* src/promise.js, lines 11-46 *)
Definition Promise (new_target : bool) (executor : value) : M Closure value :=
  if negb new_target then
    throw (VTypeError "undefined is not a promise")
  else if negb (isCallable executor) then
    text <- lift (ToString H executor) ;;
    throw (VTypeError (String.append "Promise resolver "
             (String.append text " is not a function")))
  else
    pr <- Promise_body (fun resolve reject =>
            call executor VUndefined [resolve; reject]) ;;
    ret (fst pr).

(* src/promise.js, lines 80-99 *)
Definition PromiseReactionJob (reaction : Reaction) (argument : value)
    : M Closure value :=
  let promiseCapability := capability reaction in
  let type := type reaction in
  let handler := handler reaction in
  if strict_equal handler VUndefined then
    match type with
    | Fulfill => call (cap_resolve promiseCapability) VUndefined [argument]
    | Reject => call (cap_reject promiseCapability) VUndefined [argument]
    end ;;; ret VUndefined
  else
    try_catch
      (handlerResult <- call handler VUndefined [argument] ;;
       call (cap_resolve promiseCapability) VUndefined [handlerResult] ;;;
       ret VUndefined)
      (fun error =>
         call (cap_reject promiseCapability) VUndefined [error] ;;;
         ret VUndefined).

(* src/promise.js, lines 101-109 *)
Definition PromiseResolveThenableJob (promise : nat)
    (resolution thenAction : value) : M Closure value :=
  resolvingFunctions <- CreateResolvingFunctions promise ;;
  try_catch
    (call thenAction resolution
       [VNative (ResolveFn (fst resolvingFunctions));
        VNative (RejectFn (snd resolvingFunctions))])
    (fun error => reject_Function (snd resolvingFunctions) error).

(* src/promise.js, lines 59-65 *)
(** [Promise.resolve] *)
Definition Promise_resolve (x : value) : M Closure value :=
  promiseCapability <- NewPromiseCapability ;;
  call (cap_resolve promiseCapability) VUndefined [x] ;;;
  ret (cap_promise promiseCapability).

(* src/promise.js, lines 67-73 *)
(** [Promise.reject] *)
Definition Promise_reject (r : value) : M Closure value :=
  promiseCapability <- NewPromiseCapability ;;
  call (cap_reject promiseCapability) VUndefined [r] ;;;
  ret (cap_promise promiseCapability).

Definition run_job (j : Job) : M Closure value :=
  match j with
  | ReactionJob reaction argument => PromiseReactionJob reaction argument
  | ResolveThenableJob promise resolution thenAction =>
      PromiseResolveThenableJob promise resolution thenAction
  end.

Fixpoint run_jobs (n : nat) (s : St) : St :=
  match n with
  | O => s
  | S n' =>
      match queue s with
      | [] => s
      | j :: q => run_jobs n' (snd (run_job j (take_job j q s)))
      end
  end.

(** What the program around the library can do, one step at a time. *)
Inductive Action : Type :=
| Run (t : prog)                                   (* user code *)
| Call (f this : value) (args : list value)        (* f.call(this, ...args) *)
| Construct (new_target : bool) (executor : value) (* Promise(executor) *)
| StaticResolve (x : value)                        (* Promise.resolve(x) *)
| StaticReject (r : value)                         (* Promise.reject(r) *)
| Turn (n : nat).                                  (* the host loop *)

Definition perform (a : Action) (s : St) : St :=
  match a with
  | Run t => snd (exec t s)
  | Call f this args => snd (call f this args s)
  | Construct new_target executor => snd (Promise new_target executor s)
  | StaticResolve x => snd (Promise_resolve x s)
  | StaticReject r => snd (Promise_reject r s)
  | Turn n => run_jobs n s
  end.

(** [later s s']: the heap [s'] comes after the heap [s]. *)
Inductive later : St -> St -> Prop :=
| later_now (s : St) : later s s
| later_step (s s' : St) (a : Action) : later s s' -> later s (perform a s').

End WithHost.
End PromiseJs.

(** * Vocabulary of the statements *)

Definition is_array {A} (o : option A) : bool :=
  match o with Some _ => true | None => false end.

(** A promise object as the constructor makes it and as the library's own
    assignments leave it: the state is writable, the two reaction properties
    are not, and both hold arrays. *)
Definition is_promise_object (o : PromiseObject) : bool :=
  writable (PromiseState o)
  && negb (writable (PromiseFulfillReactions o))
  && negb (writable (PromiseRejectReactions o))
  && is_array (prop_value (PromiseFulfillReactions o))
  && is_array (prop_value (PromiseRejectReactions o)).

Definition well_formed {C} (s : State C) : Prop :=
  forall p, is_promise_object (heap s p) = true.

Definition extended_by {A} (l l' : list A) : Prop := exists t, l' = l ++ t.

Definition lists_grow (o o' : PromiseObject) : Prop :=
  (forall l, prop_value (PromiseFulfillReactions o) = Some l ->
     extended_by l (match prop_value (PromiseFulfillReactions o') with
                    | Some l' => l' | None => [] end)
     /\ is_array (prop_value (PromiseFulfillReactions o')) = true)
  /\ (forall l, prop_value (PromiseRejectReactions o) = Some l ->
     extended_by l (match prop_value (PromiseRejectReactions o') with
                    | Some l' => l' | None => [] end)
     /\ is_array (prop_value (PromiseRejectReactions o')) = true).

(** The schedule: the callbacks the host loop has run, then those waiting. *)
Definition schedule {C} (s : State C) : list Job := ran s ++ queue s.

(** [grows s s']: nothing that [s] recorded has been taken back in [s']. *)
Record grows {C} (s s' : State C) : Prop := {
  grows_promises : next_promise s <= next_promise s';
  grows_closures : next_closure s <= next_closure s';
  grows_lists : forall p, p < next_promise s ->
                  lists_grow (heap s p) (heap s' p);
  grows_schedule : extended_by (schedule s) (schedule s');
  grows_ran : extended_by (ran s) (ran s');
  grows_calls : extended_by (calls s) (calls s') }.

(** A change of one object that keeps it a promise object and its lists. *)
Definition gentle (f : PromiseObject -> PromiseObject) : Prop :=
  forall o, is_promise_object o = true ->
    is_promise_object (f o) = true /\ lists_grow o (f o).

(** A change of one object that leaves state and result alone. *)
Definition keeps_settlement (f : PromiseObject -> PromiseObject) : Prop :=
  forall o, prop_value (PromiseState (f o)) = prop_value (PromiseState o)
            /\ PromiseResult (f o) = PromiseResult o.

(** [m] keeps the invariant [I] and moves the heap along [R]. *)
Definition sound {C A} (I : State C -> Prop) (R : State C -> State C -> Prop)
    (m : M C A) : Prop :=
  forall s, I s -> I (snd (m s)) /\ R s (snd (m s)).

(** What [then] stores as a handler. *)
Definition coerce (h : value) : value :=
  if negb (isCallable h) then VUndefined else h.

(** A value [resolve] takes as it is: null, a primitive, or an object or
    function whose [then] reads as something not callable. *)
Definition plain_value (H : Host) (v : value) : bool :=
  match v with
  | VNull | VUndefined | VBool _ | VNum _ | VStr _ => true
  | _ => match get_then H v with
         | Returned t => negb (isCallable t)
         | Thrown _ => false
         end
  end.

(** An object or function whose [then] reads as a callable. *)
Definition thenable (H : Host) (v : value) : bool :=
  match v with
  | VNull | VUndefined | VBool _ | VNum _ | VStr _ => false
  | _ => match get_then H v with
         | Returned t => isCallable t
         | Thrown _ => false
         end
  end.

(** The heap after the four assignments of a settlement of [p]. *)
Definition settled {C} (p : nat) (st : PROMISE_STATE) (v : value)
    (s : State C) : State C :=
  update p (set_PromiseState st)
    (update p (set_PromiseRejectReactions None)
       (update p (set_PromiseFulfillReactions None)
          (update p (set_PromiseResult v) s))).

(** The reaction job in the words of the spec (4.4): with no handler the
    argument goes on to the downstream capability, to its resolve for a
    Fulfill reaction and to its reject for a Reject reaction; with a handler,
    what the handler returns goes to the downstream resolve and what it throws
    to the downstream reject.  [call] is the way a function value is called
    and [this] the receiver of the capability's functions. *)
Definition reactionJob_spec {C}
    (call : value -> value -> list value -> M C value) (this : value)
    (reaction : Reaction) (argument : value) : M C value :=
  let downstream := capability reaction in
  match handler reaction with
  | VUndefined =>
      match type reaction with
      | Fulfill => call (cap_resolve downstream) this [argument]
      | Reject => call (cap_reject downstream) this [argument]
      end ;;; ret VUndefined
  | h =>
      fun s =>
        match call h VUndefined [argument] s with
        | (Returned result, s1) =>
            (call (cap_resolve downstream) this [result] ;;; ret VUndefined) s1
        | (Thrown error, s1) =>
            (call (cap_reject downstream) this [error] ;;; ret VUndefined) s1
        end
  end.

(** [quiet s s']: between [s] and [s'] no function value was called and the
    host loop took no callback. *)
Definition quiet {C} (s s' : State C) : Prop :=
  calls s' = calls s /\ ran s' = ran s.

Definition anything {C} (s : State C) : Prop := True.





(** A host program used for the worked examples.  Functions: 0 is
    [function (resolve, reject) { resolve(5) }], 1 is [v => v], 2 is
    [(resolve, reject) => { resolve(1); throw 'late' }], 3 is [e => null];
    function 7 carries a [then] that is function 0.  Objects: 0 has function 0
    as its [then], 1 has a [then] getter that throws 'boom', the others have
    no [then]; 2 has a [toString] that throws 'boom', 3 is the array [1, 2];
    the host has set [Function.prototype.toString] to answer 'function', and
    has left the conversions of the other objects as the engine has them. *)
Definition demo_host : Host := {|
  object_then := fun o =>
    match o with
    | 0 => Returned (VFunction 0)
    | 1 => Thrown (VStr "boom")
    | _ => Returned VUndefined
    end;
  function_then := fun f =>
    match f with
    | 7 => Returned (VFunction 0)
    | _ => Returned VUndefined
    end;
  body := fun f this args =>
    match f with
    | 0 =>
        match argument 0 args with
        | VNative resolve =>
            Invoke resolve VUndefined [VNum 5]
              (fun _ => Ret (Returned VUndefined))
        | _ => Ret (Thrown (VTypeError "resolve is not a function"))
        end
    | 1 => Ret (Returned (argument 0 args))
    | 2 =>
        match argument 0 args with
        | VNative resolve =>
            Invoke resolve VUndefined [VNum 1]
              (fun _ => Ret (Thrown (VStr "late")))
        | _ => Ret (Thrown (VTypeError "resolve is not a function"))
        end
    | 3 => Ret (Returned VNull)
    | _ => Ret (Returned VUndefined)
    end;
  object_string := fun v =>
    match v with
    | VObject 2 => Thrown (VStr "boom")
    | VObject 3 => Returned "1,2"
    | VTypeError msg =>
        Returned (if String.eqb msg EmptyString then "TypeError"
                  else String.append "TypeError: " msg)
    | VFunction _ | VNative _ => Returned "function"
    | _ => Returned "[object Object]"
    end |}.


(** [fires final s s']: a promise of [s] that is fulfilled in [s'] and was
    not in [s] has had the jobs of its fulfill reactions scheduled in between,
    in the order of its list: those it had in [s], then those registered
    since.  With [final] the jobs carry the result the promise has in
    [s']. *)
Definition fires {C} (final : Prop) (s s' : State C) : Prop :=
  forall p l, p < next_promise s ->
    state_of s p <> FULFILLED -> state_of s' p = FULFILLED ->
    fulfillReactions_of s p = Some l ->
    exists v t a b,
      schedule s'
      = schedule s ++ a ++ map (fun r => ReactionJob r v) (l ++ t) ++ b
      /\ (final -> result_of s' p = Some v).

Module Part000Spec.
Import Part000.

(** Flags stay raised and settled promises stay as they are. *)
Record settles_once (s s' : St) : Prop := {
  keeps_flags : forall c, c < next_closure s ->
      promise_var (closures s' c) = promise_var (closures s c)
      /\ (alreadySettled (closures s c) = true ->
          alreadySettled (closures s' c) = true);
  keeps_settled : forall p, p < next_promise s ->
      state_of s p <> PENDING ->
      state_of s' p = state_of s p /\ result_of s' p = result_of s p }.

Definition extends (s s' : St) : Prop :=
  grows s s' /\ settles_once s s' /\ fires True s s'.

Definition initial : St :=
  empty_state {| promise_var := 0; alreadySettled := false |}.

(** The heap right after [newPromiseCapability] and the log entry of the call
    of its resolving function. *)
Definition capability_made (f : native) (this : value) (args : list value)
    (s : St) : St :=
  with_calls
    (calls s ++ [{| callee := VNative f; receiver := this; arguments := args |}])
    (with_closures
       (override (closures s) (next_closure s)
          {| promise_var := next_promise s; alreadySettled := false |})
       (S (next_closure s))
       (with_heap (override (heap s) (next_promise s) created_promise)
          (S (next_promise s)) s)).

(** The heap and the record [newPromiseCapability] leaves. *)
Definition with_capability (s : St) : St :=
  with_closures
    (override (closures s) (next_closure s)
       {| promise_var := next_promise s; alreadySettled := false |})
    (S (next_closure s))
    (with_heap (override (heap s) (next_promise s) created_promise)
       (S (next_promise s)) s).

Definition new_capability (s : St) : PromiseCapability :=
  {| cap_promise := VPromise (next_promise s);
     cap_resolve := VNative (ResolveFn (next_closure s));
     cap_reject := VNative (RejectFn (next_closure s)) |}.

End Part000Spec.

Module PromiseJsSpec.
Import PromiseJs.

Definition initial : St :=
  empty_state {| Promise_var := None; AlreadyResolved_var := None |}.

Definition advances (s s' : St) : Prop := grows s s' /\ fires False s s'.

(** The heap and the record [NewPromiseCapability] leaves. *)
Definition with_capability (s : St) : St := snd (NewPromiseCapability s).

Definition new_capability (s : St) : PromiseCapability :=
  {| cap_promise := VPromise (next_promise s);
     cap_resolve := VNative (ResolveFn (next_closure s));
     cap_reject := VNative (RejectFn (S (next_closure s))) |}.

End PromiseJsSpec.

(** ** Vocabulary of the further properties *)

(** The heap after the first call of a function of the pair [c] has settled
    [p] in src/unnamed/part_000: the flag is raised, the four assignments are
    made and the jobs of the reactions [l] are scheduled. *)
Definition settled_by (c p : nat) (st : PROMISE_STATE) (v : value)
    (l : list Reaction) (s : Part000.St) : Part000.St :=
  with_queue (queue s ++ map (fun r => ReactionJob r v) l)
    (settled p st v
       (update_closure c (Part000.set_alreadySettled true) s)).

(** A host all of whose functions throw [e] at once; every object's [then]
    is function 0. *)
Definition throwing_host (e : value) : Host := {|
  object_then := fun _ => Returned (VFunction 0);
  function_then := fun _ => Returned VUndefined;
  object_string := fun _ => Returned "[object Object]";
  body := fun _ _ _ => Ret (Thrown e) |}.

(** [keeps_bindings s s']: between [s] and [s'] no resolving function of
    src/promise.js had its variable [Promise] changed or its variable
    [AlreadyResolved] taken back from true. *)
Record keeps_bindings (s s' : PromiseJs.St) : Prop := {
  bindings_next : next_closure s <= next_closure s';
  bindings_promise : forall c, c < next_closure s ->
      PromiseJs.Promise_var (closures s' c)
      = PromiseJs.Promise_var (closures s c);
  bindings_flag : forall c, c < next_closure s ->
      PromiseJs.alreadyResolved_of (closures s c) = true ->
      PromiseJs.alreadyResolved_of (closures s' c) = true }.

(** The test of src/promise.js, lines 155-163, that sends a resolution
    straight to [FulfillPromise]: not an object by [typeof], or an object
    whose [then] reads as something not callable. *)
Definition fulfills_directly_js (H : Host) (v : value) : bool :=
  negb (PromiseJs.isObject v)
  || match get_then H v with
     | Returned t => negb (isCallable t)
     | Thrown _ => false
     end.

(** What the promise [n] that [then] returned has become in the heap [s3],
    one turn of the host loop after the promise it was registered on was
    settled with [v] in state [st], where [g] is the handler given to [then]
    for that state.  A handler that is not callable lets the settlement
    through.  A host function that throws at once rejects [n].  A host
    function that returns [w] at once resolves [n] with [w]: fulfilled with a
    plain value, left pending behind the job that will call [then] of a
    thenable, rejected with a TypeError when [w] is [n] itself, rejected with
    what reading [then] of [w] throws. *)
Definition link_outcome (H : Host) (n : nat) (g v : value)
    (st : PROMISE_STATE) (s3 : Part000.St) : Prop :=
  (isCallable g = false -> state_of s3 n = st /\ result_of s3 n = Some v)
  /\ (forall f e, g = VFunction f ->
        body H f VUndefined [v] = Ret (Thrown e) ->
        state_of s3 n = REJECTED /\ result_of s3 n = Some e)
  /\ (forall f w, g = VFunction f ->
        body H f VUndefined [v] = Ret (Returned w) ->
        (plain_value H w = true ->
         state_of s3 n = FULFILLED /\ result_of s3 n = Some w)
        /\ (forall t, thenable H w = true -> get_then H w = Returned t ->
              w <> VPromise n ->
              state_of s3 n = PENDING
              /\ queue s3 = [ResolveThenableJob n w t])
        /\ (w = VPromise n ->
            state_of s3 n = REJECTED
            /\ result_of s3 n = Some (VTypeError "resolution === promise"))
        /\ (forall e, plain_value H w = false -> get_then H w = Thrown e ->
              state_of s3 n = REJECTED /\ result_of s3 n = Some e)).

(** * Facts about the heap model *)

Arguments Part000.fulfillPromise : simpl never.
Arguments Part000.rejectPromise : simpl never.
Arguments PromiseJs.FulfillPromise : simpl never.
Arguments PromiseJs.RejectPromise : simpl never.
Arguments setImmediate : simpl never.


Section SoundRules.
Context {C : Type} (I : State C -> Prop) (R : State C -> State C -> Prop).
Hypothesis R_refl : forall s, R s s.
Hypothesis R_trans : forall a b c, R a b -> R b c -> R a c.

Lemma sound_ret A (a : A) : sound I R (ret a).
Proof. intros s HI; cbn; auto. Qed.

Lemma sound_throw A (e : value) : sound I R (@throw C A e).
Proof. intros s HI; cbn; auto. Qed.

Lemma sound_lift A (r : outcome A) : sound I R (lift r).
Proof. intros s HI; cbn; auto. Qed.

Lemma sound_gets A (f : State C -> A) : sound I R (gets f).
Proof. intros s HI; cbn; auto. Qed.

Lemma sound_modify (f : State C -> State C) :
  (forall s, I s -> I (f s) /\ R s (f s)) -> sound I R (modify f).
Proof. intros Hf s HI; cbn; auto. Qed.

Lemma sound_bind A B (m : M C A) (k : A -> M C B) :
  sound I R m -> (forall a, sound I R (k a)) -> sound I R (bind m k).
Proof.
  intros Hm Hk s HI. unfold bind.
  destruct (Hm s HI) as [HI1 HR1].
  destruct (m s) as [[a | e] s1]; cbn in *.
  - destruct (Hk a s1 HI1) as [HI2 HR2]. split; [assumption | eauto].
  - auto.
Qed.

Lemma sound_try_catch A (m : M C A) (h : value -> M C A) :
  sound I R m -> (forall e, sound I R (h e)) -> sound I R (try_catch m h).
Proof.
  intros Hm Hh s HI. unfold try_catch.
  destruct (Hm s HI) as [HI1 HR1].
  destruct (m s) as [[a | e] s1]; cbn in *.
  - auto.
  - destruct (Hh e s1 HI1) as [HI2 HR2]. split; [assumption | eauto].
Qed.

Lemma sound_attempt A (m : M C A) : sound I R m -> sound I R (attempt m).
Proof.
  intros Hm s HI. unfold attempt.
  destruct (Hm s HI) as [HI1 HR1].
  destruct (m s) as [r s1]; cbn in *; auto.
Qed.

Lemma sound_forEach A (l : list A) (f : A -> M C unit) :
  (forall a, sound I R (f a)) -> sound I R (forEach l f).
Proof.
  intros Hf. induction l as [| x l IH]; cbn.
  - apply sound_ret.
  - apply sound_bind; [apply Hf | intros _; exact IH].
Qed.

End SoundRules.

Lemma extended_by_refl A (l : list A) : extended_by l l.
Proof. exists []; now rewrite app_nil_r. Qed.

Lemma extended_by_trans A (a b c : list A) :
  extended_by a b -> extended_by b c -> extended_by a c.
Proof.
  intros [t ->] [u ->]. exists (t ++ u). now rewrite app_assoc.
Qed.

Lemma extended_by_app A (l t : list A) : extended_by l (l ++ t).
Proof. now exists t. Qed.


Lemma lists_grow_refl o : lists_grow o o.
Proof. split; intros l ->; split; auto using extended_by_refl. Qed.

Lemma lists_grow_trans a b c :
  lists_grow a b -> lists_grow b c -> lists_grow a c.
Proof.
  intros [F1 R1] [F2 R2]. split; intros l Hl.
  - destruct (F1 l Hl) as [E1 A1].
    destruct (prop_value (PromiseFulfillReactions b)) as [lb |] eqn:Eb;
      [| discriminate].
    destruct (F2 lb eq_refl) as [E2 A2]. split; [| assumption].
    eapply extended_by_trans; eassumption.
  - destruct (R1 l Hl) as [E1 A1].
    destruct (prop_value (PromiseRejectReactions b)) as [lb |] eqn:Eb;
      [| discriminate].
    destruct (R2 lb eq_refl) as [E2 A2]. split; [| assumption].
    eapply extended_by_trans; eassumption.
Qed.

Section GrowsFacts.
Context {C : Type}.
Implicit Types s : State C.

Lemma grows_refl s : grows s s.
Proof.
  split; auto using extended_by_refl, lists_grow_refl.
Qed.

Lemma grows_trans s1 s2 s3 : grows s1 s2 -> grows s2 s3 -> grows s1 s3.
Proof.
  intros [P1 C1 L1 S1 N1 K1] [P2 C2 L2 S2 N2 K2]. split.
  - lia.
  - lia.
  - intros p Hp. eapply lists_grow_trans; [apply L1 | apply L2]; lia.
  - eapply extended_by_trans; eassumption.
  - eapply extended_by_trans; eassumption.
  - eapply extended_by_trans; eassumption.
Qed.

Lemma override_same A (f : nat -> A) i a : override f i a i = a.
Proof. unfold override. now rewrite Nat.eqb_refl. Qed.

Lemma override_other A (f : nat -> A) i a j : j <> i -> override f i a j = f j.
Proof.
  intros Hj. unfold override.
  destruct (Nat.eqb_spec j i); [contradiction | reflexivity].
Qed.

Lemma heap_update_same s p f : heap (update p f s) p = f (heap s p).
Proof. cbn. apply override_same. Qed.

Lemma heap_update_other s p f q : q <> p -> heap (update p f s) q = heap s q.
Proof. intros Hq. cbn. now apply override_other. Qed.

Lemma update_grows s p f :
  gentle f -> well_formed s ->
  well_formed (update p f s) /\ grows s (update p f s).
Proof.
  intros Hf Hs. split.
  - intros q. destruct (Nat.eq_dec q p) as [-> | Hq].
    + rewrite heap_update_same. apply Hf, Hs.
    + rewrite heap_update_other by assumption. apply Hs.
  - split; cbn; auto using extended_by_refl.
    intros q _. destruct (Nat.eq_dec q p) as [-> | Hq].
    + rewrite override_same. apply Hf, Hs.
    + rewrite override_other by assumption. apply lists_grow_refl.
Qed.

Lemma allocate_promise_grows :
  sound well_formed grows (@allocate_promise C).
Proof.
  intros s Hs. cbn. split.
  - intros q. cbn. unfold override.
    destruct (Nat.eqb q (next_promise s)); [reflexivity | apply Hs].
  - split; cbn; auto using extended_by_refl.
    intros q Hq. rewrite override_other by lia. apply lists_grow_refl.
Qed.

Lemma allocate_closure_grows (c : C) :
  sound well_formed grows (allocate_closure c).
Proof.
  intros s Hs. cbn. split; [exact Hs |].
  split; cbn; auto using extended_by_refl, lists_grow_refl.
Qed.

Lemma update_closure_grows c (f : C -> C) s :
  well_formed s ->
  well_formed (update_closure c f s) /\ grows s (update_closure c f s).
Proof.
  intros Hs. split; [exact Hs |].
  split; cbn; auto using extended_by_refl, lists_grow_refl.
Qed.

Lemma setImmediate_grows (j : Job) :
  sound well_formed grows (@setImmediate C j).
Proof.
  intros s Hs. unfold setImmediate. cbn. split; [exact Hs |].
  split; cbn; auto using extended_by_refl, lists_grow_refl.
  unfold schedule; cbn. rewrite app_assoc. apply extended_by_app.
Qed.

Lemma console_log_grows (line : string) :
  sound well_formed grows (@console_log C line).
Proof.
  intros s Hs. cbn. split; [exact Hs |].
  split; cbn; auto using extended_by_refl, lists_grow_refl.
Qed.

Lemma log_call_grows (i : Invocation) :
  sound well_formed grows (@log_call C i).
Proof.
  intros s Hs. cbn. split; [exact Hs |].
  split; cbn; auto using extended_by_refl, lists_grow_refl, extended_by_app.
Qed.

Lemma take_job_grows s j q :
  queue s = j :: q -> well_formed s ->
  well_formed (take_job j q s) /\ grows s (take_job j q s).
Proof.
  intros Hq Hs. split; [exact Hs |].
  split; cbn; auto using extended_by_refl, lists_grow_refl, extended_by_app.
  unfold schedule; cbn. rewrite Hq, <- app_assoc; cbn.
  apply extended_by_refl.
Qed.

End GrowsFacts.

Lemma fires_none C (final : Prop) (s s' : State C) :
  (forall p, p < next_promise s -> state_of s' p = FULFILLED ->
             state_of s p = FULFILLED) ->
  fires final s s'.
Proof.
  intros Hsame p l Hp Hs Hs' _. exfalso. apply Hs. now apply Hsame.
Qed.

Lemma fires_refl C (final : Prop) (s : State C) : fires final s s.
Proof. apply fires_none. auto. Qed.

Lemma fires_trans C (final : Prop) (a b c : State C) :
  grows a b -> grows b c ->
  (final -> forall p, p < next_promise b -> state_of b p = FULFILLED ->
            result_of c p = result_of b p) ->
  fires final a b -> fires final b c -> fires final a c.
Proof.
  intros Gab Gbc Hfinal Fab Fbc p l Hp Ha Hc Hl.
  destruct (grows_schedule Gab) as [w Hw].
  destruct (grows_schedule Gbc) as [z Hz].
  pose proof (grows_promises Gab) as Hn.
  assert (Hdec : state_of b p = FULFILLED \/ state_of b p <> FULFILLED)
    by (destruct (state_of b p); [right | left | right]; congruence).
  destruct Hdec as [Hb | Hb].
  - destruct (Fab p l Hp Ha Hb Hl) as (v & t & x & y & Hsched & Hres).
    exists v, t, x, (y ++ z). split.
    + rewrite Hz, Hsched. now rewrite <- !app_assoc.
    + intros Hf. rewrite (Hfinal Hf p ltac:(lia) Hb). now apply Hres.
  - destruct (grows_lists Gab Hp) as [HF _].
    destruct (HF l Hl) as [[t1 Ht1] Harr].
    destruct (prop_value (PromiseFulfillReactions (heap b p))) as [lb |] eqn:Eb;
      [| discriminate Harr].
    subst lb.
    destruct (Fbc p (l ++ t1) ltac:(lia) Hb Hc Eb) as (v & t & x & y & Hsched & Hres).
    exists v, (t1 ++ t), (w ++ x), y. split.
    + rewrite Hsched, Hw. now rewrite <- !app_assoc.
    + exact Hres.
Qed.

Ltac crush_object o :=
  destruct o as [[? ?] [? ?] [? ?] [? ?] ? ?];
  unfold is_promise_object, lists_grow, assign in *; cbn in *.

Ltac gentle_setter :=
  let o := fresh "o" in
  let Ho := fresh "Ho" in
  intros o Ho; crush_object o;
  repeat match goal with
         | H : _ && _ = true |- _ => apply andb_prop in H; destruct H
         | H : negb ?b = true |- _ => apply negb_true_iff in H; subst b
         | H : is_array ?x = true |- _ =>
             destruct x; [clear H | discriminate H]
         end;
  subst; cbn;
  repeat split; intros; cbn;
  repeat match goal with
         | H : Some _ = Some _ |- _ => injection H as <-
         end;
  auto using extended_by_refl, extended_by_app.

Lemma gentle_set_PromiseState st : gentle (set_PromiseState st).
Proof. gentle_setter. Qed.

Lemma gentle_set_PromiseFulfillReactions l :
  gentle (set_PromiseFulfillReactions l).
Proof. gentle_setter. Qed.

Lemma gentle_set_PromiseRejectReactions l :
  gentle (set_PromiseRejectReactions l).
Proof. gentle_setter. Qed.

Lemma gentle_set_PromiseIsHandled b : gentle (set_PromiseIsHandled b).
Proof. gentle_setter. Qed.

Lemma gentle_set_PromiseResult v : gentle (set_PromiseResult v).
Proof. gentle_setter. Qed.

Lemma gentle_set_PromiseIsHandled_own b : gentle (set_PromiseIsHandled_own b).
Proof. gentle_setter. Qed.

Lemma gentle_push_fulfill r : gentle (push_fulfill r).
Proof. gentle_setter. Qed.

Lemma gentle_push_reject r : gentle (push_reject r).
Proof. gentle_setter. Qed.

Lemma with_queue_queue C (s : State C) : with_queue (queue s) s = s.
Proof. now destruct s. Qed.

Lemma forEach_setImmediate C (l : list Reaction) v (s : State C) :
  forEach l (fun r => setImmediate (ReactionJob r v)) s
  = (Returned tt, with_queue (queue s ++ map (fun r => ReactionJob r v) l) s).
Proof.
  revert s. induction l as [| r l IH]; intros s; cbn.
  - now rewrite app_nil_r, with_queue_queue.
  - unfold bind, setImmediate, modify. rewrite IH. cbn.
    now rewrite <- app_assoc.
Qed.

Lemma settled_facts C (s : State C) p st v :
  is_promise_object (heap s p) = true ->
  let s' := settled p st v s in
  state_of s' p = st /\ result_of s' p = Some v
  /\ fulfillReactions_of s' p = fulfillReactions_of s p
  /\ rejectReactions_of s' p = rejectReactions_of s p
  /\ queue s' = queue s /\ closures s' = closures s /\ calls s' = calls s
  /\ ran s' = ran s /\ next_promise s' = next_promise s
  /\ next_closure s' = next_closure s.
Proof.
  intros Ho. unfold settled, state_of, result_of, fulfillReactions_of,
    rejectReactions_of.
  cbn. rewrite !override_same.
  destruct (heap s p) as [[? ?] [? ?] [? ?] [? ?] ? ?].
  unfold is_promise_object in Ho; cbn in Ho.
  repeat (apply andb_prop in Ho; destruct Ho as [Ho ?]).
  repeat match goal with H : negb ?b = true |- _ => apply negb_true_iff in H end.
  subst. cbn. repeat split; reflexivity.
Qed.

Lemma promise_object_lists o :
  is_promise_object o = true ->
  exists l l', prop_value (PromiseFulfillReactions o) = Some l
               /\ prop_value (PromiseRejectReactions o) = Some l'.
Proof.
  unfold is_promise_object. intros Ho.
  repeat (apply andb_prop in Ho; destruct Ho as [Ho ?]).
  destruct (prop_value (PromiseFulfillReactions o)) as [l |]; [| discriminate].
  destruct (prop_value (PromiseRejectReactions o)) as [l' |]; [| discriminate].
  eauto.
Qed.

Create HintDb heap_facts.

#[export] Hint Resolve gentle_set_PromiseState gentle_set_PromiseFulfillReactions
  gentle_set_PromiseRejectReactions gentle_set_PromiseIsHandled
  gentle_set_PromiseResult gentle_set_PromiseIsHandled_own
  gentle_push_fulfill gentle_push_reject : heap_facts.

Lemma keeps_set_PromiseIsHandled b : keeps_settlement (set_PromiseIsHandled b).
Proof. intros o; cbn; auto. Qed.

Lemma keeps_set_PromiseIsHandled_own b :
  keeps_settlement (set_PromiseIsHandled_own b).
Proof. intros o; cbn; auto. Qed.

Lemma keeps_push_fulfill r : keeps_settlement (push_fulfill r).
Proof. intros o; cbn; auto. Qed.

Lemma keeps_push_reject r : keeps_settlement (push_reject r).
Proof. intros o; cbn; auto. Qed.

#[export] Hint Resolve keeps_set_PromiseIsHandled keeps_set_PromiseIsHandled_own
  keeps_push_fulfill keeps_push_reject : heap_facts.

(** Takes a goal [sound I R m] apart along the shape of [m]; [refl] and
    [trans] are the two laws of [R], [known] closes the leaves. *)
Ltac sound_walk refl trans known :=
  repeat (cbv zeta; first
    [ known
    | lazymatch goal with
      | |- sound _ _ (ret _) => apply sound_ret; exact refl
      | |- sound _ _ (throw _) => apply sound_throw; exact refl
      | |- sound _ _ (lift _) => apply sound_lift; exact refl
      | |- sound _ _ (gets _) => apply sound_gets; exact refl
      | |- sound _ _ (bind _ _) =>
          apply sound_bind; [exact trans | | intros ?]
      | |- sound _ _ (try_catch _ _) =>
          apply sound_try_catch; [exact trans | | intros ?]
      | |- sound _ _ (attempt _) => apply sound_attempt
      | |- sound _ _ (forEach _ _) =>
          apply sound_forEach; [exact refl | exact trans | intros ?]
      | |- sound _ _ (if ?b then _ else _) => destruct b
      | |- sound _ _ (match ?x with _ => _ end) => destruct x
      end ]).

Lemma quiet_refl C (s : State C) : quiet s s.
Proof. split; reflexivity. Qed.

Lemma quiet_trans C (a b c : State C) : quiet a b -> quiet b c -> quiet a c.
Proof. intros [A1 A2] [B1 B2]. split; congruence. Qed.

Lemma quiet_modify C (f : State C -> State C) :
  (forall s, calls (f s) = calls s) -> (forall s, ran (f s) = ran s) ->
  sound anything quiet (modify f).
Proof. intros Hc Hr s _. cbn. repeat split; auto. Qed.

Ltac quiet_walk_in C known :=
  sound_walk (@quiet_refl C) (@quiet_trans C)
    ltac:(idtac; first
      [ known
      | lazymatch goal with
        | |- sound _ _ (setImmediate _) =>
            unfold setImmediate; apply quiet_modify; reflexivity
        | |- sound _ _ (console_log _) =>
            unfold console_log; apply quiet_modify; reflexivity
        | |- sound _ _ (modify _) => apply quiet_modify; reflexivity
        | |- sound _ _ allocate_promise =>
            intros ? _; cbn; repeat split; reflexivity
        | |- sound _ _ (allocate_closure _) =>
            intros ? _; cbn; repeat split; reflexivity
        end ]).





(** * Facts about src/unnamed/part_000 *)
Module Part000Facts.
Import Part000 Part000Spec.

Lemma settles_once_refl (s : St) : settles_once s s.
Proof. split; auto. Qed.

Lemma settles_once_trans (a b c : St) :
  grows a b -> settles_once a b -> settles_once b c -> settles_once a c.
Proof.
  intros G1 [F1 S1] [F2 S2].
  pose proof (grows_promises G1). pose proof (grows_closures G1).
  split.
  - intros k Hk. destruct (F1 k Hk) as [P1 A1].
    destruct (F2 k ltac:(lia)) as [P2 A2]. split; [congruence | auto].
  - intros p Hp Hs. destruct (S1 p Hp Hs) as [E1 E1'].
    destruct (S2 p ltac:(lia) ltac:(congruence)) as [E2 E2'].
    split; congruence.
Qed.

Lemma extends_refl (s : St) : extends s s.
Proof.
  split; [apply grows_refl |].
  split; [apply settles_once_refl | apply fires_refl].
Qed.

Lemma extends_trans (a b c : St) : extends a b -> extends b c -> extends a c.
Proof.
  intros (G1 & K1 & X1) (G2 & K2 & X2).
  split; [eapply grows_trans; eassumption |].
  split; [eapply settles_once_trans; eassumption |].
  eapply fires_trans; try eassumption.
  intros _ p Hp Hb. apply (keeps_settled K2); [exact Hp | congruence].
Qed.

(** A step that fulfills no promise. *)
Lemma extends_intro (s s' : St) :
  grows s s' -> settles_once s s' ->
  (forall p, p < next_promise s -> state_of s' p = FULFILLED ->
             state_of s p = FULFILLED) ->
  extends s s'.
Proof.
  intros G K Hsame. split; [exact G |]. split; [exact K |].
  now apply fires_none.
Qed.

Local Abbreviation ok := (sound well_formed extends).

Lemma update_keeps_ok p f :
  gentle f -> keeps_settlement f -> ok (modify (update p f)).
Proof.
  intros Hg Hk. apply sound_modify. intros s Hs.
  destruct (update_grows p Hg Hs) as [W G]. split; [exact W |].
  assert (Hsame : forall q, state_of (update p f s) q = state_of s q
                            /\ result_of (update p f s) q = result_of s q).
  { intros q. unfold state_of, result_of.
    destruct (Nat.eq_dec q p) as [-> | Hq].
    - rewrite heap_update_same. apply Hk.
    - rewrite heap_update_other by assumption. auto. }
  apply extends_intro; [exact G | |].
  - split; [cbn; auto |]. intros q _ _. apply Hsame.
  - intros q _ Hq. destruct (Hsame q) as [<- _]. exact Hq.
Qed.

Lemma update_pending_ok p f (s : St) :
  gentle f -> state_of s p = PENDING -> well_formed s ->
  well_formed (update p f s) /\ grows s (update p f s)
  /\ settles_once s (update p f s).
Proof.
  intros Hg Hp Hs.
  destruct (update_grows p Hg Hs) as [W G]. split; [exact W |].
  split; [exact G |]. split; [cbn; auto |].
  intros q _ Hq. unfold state_of, result_of.
  destruct (Nat.eq_dec q p) as [-> | Hne]; [contradiction |].
  rewrite heap_update_other by assumption. auto.
Qed.

Lemma allocate_promise_ok : ok allocate_promise.
Proof.
  intros s Hs. destruct (allocate_promise_grows Hs) as [W G].
  split; [exact W |].
  assert (Hsame : forall q, q < next_promise s ->
            heap (snd (allocate_promise s)) q = heap s q).
  { intros q Hq. cbn. apply override_other. lia. }
  apply extends_intro; [exact G | |].
  - split; [cbn; auto |].
    intros q Hq _. unfold state_of, result_of. now rewrite Hsame.
  - intros q Hq. unfold state_of. now rewrite Hsame.
Qed.

Lemma createResolvingFunctions_ok promise :
  ok (createResolvingFunctions promise).
Proof.
  intros s Hs. unfold createResolvingFunctions.
  destruct (allocate_closure_grows
              {| promise_var := promise; alreadySettled := false |} Hs)
    as [W G].
  split; [exact W |]. apply extends_intro; [exact G | | cbn; auto].
  split; [| cbn; auto].
  intros k Hk; cbn. rewrite override_other by lia. auto.
Qed.

Lemma raise_flag_ok c : ok (modify (update_closure c (set_alreadySettled true))).
Proof.
  apply sound_modify. intros s Hs.
  destruct (update_closure_grows c (set_alreadySettled true) Hs) as [W G].
  split; [exact W |]. apply extends_intro; [exact G | | cbn; auto].
  split; [| cbn; auto].
  intros k _; cbn. unfold override.
  destruct (Nat.eqb_spec k c) as [-> | _]; cbn; auto.
Qed.

Lemma setImmediate_ok j : ok (setImmediate j).
Proof.
  intros s Hs. destruct (setImmediate_grows j Hs) as [W G].
  split; [exact W |]. unfold setImmediate in *.
  apply extends_intro; [exact G | | cbn; auto].
  split; cbn; auto.
Qed.

Lemma log_call_ok i : ok (log_call i).
Proof.
  intros s Hs. destruct (log_call_grows i Hs) as [W G].
  split; [exact W |]. apply extends_intro; [exact G | | cbn; auto].
  split; cbn; auto.
Qed.

Ltac walk known :=
  sound_walk extends_refl extends_trans
    ltac:(idtac; first
      [ known
      | lazymatch goal with
        | |- sound _ _ (setImmediate _) => apply setImmediate_ok
        | |- sound _ _ (log_call _) => apply log_call_ok
        | |- sound _ _ (modify (update_closure _ _)) => apply raise_flag_ok
        | |- sound _ _ allocate_promise => apply allocate_promise_ok
        | |- sound _ _ (createResolvingFunctions _) =>
            apply createResolvingFunctions_ok
        | |- sound _ _ (modify (update _ _)) =>
            apply update_keeps_ok; solve [auto with heap_facts]
        end ]).

Lemma state_of_update (s : St) p f :
  state_of (update p f s) p = prop_value (PromiseState (f (heap s p))).
Proof. unfold state_of. now rewrite heap_update_same. Qed.

(** The four assignments of a settlement, on a pending promise. *)
Lemma settle_ok (s : St) p v st :
  well_formed s -> state_of s p = PENDING ->
  well_formed (settled p st v s) /\ grows s (settled p st v s)
  /\ settles_once s (settled p st v s).
Proof.
  intros Hs Hp. unfold settled.
  destruct (update_pending_ok p (gentle_set_PromiseResult v) Hp Hs)
    as (W1 & G1 & K1).
  assert (P1 : state_of (update p (set_PromiseResult v) s) p = PENDING)
    by (rewrite state_of_update; exact Hp).
  destruct (update_pending_ok p (gentle_set_PromiseFulfillReactions None) P1 W1)
    as (W2 & G2 & K2).
  assert (P2 : state_of (update p (set_PromiseFulfillReactions None)
                 (update p (set_PromiseResult v) s)) p = PENDING)
    by (rewrite state_of_update; exact P1).
  destruct (update_pending_ok p (gentle_set_PromiseRejectReactions None) P2 W2)
    as (W3 & G3 & K3).
  assert (P3 : state_of (update p (set_PromiseRejectReactions None)
                 (update p (set_PromiseFulfillReactions None)
                    (update p (set_PromiseResult v) s))) p = PENDING)
    by (rewrite state_of_update; exact P2).
  destruct (update_pending_ok p (gentle_set_PromiseState st) P3 W3)
    as (W4 & G4 & K4).
  split; [exact W4 |].
  assert (G12 := grows_trans G1 G2). assert (G123 := grows_trans G12 G3).
  split; [exact (grows_trans G123 G4) |].
  eapply settles_once_trans; [exact G123 | | exact K4].
  eapply settles_once_trans; [exact G12 | | exact K3].
  exact (settles_once_trans G1 K1 K2).
Qed.

(** Scheduling the jobs of a list of reactions. *)
Lemma schedule_jobs_ok (s : St) l v :
  well_formed s ->
  let s' := with_queue (queue s ++ map (fun r => ReactionJob r v) l) s in
  well_formed s' /\ grows s s' /\ settles_once s s'.
Proof.
  intros Hs. cbv zeta. split; [exact Hs |]. split.
  - split; cbn; auto using extended_by_refl, lists_grow_refl.
    unfold schedule; cbn. rewrite app_assoc. apply extended_by_app.
  - split; cbn; auto.
Qed.

Lemma triggerPromiseReactions_array l v (s : St) :
  triggerPromiseReactions (Some l) v s
  = (Returned VUndefined,
     with_queue (queue s ++ map (fun r => ReactionJob r v) l) s).
Proof.
  unfold triggerPromiseReactions, bind. now rewrite forEach_setImmediate.
Qed.

Lemma fulfillPromise_pending (s : St) p v :
  state_of s p = PENDING ->
  fulfillPromise p v s
  = triggerPromiseReactions (fulfillReactions_of s p) v (settled p FULFILLED v s).
Proof.
  intros Hp. unfold fulfillPromise, bind, gets, modify. rewrite Hp. reflexivity.
Qed.

Lemma fulfillPromise_effect (s : St) p v :
  state_of s p = PENDING -> is_promise_object (heap s p) = true ->
  exists l, fulfillReactions_of s p = Some l /\
    fulfillPromise p v s
    = (Returned VUndefined,
       with_queue (queue s ++ map (fun r => ReactionJob r v) l)
         (settled p FULFILLED v s)).
Proof.
  intros Hp Ho. destruct (promise_object_lists _ Ho) as (l & l' & Hl & _).
  exists l. split; [exact Hl |].
  rewrite fulfillPromise_pending by exact Hp.
  unfold fulfillReactions_of. rewrite Hl, triggerPromiseReactions_array.
  destruct (settled_facts s p FULFILLED v Ho) as (_ & _ & _ & _ & -> & _).
  reflexivity.
Qed.

Lemma rejectPromise_pending (s : St) p v :
  state_of s p = PENDING ->
  rejectPromise p v s
  = triggerPromiseReactions (rejectReactions_of s p) v (settled p REJECTED v s).
Proof.
  intros Hp. unfold rejectPromise, bind, gets, modify. rewrite Hp. reflexivity.
Qed.

Lemma rejectPromise_effect (s : St) p v :
  state_of s p = PENDING -> is_promise_object (heap s p) = true ->
  exists l, rejectReactions_of s p = Some l /\
    rejectPromise p v s
    = (Returned VUndefined,
       with_queue (queue s ++ map (fun r => ReactionJob r v) l)
         (settled p REJECTED v s)).
Proof.
  intros Hp Ho. destruct (promise_object_lists _ Ho) as (l' & l & _ & Hl).
  exists l. split; [exact Hl |].
  rewrite rejectPromise_pending by exact Hp.
  unfold rejectReactions_of. rewrite Hl, triggerPromiseReactions_array.
  destruct (settled_facts s p REJECTED v Ho) as (_ & _ & _ & _ & -> & _).
  reflexivity.
Qed.


Lemma settled_other C (s : State C) p st v q :
  q <> p -> heap (settled p st v s) q = heap s q.
Proof.
  intros Hq. unfold settled. now rewrite !heap_update_other by assumption.
Qed.

Lemma fulfillPromise_settled (s : St) p v :
  state_of s p <> PENDING -> fulfillPromise p v s = (Returned VUndefined, s).
Proof.
  intros Hp. unfold fulfillPromise, bind, gets.
  destruct (state_of s p); [contradiction | reflexivity | reflexivity].
Qed.

Lemma rejectPromise_settled (s : St) p v :
  state_of s p <> PENDING -> rejectPromise p v s = (Returned VUndefined, s).
Proof.
  intros Hp. unfold rejectPromise, bind, gets.
  destruct (state_of s p); [contradiction | reflexivity | reflexivity].
Qed.

Lemma fulfillPromise_ok promise v : ok (fulfillPromise promise v).
Proof.
  intros s Hs. destruct (state_of s promise) eqn:Hp.
  2, 3: rewrite fulfillPromise_settled by congruence;
        split; [exact Hs | apply extends_refl].
  destruct (fulfillPromise_effect s promise v Hp (Hs promise))
    as (l & Hl & ->). cbn [snd].
  destruct (@settle_ok s promise v FULFILLED Hs Hp) as (W & G & K).
  destruct (@schedule_jobs_ok (settled promise FULFILLED v s) l v W)
    as (W' & G' & K').
  destruct (settled_facts s promise FULFILLED v (Hs promise))
    as (F1 & F2 & _ & _ & F5 & _ & _ & F8 & _).
  rewrite F5 in W', G', K'.
  split; [exact W' |].
  split; [exact (grows_trans G G') |].
  split; [exact (settles_once_trans G K K') |].
  intros q lq Hq Hnot Hful Hlq.
  destruct (Nat.eq_dec q promise) as [-> | Hne].
  - exists v, [], [], []. split.
    + unfold schedule. cbn [ran queue with_queue]. rewrite F8.
      rewrite Hl in Hlq. injection Hlq as <-.
      rewrite !app_nil_r. cbn [app]. now rewrite app_assoc.
    + intros _. exact F2.
  - exfalso. apply Hnot. unfold state_of in *.
    cbn [heap with_queue] in Hful. now rewrite settled_other in Hful.
Qed.

Lemma rejectPromise_ok promise v : ok (rejectPromise promise v).
Proof.
  intros s Hs. destruct (state_of s promise) eqn:Hp.
  2, 3: rewrite rejectPromise_settled by congruence;
        split; [exact Hs | apply extends_refl].
  destruct (rejectPromise_effect s promise v Hp (Hs promise))
    as (l & Hl & ->). cbn [snd].
  destruct (@settle_ok s promise v REJECTED Hs Hp) as (W & G & K).
  destruct (@schedule_jobs_ok (settled promise REJECTED v s) l v W)
    as (W' & G' & K').
  destruct (settled_facts s promise REJECTED v (Hs promise))
    as (F1 & F2 & _ & _ & F5 & _).
  rewrite F5 in W', G', K'.
  split; [exact W' |].
  apply extends_intro;
    [exact (grows_trans G G') | exact (settles_once_trans G K K') |].
  intros q Hq Hful. unfold state_of in *. cbn [heap with_queue] in Hful.
  destruct (Nat.eq_dec q promise) as [-> | Hne].
  - rewrite F1 in Hful. discriminate.
  - now rewrite settled_other in Hful.
Qed.

Lemma triggerPromiseReactions_ok reactions argument :
  ok (triggerPromiseReactions reactions argument).
Proof. unfold triggerPromiseReactions. walk fail. Qed.

Ltac walk1 known :=
  walk ltac:(idtac; first
    [ known
    | lazymatch goal with
      | |- sound _ _ (fulfillPromise _ _) => apply fulfillPromise_ok
      | |- sound _ _ (rejectPromise _ _) => apply rejectPromise_ok
      end ]).

Lemma resolve_ok H c resolution : ok (resolve H c resolution).
Proof. unfold resolve. walk1 fail. Qed.

Lemma reject_ok c reason : ok (reject c reason).
Proof. unfold reject. walk1 fail. Qed.

Lemma Promise_body_ok A (executor : value -> value -> M Closure A) :
  (forall r j, ok (executor r j)) -> ok (Promise_body executor).
Proof.
  intros He. unfold Promise_body.
  walk1 ltac:(idtac; lazymatch goal with
              | |- sound _ _ (executor _ _) => apply He
              | |- sound _ _ (reject _ _) => apply reject_ok
              end).
Qed.

Lemma newPromiseCapability_ok : ok newPromiseCapability.
Proof.
  unfold newPromiseCapability.
  walk1 ltac:(idtac; lazymatch goal with
              | |- sound _ _ (Promise_body _) =>
                  apply Promise_body_ok; intros ? ?
              end).
Qed.

Lemma performPromiseThen_ok promise onFulfilled onRejected resultCapability :
  ok (performPromiseThen promise onFulfilled onRejected resultCapability).
Proof. unfold performPromiseThen. walk1 fail. Qed.

Lemma Promise_then_ok this onFulfilled onRejected :
  ok (Promise_then this onFulfilled onRejected).
Proof.
  unfold Promise_then.
  walk1 ltac:(idtac; lazymatch goal with
              | |- sound _ _ newPromiseCapability =>
                  apply newPromiseCapability_ok
              | |- sound _ _ (performPromiseThen _ _ _ _) =>
                  apply performPromiseThen_ok
              end).
Qed.

Lemma call_native_ok H f this args : ok (call_native H f this args).
Proof.
  destruct f; cbn;
    auto using resolve_ok, reject_ok, Promise_then_ok.
Qed.

Lemma Promise_deferred_ok : ok Promise_deferred.
Proof.
  unfold Promise_deferred.
  walk1 ltac:(idtac; lazymatch goal with
              | |- sound _ _ newPromiseCapability =>
                  apply newPromiseCapability_ok
              end).
Qed.

Lemma exec_ok H t : ok (exec H t).
Proof.
  induction t as [c | f this args k IH | executor IHe k IH | k IH]; cbn.
  - walk1 fail.
  - walk1 ltac:(idtac; lazymatch goal with
                | |- sound _ _ (call_native _ _ _ _) => apply call_native_ok
                | |- sound _ _ (exec _ _) => apply IH
                end).
  - walk1 ltac:(idtac; lazymatch goal with
                | |- sound _ _ (Promise_body _) =>
                    apply Promise_body_ok; intros ? ?; apply IHe
                | |- sound _ _ (exec _ _) => apply IH
                end).
  - walk1 ltac:(idtac; lazymatch goal with
                | |- sound _ _ Promise_deferred => apply Promise_deferred_ok
                | |- sound _ _ (exec _ _) => apply IH
                end).
Qed.

Lemma call_ok H f this args : ok (call H f this args).
Proof.
  unfold call.
  walk1 ltac:(idtac; lazymatch goal with
              | |- sound _ _ (call_native _ _ _ _) => apply call_native_ok
              | |- sound _ _ (exec _ _) => apply exec_ok
              end).
Qed.

Lemma Promise_ok H new_target executor : ok (Promise H new_target executor).
Proof.
  unfold Promise.
  walk1 ltac:(idtac; lazymatch goal with
              | |- sound _ _ (Promise_body _) =>
                  apply Promise_body_ok; intros ? ?; apply call_ok
              end).
Qed.

Lemma promiseReactionJob_ok H reaction argument :
  ok (promiseReactionJob H reaction argument).
Proof.
  unfold promiseReactionJob.
  walk1 ltac:(idtac; lazymatch goal with
              | |- sound _ _ (call _ _ _ _) => apply call_ok
              end).
Qed.

Lemma promiseResolveThenableJob_ok H promise thenable then_ :
  ok (promiseResolveThenableJob H promise thenable then_).
Proof.
  unfold promiseResolveThenableJob.
  walk1 ltac:(idtac; lazymatch goal with
              | |- sound _ _ (call _ _ _ _) => apply call_ok
              | |- sound _ _ (reject _ _) => apply reject_ok
              end).
Qed.

Lemma Promise_resolve_ok H x : ok (Promise_resolve H x).
Proof.
  unfold Promise_resolve.
  walk1 ltac:(idtac; lazymatch goal with
              | |- sound _ _ newPromiseCapability =>
                  apply newPromiseCapability_ok
              | |- sound _ _ (call _ _ _ _) => apply call_ok
              end).
Qed.

Lemma Promise_reject_ok H r : ok (Promise_reject H r).
Proof.
  unfold Promise_reject.
  walk1 ltac:(idtac; lazymatch goal with
              | |- sound _ _ newPromiseCapability =>
                  apply newPromiseCapability_ok
              | |- sound _ _ (call _ _ _ _) => apply call_ok
              end).
Qed.

Lemma run_job_ok H j : ok (run_job H j).
Proof.
  destruct j; cbn;
    auto using promiseReactionJob_ok, promiseResolveThenableJob_ok.
Qed.

Lemma take_job_ok (s : St) j q :
  queue s = j :: q -> well_formed s ->
  well_formed (take_job j q s) /\ extends s (take_job j q s).
Proof.
  intros Hq Hs. destruct (take_job_grows Hq Hs) as [W G].
  split; [exact W |]. apply extends_intro; [exact G | | cbn; auto].
  split; cbn; auto.
Qed.

Lemma run_jobs_ok H n (s : St) :
  well_formed s -> well_formed (run_jobs H n s) /\ extends s (run_jobs H n s).
Proof.
  revert s. induction n as [| n IH]; intros s Hs; cbn.
  - auto using extends_refl.
  - destruct (queue s) as [| j q] eqn:Hq; [auto using extends_refl |].
    destruct (take_job_ok Hq Hs) as [W1 E1].
    destruct (run_job_ok H j W1) as [W2 E2].
    destruct (IH _ W2) as [W3 E3].
    split; [exact W3 |].
    eapply extends_trans; [exact E1 |].
    eapply extends_trans; eassumption.
Qed.

Lemma perform_ok H a (s : St) :
  well_formed s -> well_formed (perform H a s) /\ extends s (perform H a s).
Proof.
  intros Hs. destruct a; cbv beta iota delta [perform].
  - now apply exec_ok.
  - now apply call_ok.
  - now apply Promise_ok.
  - now apply Promise_resolve_ok.
  - now apply Promise_reject_ok.
  - now apply run_jobs_ok.
Qed.

Lemma later_ok H (s s' : St) :
  later H s s' -> well_formed s -> well_formed s' /\ extends s s'.
Proof.
  induction 1 as [s | s s' a _ IH]; intros Hs.
  - auto using extends_refl.
  - destruct (IH Hs) as [W E].
    destruct (perform_ok H a W) as [W' E'].
    split; [exact W' | eapply extends_trans; eassumption].
Qed.

Lemma later_trans H (a b c : St) : later H a b -> later H b c -> later H a c.
Proof.
  intros Hab Hbc. induction Hbc as [b | b c' act Hbc IH].
  - exact Hab.
  - apply later_step. apply IH. exact Hab.
Qed.

Lemma initial_well_formed : well_formed initial.
Proof. intros p. reflexivity. Qed.

(** resolve on a fresh pair: the part after the flag is raised. *)
Lemma resolve_fresh H c v (s : St) :
  alreadySettled (closures s c) = false ->
  resolve H c v s =
  (let promise := promise_var (closures s c) in
   if strict_equal v (VPromise promise) then
     rejectPromise promise (VTypeError "resolution === promise")
   else if strict_equal v VNull then fulfillPromise promise v
   else if negb (isObject v) && negb (isFunction v) then
     fulfillPromise promise v
   else
     try_catch
       (bind (lift (get_then H v)) (fun thenAction =>
        if negb (isCallable thenAction) then fulfillPromise promise v
        else bind (setImmediate (ResolveThenableJob promise v thenAction))
               (fun _ => ret VUndefined)))
       (fun error => rejectPromise promise error))
    (update_closure c (set_alreadySettled true) s).
Proof.
  intros Hc. unfold resolve. unfold bind at 1. unfold gets at 1.
  rewrite Hc. unfold bind at 1. unfold modify at 1.
  unfold bind at 1. unfold gets at 1. cbn [closures update_closure with_closures].
  rewrite override_same. cbn. reflexivity.
Qed.

Lemma resolve_used H c v (s : St) :
  alreadySettled (closures s c) = true ->
  resolve H c v s = (Returned VUndefined, s).
Proof.
  intros Hc. unfold resolve, bind, gets. now rewrite Hc.
Qed.

Lemma reject_used c v (s : St) :
  alreadySettled (closures s c) = true ->
  reject c v s = (Returned VUndefined, s).
Proof.
  intros Hc. unfold reject, bind, gets. now rewrite Hc.
Qed.

Lemma reject_fresh c v (s : St) :
  alreadySettled (closures s c) = false ->
  reject c v s =
  rejectPromise (promise_var (closures s c)) v
    (update_closure c (set_alreadySettled true) s).
Proof.
  intros Hc. unfold reject. unfold bind at 1. unfold gets at 1.
  rewrite Hc. unfold bind at 1. unfold modify at 1.
  unfold bind at 1. unfold gets at 1. cbn [closures update_closure with_closures].
  rewrite override_same. cbn. reflexivity.
Qed.

Lemma plain_value_not_promise H v p :
  plain_value H v = true -> strict_equal v (VPromise p) = false.
Proof.
  intros Hv. unfold strict_equal.
  destruct (value_eq_dec v (VPromise p)) as [-> | _]; [| reflexivity].
  discriminate Hv.
Qed.

(** part_000, for claim C3: the first call of a pair's resolve with a plain
    value, on a pending promise, returns normally, fulfills the promise with
    that value, and schedules the jobs of its fulfill reactions and nothing
    else. *)
Theorem resolve_plain_value_p0 H c v (s : St) :
  let p := promise_var (closures s c) in
  alreadySettled (closures s c) = false ->
  state_of s p = PENDING ->
  is_promise_object (heap s p) = true ->
  plain_value H v = true ->
  exists l s',
    fulfillReactions_of s p = Some l /\
    resolve H c v s = (Returned VUndefined, s') /\
    state_of s' p = FULFILLED /\ result_of s' p = Some v /\
    queue s' = queue s ++ map (fun r => ReactionJob r v) l.
Proof.
  intros p Hc Hp Ho Hv.
  set (s0 := update_closure c (set_alreadySettled true) s).
  assert (Hp0 : state_of s0 p = PENDING) by exact Hp.
  assert (Ho0 : is_promise_object (heap s0 p) = true) by exact Ho.
  destruct (fulfillPromise_effect s0 p v Hp0 Ho0) as (l & Hl & Hf).
  destruct (settled_facts s0 p FULFILLED v Ho0) as (F1 & F2 & _ & _ & F5 & _).
  exists l. eexists. split; [exact Hl |]. split; [| split; [| split]].
  - rewrite resolve_fresh by exact Hc. fold p. fold s0. cbv zeta.
    rewrite (plain_value_not_promise H v p Hv).
    unfold try_catch, bind, lift.
    destruct v; cbn in Hv |- *; try discriminate Hv; try exact Hf;
      match goal with
      | |- context [object_then H ?o] => destruct (object_then H o)
      | |- context [function_then H ?f] => destruct (function_then H f)
      | _ => idtac
      end; try discriminate Hv; cbn; try rewrite Hv; try rewrite Hf;
      try reflexivity.
  - exact F1.
  - exact F2.
  - cbn [queue with_queue]. reflexivity.
Qed.

(** part_000, for claim C4: when reading [then] of an object or function
    throws [e], the first call of a pair's resolve on a pending promise
    returns normally and rejects the promise with [e]. *)
Theorem resolve_throwing_then_p0 H c v e (s : St) :
  let p := promise_var (closures s c) in
  alreadySettled (closures s c) = false ->
  state_of s p = PENDING ->
  is_promise_object (heap s p) = true ->
  isObject v || isFunction v = true ->
  v <> VNull ->
  get_then H v = Thrown e ->
  exists l s',
    rejectReactions_of s p = Some l /\
    resolve H c v s = (Returned VUndefined, s') /\
    state_of s' p = REJECTED /\ result_of s' p = Some e /\
    queue s' = queue s ++ map (fun r => ReactionJob r e) l.
Proof.
  intros p Hc Hp Ho Hv Hn He.
  set (s0 := update_closure c (set_alreadySettled true) s).
  assert (Hp0 : state_of s0 p = PENDING) by exact Hp.
  assert (Ho0 : is_promise_object (heap s0 p) = true) by exact Ho.
  destruct (rejectPromise_effect s0 p e Hp0 Ho0) as (l & Hl & Hf).
  destruct (settled_facts s0 p REJECTED e Ho0) as (F1 & F2 & _ & _ & F5 & _).
  exists l. eexists. split; [exact Hl |]. split; [| split; [| split]].
  - rewrite resolve_fresh by exact Hc. fold p. fold s0. cbv zeta.
    assert (Hself : strict_equal v (VPromise p) = false).
    { unfold strict_equal.
      destruct (value_eq_dec v (VPromise p)) as [-> | _]; [| reflexivity].
      discriminate He. }
    assert (Hnull : strict_equal v VNull = false).
    { unfold strict_equal.
      destruct (value_eq_dec v VNull); [contradiction | reflexivity]. }
    rewrite Hself, Hnull.
    replace (negb (isObject v) && negb (isFunction v)) with false
      by (rewrite <- negb_orb, Hv; reflexivity).
    unfold try_catch, bind, lift. rewrite He. exact Hf.
  - exact F1.
  - exact F2.
  - cbn [queue with_queue]. reflexivity.
Qed.

(** part_000, for claim C7: self-resolution. *)
Theorem resolve_self_p0 H c (s : St) :
  let p := promise_var (closures s c) in
  alreadySettled (closures s c) = false ->
  state_of s p = PENDING ->
  is_promise_object (heap s p) = true ->
  exists l s',
    rejectReactions_of s p = Some l /\
    resolve H c (VPromise p) s = (Returned VUndefined, s') /\
    state_of s' p = REJECTED /\
    result_of s' p = Some (VTypeError "resolution === promise") /\
    queue s' = queue s ++
      map (fun r => ReactionJob r (VTypeError "resolution === promise")) l.
Proof.
  intros p Hc Hp Ho.
  set (s0 := update_closure c (set_alreadySettled true) s).
  set (e := VTypeError "resolution === promise").
  assert (Hp0 : state_of s0 p = PENDING) by exact Hp.
  assert (Ho0 : is_promise_object (heap s0 p) = true) by exact Ho.
  destruct (rejectPromise_effect s0 p e Hp0 Ho0) as (l & Hl & Hf).
  destruct (settled_facts s0 p REJECTED e Ho0) as (F1 & F2 & _ & _ & F5 & _).
  exists l. eexists. split; [exact Hl |]. split; [| split; [| split]].
  - rewrite resolve_fresh by exact Hc. fold p. fold s0. cbv zeta.
    unfold strict_equal at 1.
    destruct (value_eq_dec (VPromise p) (VPromise p)); [| contradiction].
    exact Hf.
  - exact F1.
  - exact F2.
  - cbn [queue with_queue]. reflexivity.
Qed.

Lemma newPromiseCapability_effect (s : St) :
  newPromiseCapability s
  = (Returned {| cap_promise := VPromise (next_promise s);
                 cap_resolve := VNative (ResolveFn (next_closure s));
                 cap_reject := VNative (RejectFn (next_closure s)) |},
     with_closures
       (override (closures s) (next_closure s)
          {| promise_var := next_promise s; alreadySettled := false |})
       (S (next_closure s))
       (with_heap (override (heap s) (next_promise s) created_promise)
          (S (next_promise s)) s)).
Proof. reflexivity. Qed.

Lemma Promise_resolve_unfold H x (s : St) :
  Promise_resolve H x s =
  let cap := {| cap_promise := VPromise (next_promise s);
                cap_resolve := VNative (ResolveFn (next_closure s));
                cap_reject := VNative (RejectFn (next_closure s)) |} in
  match resolve H (next_closure s) x
          (capability_made (ResolveFn (next_closure s))
             (capability_object cap) [x] s) with
  | (Returned _, s') => (Returned (VPromise (next_promise s)), s')
  | (Thrown e, s') => (Thrown e, s')
  end.
Proof.
  unfold Promise_resolve. unfold bind at 1.
  rewrite newPromiseCapability_effect. reflexivity.
Qed.

Lemma capability_made_facts f this args (s : St) :
  let s' := capability_made f this args s in
  closures s' (next_closure s)
    = {| promise_var := next_promise s; alreadySettled := false |}
  /\ heap s' (next_promise s) = created_promise
  /\ queue s' = queue s.
Proof.
  cbn. now rewrite !override_same.
Qed.

(** part_000, for claim C10: [Promise.resolve] of a plain value returns a
    promise that is fulfilled with it already; nothing is scheduled. *)
Theorem Promise_resolve_plain_p0 H v (s : St) :
  plain_value H v = true ->
  exists s',
    Promise_resolve H v s = (Returned (VPromise (next_promise s)), s') /\
    state_of s' (next_promise s) = FULFILLED /\
    result_of s' (next_promise s) = Some v /\
    queue s' = queue s.
Proof.
  intros Hv. rewrite Promise_resolve_unfold. cbv zeta.
  match goal with
  | |- context [capability_made ?f ?t ?a s] =>
      destruct (capability_made_facts f t a s) as (Hc & Hh & Hq);
      set (s1 := capability_made f t a s) in *
  end.
  destruct (resolve_plain_value_p0 H (next_closure s) v s1) as
    (l & s' & Hl & Hr & Hs & Hres & Hqueue).
  - now rewrite Hc.
  - rewrite Hc. unfold state_of. cbn [promise_var]. now rewrite Hh.
  - rewrite Hc. cbn [promise_var]. now rewrite Hh.
  - exact Hv.
  - rewrite Hc in Hl, Hs, Hres. cbn [promise_var] in Hl, Hs, Hres.
    unfold fulfillReactions_of in Hl. rewrite Hh in Hl. injection Hl as <-.
    exists s'. rewrite Hr. repeat split; try assumption.
    rewrite Hqueue, Hq. cbn. now rewrite app_nil_r.
Qed.

(** part_000, for claim C10: [Promise.resolve] of a thenable returns a
    promise that is still pending; all it schedules is the job that will call
    the thenable's [then]. *)
Theorem Promise_resolve_thenable_p0 H v (s : St) :
  thenable H v = true ->
  v <> VPromise (next_promise s) ->
  exists s' t,
    Promise_resolve H v s = (Returned (VPromise (next_promise s)), s') /\
    state_of s' (next_promise s) = PENDING /\
    result_of s' (next_promise s) = None /\
    get_then H v = Returned t /\
    queue s' = queue s ++ [ResolveThenableJob (next_promise s) v t].
Proof.
  intros Hv Hn. rewrite Promise_resolve_unfold. cbv zeta.
  match goal with
  | |- context [capability_made ?f ?t ?a s] =>
      destruct (capability_made_facts f t a s) as (Hc & Hh & Hq);
      set (s1 := capability_made f t a s) in *
  end.
  rewrite resolve_fresh by now rewrite Hc.
  rewrite Hc. cbn [promise_var]. cbv zeta.
  set (s2 := update_closure (next_closure s) (set_alreadySettled true) s1).
  assert (Hh2 : heap s2 (next_promise s) = created_promise) by exact Hh.
  assert (Hq2 : queue s2 = queue s) by exact Hq.
  assert (Hself : strict_equal v (VPromise (next_promise s)) = false).
  { unfold strict_equal.
    destruct (value_eq_dec v (VPromise (next_promise s)));
      [contradiction | reflexivity]. }
  rewrite Hself.
  unfold thenable in Hv.
  destruct (get_then H v) as [t | e] eqn:Ht;
    [| destruct v; discriminate Hv].
  assert (Hcall : isCallable t = true) by (destruct v; try discriminate Hv; exact Hv).
  exists (with_queue (queue s2 ++ [ResolveThenableJob (next_promise s) v t]) s2), t.
  split; [| split; [| split; [| split]]].
  - unfold try_catch, bind, lift.
    destruct v; try discriminate Hv; cbn in Ht |- *; rewrite ?Ht, Hcall; cbn;
      reflexivity.
  - unfold state_of. cbn [heap with_queue]. now rewrite Hh2.
  - unfold result_of. cbn [heap with_queue]. now rewrite Hh2.
  - reflexivity.
  - cbn [queue with_queue]. now rewrite Hq2.
Qed.

Lemma resolve_raises_flag H c v (s : St) :
  well_formed s -> c < next_closure s ->
  alreadySettled (closures (snd (resolve H c v s)) c) = true.
Proof.
  intros Hs Hc. destruct (alreadySettled (closures s c)) eqn:Hf.
  - now rewrite resolve_used.
  - rewrite resolve_fresh by exact Hf. cbv zeta.
    match goal with
    | |- context [snd (?m ?s0)] =>
        assert (Hm : sound well_formed extends m) by walk1 fail;
        destruct (Hm s0 Hs) as [_ [_ [[Hk _] _]]];
        apply (Hk c Hc)
    end.
    cbn. now rewrite override_same.
Qed.

Lemma reject_raises_flag c v (s : St) :
  well_formed s -> c < next_closure s ->
  alreadySettled (closures (snd (reject c v s)) c) = true.
Proof.
  intros Hs Hc. destruct (alreadySettled (closures s c)) eqn:Hf.
  - now rewrite reject_used.
  - rewrite reject_fresh by exact Hf.
    match goal with
    | |- context [snd (?m ?s0)] =>
        destruct (rejectPromise_ok (promise_var (closures s c)) v
                    (s := s0) Hs) as [_ [_ [[Hk _] _]]];
        apply (Hk c Hc)
    end.
    cbn. now rewrite override_same.
Qed.

(** part_000, for claim C1: once either function of a pair has been called,
    every later call of either, with any argument, returns at once and leaves
    the heap as it is. *)
Theorem pair_is_one_shot_p0 H c v (s s1 s2 : St) :
  well_formed s -> c < next_closure s ->
  s1 = snd (resolve H c v s) \/ s1 = snd (reject c v s) ->
  later H s1 s2 ->
  forall w, resolve H c w s2 = (Returned VUndefined, s2)
            /\ reject c w s2 = (Returned VUndefined, s2).
Proof.
  intros Hs Hc Hfirst Hlater w.
  assert (H1 : well_formed s1 /\ extends s s1
               /\ alreadySettled (closures s1 c) = true).
  { destruct Hfirst as [-> | ->].
    - destruct (resolve_ok H c v Hs) as [W E].
      auto using resolve_raises_flag.
    - destruct (reject_ok c v Hs) as [W E].
      auto using reject_raises_flag. }
  destruct H1 as (W1 & [G1 _] & F1).
  destruct (later_ok Hlater W1) as [_ [_ [[Hk _] _]]].
  assert (Hc1 : c < next_closure s1) by (pose proof (grows_closures G1); lia).
  destruct (Hk c Hc1) as [_ Hflag].
  split; [apply resolve_used | apply reject_used]; auto.
Qed.

(** part_000, for claim C2: on a settled promise both settlements are
    no-ops, and its state and result are the same in every later heap. *)
Theorem settled_is_final_p0 H p (s : St) :
  well_formed s -> p < next_promise s -> state_of s p <> PENDING ->
  (forall v, fulfillPromise p v s = (Returned VUndefined, s)
             /\ rejectPromise p v s = (Returned VUndefined, s))
  /\ forall s', later H s s' ->
       state_of s' p = state_of s p /\ result_of s' p = result_of s p.
Proof.
  intros Hs Hp Hst. split.
  - intros v. split;
      [now apply fulfillPromise_settled | now apply rejectPromise_settled].
  - intros s' Hl. destruct (later_ok Hl Hs) as [_ [_ [[_ Hk] _]]].
    now apply Hk.
Qed.

Lemma fulfillPromise_returns (s : St) p v :
  is_promise_object (heap s p) = true ->
  exists s', fulfillPromise p v s = (Returned VUndefined, s').
Proof.
  intros Ho. destruct (state_of s p) eqn:Hp.
  - destruct (fulfillPromise_effect s p v Hp Ho) as (l & _ & ->). eauto.
  - rewrite fulfillPromise_settled by congruence. eauto.
  - rewrite fulfillPromise_settled by congruence. eauto.
Qed.

Lemma rejectPromise_returns (s : St) p v :
  is_promise_object (heap s p) = true ->
  exists s', rejectPromise p v s = (Returned VUndefined, s').
Proof.
  intros Ho. destruct (state_of s p) eqn:Hp.
  - destruct (rejectPromise_effect s p v Hp Ho) as (l & _ & ->). eauto.
  - rewrite rejectPromise_settled by congruence. eauto.
  - rewrite rejectPromise_settled by congruence. eauto.
Qed.

Lemma resolve_returns H c v (s : St) :
  well_formed s -> exists s', resolve H c v s = (Returned VUndefined, s').
Proof.
  intros Hs. destruct (alreadySettled (closures s c)) eqn:Hf.
  - rewrite resolve_used by exact Hf. eauto.
  - rewrite resolve_fresh by exact Hf. cbv zeta.
    set (p := promise_var (closures s c)).
    set (s0 := update_closure c (set_alreadySettled true) s).
    assert (Ho : forall q, is_promise_object (heap s0 q) = true) by exact Hs.
    destruct (strict_equal v (VPromise p)); [apply rejectPromise_returns, Ho |].
    destruct (strict_equal v VNull); [apply fulfillPromise_returns, Ho |].
    destruct (negb (isObject v) && negb (isFunction v));
      [apply fulfillPromise_returns, Ho |].
    unfold try_catch, bind, lift.
    destruct (get_then H v) as [t | e].
    + destruct (negb (isCallable t)).
      * destruct (fulfillPromise_returns s0 p v (Ho p)) as [s' ->]. eauto.
      * unfold setImmediate, modify. cbn. eauto.
    + apply rejectPromise_returns, Ho.
Qed.

Lemma reject_returns c v (s : St) :
  well_formed s -> exists s', reject c v s = (Returned VUndefined, s').
Proof.
  intros Hs. destruct (alreadySettled (closures s c)) eqn:Hf.
  - rewrite reject_used by exact Hf. eauto.
  - rewrite reject_fresh by exact Hf. apply rejectPromise_returns, Hs.
Qed.

Lemma call_resolve_returns H c this v (s : St) :
  well_formed s ->
  exists s', call H (VNative (ResolveFn c)) this [v] s = (Returned VUndefined, s').
Proof.
  intros Hs. unfold call, bind, log_call, modify, call_native.
  apply resolve_returns. exact Hs.
Qed.

Lemma reaction_job_p0 H (r : Reaction) a c (s : St) :
  well_formed s ->
  handler r = VUndefined \/ isCallable (handler r) = true ->
  cap_resolve (capability r) = VNative (ResolveFn c) ->
  promiseReactionJob H r a s
  = reactionJob_spec (call H) (capability_object (capability r)) r a s.
Proof.
  intros Hs Hh Hc. unfold promiseReactionJob, reactionJob_spec. cbv zeta.
  destruct Hh as [-> | Hh]; [reflexivity |].
  destruct (handler r) as [| | | | | | | f | | b |] eqn:Eh;
    try discriminate Hh; cbn [truthy negb].
  - unfold try_catch. unfold bind at 1.
    destruct (call_ok H (VFunction f) VUndefined [a] Hs) as [W _].
    destruct (call H (VFunction f) VUndefined [a] s) as [[v | e] s1];
      cbn [snd] in W; [| reflexivity].
    rewrite Hc.
    destruct (@call_resolve_returns H c (capability_object (capability r)) v s1 W)
      as [s2 E].
    unfold bind. rewrite E. reflexivity.
  - unfold try_catch. unfold bind at 1.
    destruct (call_ok H (VNative b) VUndefined [a] Hs) as [W _].
    destruct (call H (VNative b) VUndefined [a] s) as [[v | e] s1];
      cbn [snd] in W; [| reflexivity].
    rewrite Hc.
    destruct (@call_resolve_returns H c (capability_object (capability r)) v s1 W)
      as [s2 E].
    unfold bind. rewrite E. reflexivity.
Qed.

Ltac quiet_walk known := quiet_walk_in Closure known.

Lemma triggerPromiseReactions_quiet reactions argument :
  sound anything quiet (triggerPromiseReactions reactions argument).
Proof. unfold triggerPromiseReactions. quiet_walk fail. Qed.

Lemma rejectPromise_quiet promise reason :
  sound anything quiet (rejectPromise promise reason).
Proof.
  unfold rejectPromise.
  quiet_walk ltac:(idtac; lazymatch goal with
                   | |- sound _ _ (triggerPromiseReactions _ _) =>
                       apply triggerPromiseReactions_quiet
                   end).
Qed.

Lemma reject_quiet c reason : sound anything quiet (reject c reason).
Proof.
  unfold reject.
  quiet_walk ltac:(idtac; lazymatch goal with
                   | |- sound _ _ (rejectPromise _ _) =>
                       apply rejectPromise_quiet
                   end).
Qed.



Lemma Promise_then_pending p h j (s : St) :
  state_of s p = PENDING -> p < next_promise s ->
  is_promise_object (heap s p) = true ->
  Promise_then (VPromise p) h j s
  = (Returned (VPromise (next_promise s)),
     update p (set_PromiseIsHandled_own true)
       (update p (push_reject {| capability := new_capability s;
                                 type := Reject; handler := coerce j |})
          (update p (push_fulfill {| capability := new_capability s;
                                     type := Fulfill; handler := coerce h |})
             (with_capability s)))).
Proof.
  intros Hp Hlt Ho.
  destruct (promise_object_lists _ Ho) as (l & l' & Hl & Hl').
  unfold Promise_then. cbn [isPromise instanceof_Promise negb].
  unfold bind at 1. rewrite newPromiseCapability_effect.
  fold (with_capability s). fold (new_capability s).
  assert (Hh : heap (with_capability s) p = heap s p).
  { cbn. apply override_other. lia. }
  assert (Hp1 : state_of (with_capability s) p = PENDING)
    by (unfold state_of; now rewrite Hh).
  unfold performPromiseThen. fold (coerce h). fold (coerce j).
  unfold bind, gets, modify, ret. rewrite Hp1.
  unfold fulfillReactions_of. rewrite Hh, Hl.
  unfold rejectReactions_of. rewrite heap_update_same.
  cbn [push_fulfill PromiseRejectReactions]. rewrite Hh, Hl'.
  reflexivity.
Qed.




Lemma Promise_guards H executor (s : St) :
  Promise H false executor s
  = (Thrown (VTypeError "undefined is not a promise"), s)
  /\ (isCallable executor = false ->
      Promise H true executor s
      = (match ToString H executor with
         | Returned text =>
             Thrown (VTypeError
               (String.append "Promise resolver "
                  (String.append text " is not a function")))
         | Thrown e => Thrown e
         end, s)).
Proof.
  split; [reflexivity |]. intros Hc. unfold Promise. cbn [negb].
  rewrite Hc. cbn [negb]. unfold bind, lift, throw.
  now destruct (ToString H executor).
Qed.


Lemma call_logged H f this args (s : St) :
  well_formed s -> isCallable f = true ->
  well_formed (snd (call H f this args s))
  /\ exists rest,
       calls (snd (call H f this args s))
       = calls s ++ {| callee := f; receiver := this; arguments := args |}
                    :: rest.
Proof.
  intros Hs Hf.
  destruct (call_ok H f this args Hs) as [W _].
  split; [exact W |].
  set (inv := {| callee := f; receiver := this; arguments := args |}).
  set (s0 := with_calls (calls s ++ [inv]) s).
  assert (W0 : well_formed s0) by exact Hs.
  destruct f; try discriminate Hf; unfold call, bind, log_call, modify;
    fold inv; fold s0.
  - destruct (exec_ok H (body H f this args) W0) as (_ & G & _).
    destruct (grows_calls G) as [t Ht]. exists t. rewrite Ht.
    cbn [calls with_calls s0]. now rewrite <- app_assoc.
  - destruct (call_native_ok H b this args W0) as (_ & G & _).
    destruct (grows_calls G) as [t Ht]. exists t. rewrite Ht.
    cbn [calls with_calls s0]. now rewrite <- app_assoc.
Qed.


End Part000Facts.

(** * Facts about src/promise.js *)
Module PromiseJsFacts.
Import PromiseJs PromiseJsSpec.

Lemma advances_refl (s : St) : advances s s.
Proof. split; [apply grows_refl | apply fires_refl]. Qed.

Lemma advances_trans (a b c : St) :
  advances a b -> advances b c -> advances a c.
Proof.
  intros [G1 F1] [G2 F2]. split; [eapply grows_trans; eassumption |].
  eapply fires_trans; try eassumption. intros [].
Qed.

Local Abbreviation okj := (sound well_formed advances).

(** A step that fulfills no promise. *)
Lemma advances_intro A (m : M Closure A) :
  sound well_formed grows m ->
  (forall s p, p < next_promise s -> state_of (snd (m s)) p = FULFILLED ->
               state_of s p = FULFILLED) ->
  okj m.
Proof.
  intros Hm Hsame s Hs. destruct (Hm s Hs) as [W G].
  split; [exact W |]. split; [exact G |].
  apply fires_none. intros p. apply Hsame.
Qed.

Lemma update_js p f :
  gentle f -> keeps_settlement f -> okj (modify (update (C := Closure) p f)).
Proof.
  intros Hg Hk. apply advances_intro.
  - apply sound_modify. intros s Hs. now apply update_grows.
  - intros s q _. cbn [modify snd]. unfold state_of.
    destruct (Nat.eq_dec q p) as [-> | Hq].
    + rewrite heap_update_same. destruct (Hk (heap s p)) as [-> _]. auto.
    + rewrite heap_update_other by assumption. auto.
Qed.

Lemma update_closure_js c f : okj (modify (update_closure (C := Closure) c f)).
Proof.
  apply advances_intro; [| intros s q _ Hq; exact Hq].
  apply sound_modify. intros s Hs. now apply update_closure_grows.
Qed.

Lemma setImmediate_js j : okj (setImmediate (C := Closure) j).
Proof.
  apply advances_intro; [| intros s q _ Hq; exact Hq].
  intros s Hs. now apply setImmediate_grows.
Qed.

Lemma log_call_js i : okj (log_call (C := Closure) i).
Proof.
  apply advances_intro; [| intros s q _ Hq; exact Hq].
  intros s Hs. now apply log_call_grows.
Qed.

Lemma console_log_js l : okj (console_log (C := Closure) l).
Proof.
  apply advances_intro; [| intros s q _ Hq; exact Hq].
  intros s Hs. now apply console_log_grows.
Qed.

Lemma allocate_closure_js k : okj (allocate_closure (C := Closure) k).
Proof.
  apply advances_intro; [| intros s q _ Hq; exact Hq].
  intros s Hs. now apply allocate_closure_grows.
Qed.

Lemma allocate_promise_js : okj (allocate_promise (C := Closure)).
Proof.
  apply advances_intro.
  - intros s Hs. now apply allocate_promise_grows.
  - intros s q Hq. unfold state_of. cbn.
    rewrite override_other by lia. auto.
Qed.

Ltac walk_js known :=
  sound_walk advances_refl advances_trans
    ltac:(idtac; first
      [ known
      | lazymatch goal with
        | |- sound _ _ (setImmediate _) => apply setImmediate_js
        | |- sound _ _ (log_call _) => apply log_call_js
        | |- sound _ _ (console_log _) => apply console_log_js
        | |- sound _ _ (allocate_closure _) => apply allocate_closure_js
        | |- sound _ _ (modify (update_closure _ _)) => apply update_closure_js
        | |- sound _ _ allocate_promise => apply allocate_promise_js
        | |- sound _ _ (modify (update _ _)) =>
            apply update_js; solve [auto with heap_facts]
        end ]).

Lemma TriggerPromiseReactions_js reactions argument :
  okj (TriggerPromiseReactions reactions argument).
Proof. unfold TriggerPromiseReactions. walk_js fail. Qed.

Lemma HostPromiseRejectionTracker_js promise operation :
  okj (HostPromiseRejectionTracker promise operation).
Proof. unfold HostPromiseRejectionTracker. walk_js fail. Qed.

Ltac walk_js1 known :=
  walk_js ltac:(idtac; first
    [ known
    | lazymatch goal with
      | |- sound _ _ (TriggerPromiseReactions _ _) =>
          apply TriggerPromiseReactions_js
      | |- sound _ _ (HostPromiseRejectionTracker _ _) =>
          apply HostPromiseRejectionTracker_js
      end ]).

(** The four assignments of a settlement: neither file guards them here. *)
Lemma settled_grows (s : St) p st v :
  well_formed s ->
  well_formed (settled p st v s) /\ grows s (settled p st v s).
Proof.
  intros Hs. unfold settled.
  destruct (update_grows p (gentle_set_PromiseResult v) Hs) as [W1 G1].
  destruct (update_grows p (gentle_set_PromiseFulfillReactions None) W1)
    as [W2 G2].
  destruct (update_grows p (gentle_set_PromiseRejectReactions None) W2)
    as [W3 G3].
  destruct (update_grows p (gentle_set_PromiseState st) W3) as [W4 G4].
  split; [exact W4 |].
  exact (grows_trans (grows_trans (grows_trans G1 G2) G3) G4).
Qed.

Lemma settled_elsewhere (s : St) p st v q :
  q <> p -> heap (settled p st v s) q = heap s q.
Proof.
  intros Hq. unfold settled. now rewrite !heap_update_other by assumption.
Qed.

Lemma TriggerPromiseReactions_array_js l v (s : St) :
  TriggerPromiseReactions (Some l) v s
  = (Returned VUndefined,
     with_queue (queue s ++ map (fun r => ReactionJob r v) l) s).
Proof.
  unfold TriggerPromiseReactions, bind. now rewrite forEach_setImmediate.
Qed.

Lemma FulfillPromise_effect_js (s : St) p v :
  is_promise_object (heap s p) = true ->
  exists l, fulfillReactions_of s p = Some l /\
    FulfillPromise p v s
    = (Returned VUndefined,
       with_queue (queue s ++ map (fun r => ReactionJob r v) l)
         (settled p FULFILLED v s)).
Proof.
  intros Ho. destruct (promise_object_lists _ Ho) as (l & l' & Hl & _).
  exists l. split; [exact Hl |].
  unfold FulfillPromise, bind, gets, modify.
  unfold fulfillReactions_of. rewrite Hl.
  fold (settled p FULFILLED v s). rewrite TriggerPromiseReactions_array_js.
  destruct (settled_facts s p FULFILLED v Ho) as (_ & _ & _ & _ & -> & _).
  reflexivity.
Qed.

Lemma FulfillPromise_js promise v : okj (FulfillPromise promise v).
Proof.
  intros s Hs.
  destruct (FulfillPromise_effect_js s promise v (Hs promise))
    as (l & Hl & ->). cbn [snd].
  destruct (@settled_grows s promise FULFILLED v Hs) as [W G].
  destruct (settled_facts s promise FULFILLED v (Hs promise))
    as (F1 & F2 & _ & _ & F5 & _ & _ & F8 & _).
  split; [exact W |]. split.
  - eapply grows_trans; [exact G |].
    split; cbn; auto using extended_by_refl, lists_grow_refl.
    unfold schedule; cbn. rewrite app_assoc. apply extended_by_app.
  - intros q lq Hq Hnot Hful Hlq.
    destruct (Nat.eq_dec q promise) as [-> | Hne].
    + exists v, [], [], []. split; [| intros []].
      unfold schedule. cbn [ran queue with_queue]. rewrite F8.
      rewrite Hl in Hlq. injection Hlq as <-.
      rewrite !app_nil_r. cbn [app]. now rewrite app_assoc.
    + exfalso. apply Hnot. unfold state_of in *.
      cbn [heap with_queue] in Hful. now rewrite settled_elsewhere in Hful.
Qed.

Lemma RejectPromise_grows promise reason :
  sound well_formed grows (RejectPromise promise reason).
Proof.
  unfold RejectPromise, HostPromiseRejectionTracker, TriggerPromiseReactions.
  sound_walk (@grows_refl Closure) (@grows_trans Closure)
    ltac:(idtac; lazymatch goal with
      | |- sound _ _ (setImmediate _) => apply setImmediate_grows
      | |- sound _ _ (console_log _) => apply console_log_grows
      | |- sound _ _ (modify (update _ _)) =>
          apply sound_modify; intros ? ?; apply update_grows;
          [solve [auto with heap_facts] | assumption]
      end).
Qed.

Lemma RejectPromise_heap_js (s : St) p v :
  is_promise_object (heap s p) = true ->
  heap (snd (RejectPromise p v s)) = heap (settled p REJECTED v s).
Proof.
  intros Ho. destruct (promise_object_lists _ Ho) as (l' & l & _ & Hl).
  unfold RejectPromise, HostPromiseRejectionTracker, console_log, bind, gets,
    modify.
  unfold rejectReactions_of. rewrite Hl.
  fold (settled p REJECTED v s).
  destruct (negb (prop_value (PromiseIsHandled (heap (settled p REJECTED v s) p))));
    unfold ret; rewrite TriggerPromiseReactions_array_js; reflexivity.
Qed.

Lemma RejectPromise_js promise reason : okj (RejectPromise promise reason).
Proof.
  intros s Hs. destruct (RejectPromise_grows promise reason Hs) as [W G].
  split; [exact W |]. split; [exact G |].
  apply fires_none. intros q _ Hful.
  destruct (settled_facts s promise REJECTED reason (Hs promise))
    as (F1 & _).
  unfold state_of in *.
  rewrite RejectPromise_heap_js in Hful by apply Hs.
  destruct (Nat.eq_dec q promise) as [-> | Hne].
  - rewrite F1 in Hful. discriminate.
  - now rewrite settled_elsewhere in Hful.
Qed.

Lemma CreateResolvingFunctions_js promise :
  okj (CreateResolvingFunctions promise).
Proof.
  unfold CreateResolvingFunctions, getPromiseResolveFunctions,
    getPromiseRejectFunctions, setPromise, setAlreadyResolved.
  walk_js1 fail.
Qed.

Ltac walk_js2 known :=
  walk_js1 ltac:(idtac; first
    [ known
    | lazymatch goal with
      | |- sound _ _ (FulfillPromise _ _) => apply FulfillPromise_js
      | |- sound _ _ (RejectPromise _ _) => apply RejectPromise_js
      | |- sound _ _ (CreateResolvingFunctions _) =>
          apply CreateResolvingFunctions_js
      | |- sound _ _ (setAlreadyResolved _ _) =>
          unfold setAlreadyResolved; apply update_closure_js
      | |- sound _ _ (the_promise _) => unfold the_promise
      end ]).

Lemma resolve_Function_js H c resolution : okj (resolve_Function H c resolution).
Proof. unfold resolve_Function. walk_js2 fail. Qed.

Lemma reject_Function_js c reason : okj (reject_Function c reason).
Proof. unfold reject_Function. walk_js2 fail. Qed.

Lemma Promise_body_js A (executor : value -> value -> M Closure A) :
  (forall r j, okj (executor r j)) -> okj (Promise_body executor).
Proof.
  intros He. unfold Promise_body.
  walk_js2 ltac:(idtac; lazymatch goal with
                 | |- sound _ _ (executor _ _) => apply He
                 | |- sound _ _ (reject_Function _ _) =>
                     apply reject_Function_js
                 end).
Qed.

Lemma NewPromiseCapability_js : okj NewPromiseCapability.
Proof.
  unfold NewPromiseCapability.
  walk_js2 ltac:(idtac; lazymatch goal with
                 | |- sound _ _ (Promise_body _) =>
                     apply Promise_body_js; intros ? ?
                 end).
Qed.

Lemma PerformPromiseThen_js promise onFulfilled onRejected resultCapability :
  okj (PerformPromiseThen promise onFulfilled onRejected resultCapability).
Proof. unfold PerformPromiseThen. walk_js2 fail. Qed.

Lemma Promise_then_js this onFulfilled onRejected :
  okj (Promise_then this onFulfilled onRejected).
Proof.
  unfold Promise_then.
  walk_js2 ltac:(idtac; lazymatch goal with
                 | |- sound _ _ NewPromiseCapability =>
                     apply NewPromiseCapability_js
                 | |- sound _ _ (PerformPromiseThen _ _ _ _) =>
                     apply PerformPromiseThen_js
                 end).
Qed.

Lemma call_native_js H f this args : okj (call_native H f this args).
Proof.
  destruct f; cbn;
    auto using resolve_Function_js, reject_Function_js, Promise_then_js.
Qed.

Lemma Promise_deferred_js : okj Promise_deferred.
Proof.
  unfold Promise_deferred.
  walk_js2 ltac:(idtac; lazymatch goal with
                 | |- sound _ _ NewPromiseCapability =>
                     apply NewPromiseCapability_js
                 end).
Qed.

Lemma exec_js H t : okj (exec H t).
Proof.
  induction t as [c | f this args k IH | executor IHe k IH | k IH]; cbn.
  - walk_js2 fail.
  - walk_js2 ltac:(idtac; lazymatch goal with
                   | |- sound _ _ (call_native _ _ _ _) => apply call_native_js
                   | |- sound _ _ (exec _ _) => apply IH
                   end).
  - walk_js2 ltac:(idtac; lazymatch goal with
                   | |- sound _ _ (Promise_body _) =>
                       apply Promise_body_js; intros ? ?; apply IHe
                   | |- sound _ _ (exec _ _) => apply IH
                   end).
  - walk_js2 ltac:(idtac; lazymatch goal with
                   | |- sound _ _ Promise_deferred => apply Promise_deferred_js
                   | |- sound _ _ (exec _ _) => apply IH
                   end).
Qed.

Lemma call_js H f this args : okj (call H f this args).
Proof.
  unfold call.
  walk_js2 ltac:(idtac; lazymatch goal with
                 | |- sound _ _ (call_native _ _ _ _) => apply call_native_js
                 | |- sound _ _ (exec _ _) => apply exec_js
                 end).
Qed.

Lemma Promise_js H new_target executor : okj (Promise H new_target executor).
Proof.
  unfold Promise.
  walk_js2 ltac:(idtac; lazymatch goal with
                 | |- sound _ _ (Promise_body _) =>
                     apply Promise_body_js; intros ? ?; apply call_js
                 end).
Qed.

Lemma PromiseReactionJob_js H reaction argument :
  okj (PromiseReactionJob H reaction argument).
Proof.
  unfold PromiseReactionJob.
  walk_js2 ltac:(idtac; lazymatch goal with
                 | |- sound _ _ (call _ _ _ _) => apply call_js
                 end).
Qed.

Lemma PromiseResolveThenableJob_js H promise resolution thenAction :
  okj (PromiseResolveThenableJob H promise resolution thenAction).
Proof.
  unfold PromiseResolveThenableJob.
  walk_js2 ltac:(idtac; lazymatch goal with
                 | |- sound _ _ (call _ _ _ _) => apply call_js
                 | |- sound _ _ (reject_Function _ _) =>
                     apply reject_Function_js
                 end).
Qed.

Lemma Promise_resolve_js H x : okj (Promise_resolve H x).
Proof.
  unfold Promise_resolve.
  walk_js2 ltac:(idtac; lazymatch goal with
                 | |- sound _ _ NewPromiseCapability =>
                     apply NewPromiseCapability_js
                 | |- sound _ _ (call _ _ _ _) => apply call_js
                 end).
Qed.

Lemma Promise_reject_js H r : okj (Promise_reject H r).
Proof.
  unfold Promise_reject.
  walk_js2 ltac:(idtac; lazymatch goal with
                 | |- sound _ _ NewPromiseCapability =>
                     apply NewPromiseCapability_js
                 | |- sound _ _ (call _ _ _ _) => apply call_js
                 end).
Qed.

Lemma run_job_js H j : okj (run_job H j).
Proof.
  destruct j; cbn;
    auto using PromiseReactionJob_js, PromiseResolveThenableJob_js.
Qed.

Lemma take_job_js (s : St) j q :
  queue s = j :: q -> well_formed s ->
  well_formed (take_job j q s) /\ advances s (take_job j q s).
Proof.
  intros Hq Hs. destruct (take_job_grows Hq Hs) as [W G].
  split; [exact W |]. split; [exact G |].
  apply fires_none. intros p _ Hp. exact Hp.
Qed.

Lemma run_jobs_js H n (s : St) :
  well_formed s -> well_formed (run_jobs H n s) /\ advances s (run_jobs H n s).
Proof.
  revert s. induction n as [| n IH]; intros s Hs; cbn.
  - auto using advances_refl.
  - destruct (queue s) as [| j q] eqn:Hq; [auto using advances_refl |].
    destruct (take_job_js Hq Hs) as [W1 E1].
    destruct (run_job_js H j W1) as [W2 E2].
    destruct (IH _ W2) as [W3 E3].
    split; [exact W3 |].
    eapply advances_trans; [exact E1 |].
    eapply advances_trans; eassumption.
Qed.

Lemma perform_js H a (s : St) :
  well_formed s -> well_formed (perform H a s) /\ advances s (perform H a s).
Proof.
  intros Hs. destruct a; cbv beta iota delta [perform].
  - now apply exec_js.
  - now apply call_js.
  - now apply Promise_js.
  - now apply Promise_resolve_js.
  - now apply Promise_reject_js.
  - now apply run_jobs_js.
Qed.

Lemma later_js H (s s' : St) :
  later H s s' -> well_formed s -> well_formed s' /\ advances s s'.
Proof.
  induction 1 as [s | s s' a _ IH]; intros Hs.
  - auto using advances_refl.
  - destruct (IH Hs) as [W E].
    destruct (perform_js H a W) as [W' E'].
    split; [exact W' | eapply advances_trans; eassumption].
Qed.

Lemma initial_well_formed_js : well_formed initial.
Proof. intros p. reflexivity. Qed.

Lemma reaction_job_js H (r : Reaction) a (s : St) :
  handler r = VUndefined \/ isCallable (handler r) = true ->
  (forall v s1, call H (handler r) VUndefined [a] s = (Returned v, s1) ->
     exists u s2,
       call H (cap_resolve (capability r)) VUndefined [v] s1 = (Returned u, s2)) ->
  PromiseReactionJob H r a s = reactionJob_spec (call H) VUndefined r a s.
Proof.
  intros Hh Hres. unfold PromiseReactionJob, reactionJob_spec. cbv zeta.
  destruct Hh as [E | Hh].
  - rewrite E. reflexivity.
  - destruct (handler r) as [| | | | | | | f | | b |] eqn:Eh;
      try discriminate Hh; cbn [strict_equal].
    + replace (strict_equal (VFunction f) VUndefined) with false by reflexivity.
      unfold try_catch. unfold bind at 1.
      destruct (call H (VFunction f) VUndefined [a] s) as [[v | e] s1] eqn:Ec;
        [| reflexivity].
      destruct (Hres v s1 eq_refl) as (u & s2 & E).
      unfold bind. rewrite E. reflexivity.
    + replace (strict_equal (VNative b) VUndefined) with false by reflexivity.
      unfold try_catch. unfold bind at 1.
      destruct (call H (VNative b) VUndefined [a] s) as [[v | e] s1] eqn:Ec;
        [| reflexivity].
      destruct (Hres v s1 eq_refl) as (u & s2 & E).
      unfold bind. rewrite E. reflexivity.
Qed.

Ltac quiet_walk known := quiet_walk_in Closure known.

Lemma TriggerPromiseReactions_quiet_js reactions argument :
  sound anything quiet (TriggerPromiseReactions reactions argument).
Proof. unfold TriggerPromiseReactions. quiet_walk fail. Qed.

Lemma RejectPromise_quiet_js promise reason :
  sound anything quiet (RejectPromise promise reason).
Proof.
  unfold RejectPromise, HostPromiseRejectionTracker.
  quiet_walk ltac:(idtac; lazymatch goal with
                   | |- sound _ _ (TriggerPromiseReactions _ _) =>
                       apply TriggerPromiseReactions_quiet_js
                   end).
Qed.

Lemma reject_Function_quiet_js c reason :
  sound anything quiet (reject_Function c reason).
Proof.
  unfold reject_Function, setAlreadyResolved, the_promise.
  quiet_walk ltac:(idtac; lazymatch goal with
                   | |- sound _ _ (RejectPromise _ _) =>
                       apply RejectPromise_quiet_js
                   end).
Qed.



Lemma NewPromiseCapability_effect_js (s : St) :
  NewPromiseCapability s = (Returned (new_capability s), with_capability s).
Proof. reflexivity. Qed.

Lemma with_capability_facts_js (s : St) :
  heap (with_capability s) = override (heap s) (next_promise s) created_promise
  /\ next_promise (with_capability s) = S (next_promise s)
  /\ queue (with_capability s) = queue s
  /\ closures (with_capability s) (next_closure s)
     = {| Promise_var := Some (next_promise s);
          AlreadyResolved_var := Some false |}
  /\ closures (with_capability s) (S (next_closure s))
     = {| Promise_var := Some (next_promise s);
          AlreadyResolved_var := Some false |}.
Proof.
  assert (E1 : Nat.eqb (next_closure s) (S (next_closure s)) = false)
    by (apply Nat.eqb_neq; lia).
  assert (E2 : Nat.eqb (S (next_closure s)) (next_closure s) = false)
    by (apply Nat.eqb_neq; lia).
  repeat split; cbn; unfold override;
    rewrite ?Nat.eqb_refl, ?E1, ?E2; cbn; rewrite ?Nat.eqb_refl; reflexivity.
Qed.

Lemma Promise_then_pending_js p h j (s : St) :
  state_of s p = PENDING -> p < next_promise s ->
  is_promise_object (heap s p) = true ->
  Promise_then (VPromise p) h j s
  = (Returned (VPromise (next_promise s)),
     update p (set_PromiseIsHandled true)
       (update p (push_reject {| capability := new_capability s;
                                 type := Reject; handler := coerce j |})
          (update p (push_fulfill {| capability := new_capability s;
                                     type := Fulfill; handler := coerce h |})
             (with_console (console s ++ ["state: pending"])
                (with_capability s))))).
Proof.
  intros Hp Hlt Ho.
  destruct (promise_object_lists _ Ho) as (l & l' & Hl & Hl').
  unfold Promise_then. cbn [IsPromise instanceof_Promise negb].
  unfold bind at 1. rewrite NewPromiseCapability_effect_js.
  destruct (with_capability_facts_js s) as (Hheap & _).
  assert (Hh : heap (with_capability s) p = heap s p).
  { rewrite Hheap. apply override_other. lia. }
  assert (Hp1 : state_of (with_capability s) p = PENDING)
    by (unfold state_of; now rewrite Hh).
  unfold PerformPromiseThen. fold (coerce h). fold (coerce j).
  unfold console_log, bind, gets, modify, ret. rewrite Hp1.
  unfold fulfillReactions_of. cbn [heap with_console]. rewrite Hh, Hl.
  unfold rejectReactions_of. rewrite heap_update_same.
  cbn [push_fulfill PromiseRejectReactions heap with_console].
  rewrite Hh, Hl'.
  reflexivity.
Qed.




Lemma Promise_guards_js H executor (s : St) :
  Promise H false executor s
  = (Thrown (VTypeError "undefined is not a promise"), s)
  /\ (isCallable executor = false ->
      Promise H true executor s
      = (match ToString H executor with
         | Returned text =>
             Thrown (VTypeError
               (String.append "Promise resolver "
                  (String.append text " is not a function")))
         | Thrown e => Thrown e
         end, s)).
Proof.
  split; [reflexivity |]. intros Hc. unfold Promise. cbn [negb].
  rewrite Hc. cbn [negb]. unfold bind, lift, throw.
  now destruct (ToString H executor).
Qed.

Lemma RejectPromise_effect_js (s : St) p v :
  is_promise_object (heap s p) = true ->
  exists l,
    rejectReactions_of s p = Some l /\
    fst (RejectPromise p v s) = Returned VUndefined /\
    state_of (snd (RejectPromise p v s)) p = REJECTED /\
    result_of (snd (RejectPromise p v s)) p = Some v /\
    queue (snd (RejectPromise p v s))
    = queue s ++ map (fun r => ReactionJob r v) l.
Proof.
  intros Ho. destruct (promise_object_lists _ Ho) as (l' & l & _ & Hl).
  destruct (settled_facts s p REJECTED v Ho)
    as (F1 & F2 & _ & _ & F5 & _).
  exists l. split; [exact Hl |].
  unfold RejectPromise, HostPromiseRejectionTracker, console_log, bind, gets,
    modify.
  unfold rejectReactions_of. rewrite Hl.
  fold (settled p REJECTED v s).
  unfold state_of, result_of in *.
  destruct (negb (prop_value (PromiseIsHandled (heap (settled p REJECTED v s) p))));
    unfold ret; rewrite TriggerPromiseReactions_array_js;
    cbn [fst snd queue heap with_queue with_console];
    rewrite F1, F2, F5; auto.
Qed.

Lemma resolve_self_js H c p (s : St) :
  closures s c = {| Promise_var := Some p; AlreadyResolved_var := Some false |} ->
  is_promise_object (heap s p) = true ->
  exists l,
    rejectReactions_of s p = Some l /\
    fst (resolve_Function H c (VPromise p) s) = Returned VUndefined /\
    state_of (snd (resolve_Function H c (VPromise p) s)) p = REJECTED /\
    result_of (snd (resolve_Function H c (VPromise p) s)) p
    = Some (VTypeError "resolution === promise") /\
    queue (snd (resolve_Function H c (VPromise p) s))
    = queue s ++
      map (fun r => ReactionJob r (VTypeError "resolution === promise")) l.
Proof.
  intros Hc Ho.
  set (s0 := update_closure c (fun e =>
     {| Promise_var := Promise_var e; AlreadyResolved_var := Some true |}) s).
  assert (Ho0 : is_promise_object (heap s0 p) = true) by exact Ho.
  assert (E : resolve_Function H c (VPromise p) s
              = RejectPromise p (VTypeError "resolution === promise") s0).
  { unfold resolve_Function. unfold bind at 1. unfold gets at 1.
    unfold bind at 1. unfold gets at 1. rewrite Hc.
    cbn [alreadyResolved_of AlreadyResolved_var Promise_var].
    unfold bind at 1. unfold setAlreadyResolved, modify at 1. fold s0.
    unfold the_promise. unfold bind at 1. unfold ret at 1.
    unfold strict_equal.
    destruct (value_eq_dec (VPromise p) (VPromise p)); [| contradiction].
    reflexivity. }
  rewrite E.
  exact (RejectPromise_effect_js s0 p (VTypeError "resolution === promise") Ho0).
Qed.

Lemma FulfillPromise_quiet_js promise v :
  sound anything quiet (FulfillPromise promise v).
Proof.
  unfold FulfillPromise.
  quiet_walk ltac:(idtac; lazymatch goal with
                   | |- sound _ _ (TriggerPromiseReactions _ _) =>
                       apply TriggerPromiseReactions_quiet_js
                   end).
Qed.

Lemma resolve_Function_quiet_js H c resolution :
  sound anything quiet (resolve_Function H c resolution).
Proof.
  unfold resolve_Function, setAlreadyResolved, the_promise.
  quiet_walk ltac:(idtac; lazymatch goal with
                   | |- sound _ _ (RejectPromise _ _) =>
                       apply RejectPromise_quiet_js
                   | |- sound _ _ (FulfillPromise _ _) =>
                       apply FulfillPromise_quiet_js
                   end).
Qed.

Lemma call_ResolveFn_js H c this v (s : St) :
  call H (VNative (ResolveFn c)) this [v] s
  = resolve_Function H c v
      (with_calls (calls s ++ [{| callee := VNative (ResolveFn c);
                                  receiver := this; arguments := [v] |}]) s).
Proof. reflexivity. Qed.

Lemma call_RejectFn_js H c this v (s : St) :
  call H (VNative (RejectFn c)) this [v] s
  = reject_Function c v
      (with_calls (calls s ++ [{| callee := VNative (RejectFn c);
                                  receiver := this; arguments := [v] |}]) s).
Proof. reflexivity. Qed.

Lemma reaction_job_calls_resolve_js H (r : Reaction) a c c' (s : St) v s1 :
  isCallable (handler r) = true ->
  cap_resolve (capability r) = VNative (ResolveFn c) ->
  cap_reject (capability r) = VNative (RejectFn c') ->
  call H (handler r) VUndefined [a] s = (Returned v, s1) ->
  exists rest,
    calls (snd (PromiseReactionJob H r a s))
    = calls s1
      ++ {| callee := VNative (ResolveFn c); receiver := VUndefined;
            arguments := [v] |} :: rest.
Proof.
  intros Hh Hc Hc' Hcall. unfold PromiseReactionJob. cbv zeta.
  assert (Hu : strict_equal (handler r) VUndefined = false)
    by (destruct (handler r); try discriminate Hh; reflexivity).
  rewrite Hu. unfold try_catch. unfold bind at 1. rewrite Hcall, Hc, Hc'.
  unfold bind at 1. rewrite call_ResolveFn_js.
  match goal with
  | |- context [resolve_Function H c v ?st] => set (s2 := st)
  end.
  destruct (@resolve_Function_quiet_js H c v s2 I) as [_ [Q _]].
  destruct (resolve_Function H c v s2) as [[u | e] s3]; cbn [snd] in Q.
  - exists []. cbn. rewrite Q. reflexivity.
  - unfold bind at 1. rewrite call_RejectFn_js.
    match goal with
    | |- context [reject_Function c' e ?st] => set (s4 := st)
    end.
    destruct (@reject_Function_quiet_js c' e s4 I) as [_ [Q' _]].
    destruct (reject_Function c' e s4) as [[u | e'] s5];
      unfold bind, ret; cbn [snd] in Q' |- *;
      rewrite Q'; unfold s4; cbn [calls with_calls]; rewrite Q;
      unfold s2; cbn [calls with_calls]; rewrite <- app_assoc;
      eexists; reflexivity.
Qed.




End PromiseJsFacts.

(** * The claims *)

(** Claim C1 (the resolve and reject closures of one pair share one flag, so
    that after the first call of either every later call of either is a
    no-op): src/promise.js does not keep it.  There
    [getPromiseResolveFunctions] and [getPromiseRejectFunctions] each declare
    their own [AlreadyResolved], and [CreateResolvingFunctions] hands each a
    copy of the constant [false].  On the pair of [Promise.deferred()],
    [resolve(1)] fulfills promise 0 with 1 and the later [reject(2)] still
    takes effect: the promise ends rejected with 2.  In
    src/unnamed/part_000 the claim holds, see
    [Part000Facts.pair_is_one_shot_p0]. *)
Theorem promise_js_pair_is_not_one_shot :
  let d := PromiseJsSpec.with_capability PromiseJsSpec.initial in
  let s1 := snd (PromiseJs.call demo_host (VNative (ResolveFn 0)) VUndefined
                   [VNum 1] d) in
  let s2 := snd (PromiseJs.call demo_host (VNative (RejectFn 1)) VUndefined
                   [VNum 2] s1) in
  PromiseJs.NewPromiseCapability PromiseJsSpec.initial
  = (Returned {| cap_promise := VPromise 0;
                 cap_resolve := VNative (ResolveFn 0);
                 cap_reject := VNative (RejectFn 1) |}, d)
  /\ (state_of s1 0 = FULFILLED /\ result_of s1 0 = Some (VNum 1))
  /\ (state_of s2 0 = REJECTED /\ result_of s2 0 = Some (VNum 2)).
Proof. vm_compute. repeat split. Qed.

(** Claim C2 (once a promise is fulfilled or rejected its state and result
    never change, and a second settlement attempt changes nothing):
    src/promise.js does not keep it.  [FulfillPromise] and [RejectPromise]
    there do not look at the state before they write.  For
    [new Promise((resolve, reject) => { resolve(1); throw 'late' })] the
    constructor's catch calls the pair's reject, whose own flag is still
    down, and the promise, already fulfilled with 1, ends rejected with
    'late'.  The same shows on the two functions alone: [RejectPromise] after
    [FulfillPromise] overwrites state and result.  In src/unnamed/part_000
    the claim holds, see [Part000Facts.settled_is_final_p0]. *)
Theorem promise_js_settles_twice :
  let out := PromiseJs.Promise demo_host true (VFunction 2)
               PromiseJsSpec.initial in
  let s1 := snd (PromiseJs.FulfillPromise 0 (VNum 1)
                   (PromiseJsSpec.with_capability PromiseJsSpec.initial)) in
  let s2 := snd (PromiseJs.RejectPromise 0 (VNum 2) s1) in
  fst out = Returned (VPromise 0)
  /\ state_of (snd out) 0 = REJECTED
  /\ result_of (snd out) 0 = Some (VStr "late")
  /\ (state_of s1 0 = FULFILLED /\ result_of s1 0 = Some (VNum 1))
  /\ (state_of s2 0 = REJECTED /\ result_of s2 0 = Some (VNum 2)).
Proof. vm_compute. repeat split. Qed.

(** Claim C3 (resolve settles a pending promise fulfilled with a value that
    is null, a primitive, or an object or function without a callable [then],
    and throws nothing): src/promise.js does not keep it for [null].  Its
    [isObject] is [typeof obj === 'object'], which holds of [null], so
    [resolve(null)] goes on to read [null.then]; that read throws a TypeError
    out of resolve and the promise stays pending.  In src/unnamed/part_000
    the claim holds, see [Part000Facts.resolve_plain_value_p0]. *)
Theorem promise_js_resolve_null_throws :
  let d := PromiseJsSpec.with_capability PromiseJsSpec.initial in
  let out := PromiseJs.call demo_host (VNative (ResolveFn 0)) VUndefined
               [VNull] d in
  fst out = Thrown (VTypeError "Cannot read property 'then' of null")
  /\ state_of (snd out) 0 = PENDING
  /\ result_of (snd out) 0 = None.
Proof. vm_compute. repeat split. Qed.

(** Claim C4 (when reading [then] of the resolution value throws, resolve
    catches the error and rejects the promise with it; nothing is raised to
    the caller): src/promise.js does not keep it.  The read
    [resolution.then] there stands outside any try, so for an object whose
    [then] getter throws 'boom' the call of resolve itself throws 'boom' and
    the promise stays pending.  In src/unnamed/part_000 the claim holds, see
    [Part000Facts.resolve_throwing_then_p0]. *)
Theorem promise_js_then_getter_throw_escapes :
  let d := PromiseJsSpec.with_capability PromiseJsSpec.initial in
  let out := PromiseJs.call demo_host (VNative (ResolveFn 0)) VUndefined
               [VObject 1] d in
  get_then demo_host (VObject 1) = Thrown (VStr "boom")
  /\ fst out = Thrown (VStr "boom")
  /\ state_of (snd out) 0 = PENDING
  /\ result_of (snd out) 0 = None.
Proof. vm_compute. repeat split. Qed.

(** Claim C8 (the two reaction lists are discarded, set to undefined, at
    settlement): neither file does it.  Both constructors declare
    [PromiseFulfillReactions] and [PromiseRejectReactions] through
    [Object.create] with a bare [{ value: [] }], hence not writable, and both
    files run in sloppy mode, where the assignments [= undefined] of a
    settlement are dropped.  After one [then] and a [resolve(1)] promise 0 is
    fulfilled and both lists still hold their one reaction, in either
    file. *)
Theorem reaction_lists_survive_settlement :
  let d := Part000Spec.with_capability Part000Spec.initial in
  let s1 := snd (Part000.Promise_then (VPromise 0) (VFunction 1) VUndefined d) in
  let s2 := snd (Part000.resolve demo_host 0 (VNum 1) s1) in
  let dj := PromiseJsSpec.with_capability PromiseJsSpec.initial in
  let sj1 := snd (PromiseJs.Promise_then (VPromise 0) (VFunction 1) VUndefined
                    dj) in
  let sj2 := snd (PromiseJs.resolve_Function demo_host 0 (VNum 1) sj1) in
  (state_of s2 0 = FULFILLED
   /\ fulfillReactions_of s2 0 = fulfillReactions_of s1 0
   /\ rejectReactions_of s2 0 = rejectReactions_of s1 0
   /\ option_map (@length Reaction) (fulfillReactions_of s2 0) = Some 1
   /\ option_map (@length Reaction) (rejectReactions_of s2 0) = Some 1)
  /\ (state_of sj2 0 = FULFILLED
      /\ fulfillReactions_of sj2 0 = fulfillReactions_of sj1 0
      /\ rejectReactions_of sj2 0 = rejectReactions_of sj1 0
      /\ option_map (@length Reaction) (fulfillReactions_of sj2 0) = Some 1
      /\ option_map (@length Reaction) (rejectReactions_of sj2 0) = Some 1).
Proof. vm_compute. repeat split. Qed.

(** Claim C10 ([Promise.resolve(v)] returns a promise already fulfilled with
    [v] when [v] is null, a primitive or an object or function without a
    callable [then], and a promise still pending when [v] is a thenable):
    src/promise.js does not keep it.  [Promise.resolve(null)] throws the
    TypeError of reading [null.then] and returns no promise; and for a
    function that carries a callable [then] the returned promise is already
    fulfilled with the function itself, because [isObject] is false of a
    function.  In src/unnamed/part_000 the claim holds, see
    [Part000Facts.Promise_resolve_plain_p0] and
    [Part000Facts.Promise_resolve_thenable_p0]. *)
Theorem promise_js_static_resolve_null_throws :
  let out := PromiseJs.Promise_resolve demo_host VNull PromiseJsSpec.initial in
  let outf := PromiseJs.Promise_resolve demo_host (VFunction 7)
                PromiseJsSpec.initial in
  (fst out = Thrown (VTypeError "Cannot read property 'then' of null")
   /\ state_of (snd out) 0 = PENDING)
  /\ (thenable demo_host (VFunction 7) = true
      /\ fst outf = Returned (VPromise 0)
      /\ state_of (snd outf) 0 = FULFILLED
      /\ result_of (snd outf) 0 = Some (VFunction 7)).
Proof. vm_compute. repeat split. Qed.

(** The inputs of the four theorems above, run on src/unnamed/part_000: the
    promise stays fulfilled with 1 both times, [resolve(null)] fulfills it
    with [null], and the throwing getter rejects it with 'boom'. *)
Example part_000_same_inputs :
  let d := Part000Spec.with_capability Part000Spec.initial in
  let s1 := snd (Part000.call demo_host (VNative (ResolveFn 0)) VUndefined
                   [VNum 1] d) in
  let s2 := snd (Part000.call demo_host (VNative (RejectFn 0)) VUndefined
                   [VNum 2] s1) in
  let late := Part000.Promise demo_host true (VFunction 2) Part000Spec.initial in
  let null := Part000.call demo_host (VNative (ResolveFn 0)) VUndefined
                [VNull] d in
  let boom := Part000.call demo_host (VNative (ResolveFn 0)) VUndefined
                [VObject 1] d in
  (state_of s2 0 = FULFILLED /\ result_of s2 0 = Some (VNum 1))
  /\ (state_of (snd late) 0 = FULFILLED
      /\ result_of (snd late) 0 = Some (VNum 1))
  /\ (fst null = Returned VUndefined /\ state_of (snd null) 0 = FULFILLED
      /\ result_of (snd null) 0 = Some VNull)
  /\ (fst boom = Returned VUndefined /\ state_of (snd boom) 0 = REJECTED
      /\ result_of (snd boom) 0 = Some (VStr "boom")).
Proof. vm_compute. repeat split. Qed.

(** Claim C5 (a reaction job without handler hands its argument on to the
    downstream resolve or reject; with a handler it calls the downstream
    resolve with what the handler returns and the downstream reject with what
    it throws, so that a rejection handler that returns normally turns the
    chain back to fulfilled): src/promise.js does not keep it.
    [PromiseReactionJob] calls the downstream resolve inside the [try] that
    guards the handler.  For the rejection handler [e => null] the handler
    returns normally and the downstream resolve is called with null; that
    resolve throws on null (the defect of claim C3), the [catch] written for
    the handler hands the TypeError to the downstream reject, and the chain
    ends rejected.  In src/unnamed/part_000 the claim holds, see
    [Part000Facts.reaction_job_p0]; the same job there leaves the downstream
    promise fulfilled with null. *)
Theorem promise_js_returning_handler_rejects :
  let error := VTypeError "Cannot read property 'then' of null" in
  let called f v :=
    {| callee := f; receiver := VUndefined; arguments := [v] |} in
  let dj := PromiseJsSpec.with_capability PromiseJsSpec.initial in
  let Rj := {| capability := PromiseJsSpec.new_capability PromiseJsSpec.initial;
               type := Reject; handler := VFunction 3 |} in
  let outj := PromiseJs.PromiseReactionJob demo_host Rj (VStr "x") dj in
  let d := Part000Spec.with_capability Part000Spec.initial in
  let R := {| capability := Part000Spec.new_capability Part000Spec.initial;
              type := Reject; handler := VFunction 3 |} in
  let out := Part000.promiseReactionJob demo_host R (VStr "x") d in
  (PromiseJs.NewPromiseCapability PromiseJsSpec.initial
   = (Returned (capability Rj), dj)
   /\ state_of dj 0 = PENDING
   /\ body demo_host 3 VUndefined [VStr "x"] = Ret (Returned VNull))
  /\ (fst outj = Returned VUndefined
      /\ calls (snd outj)
         = [called (VFunction 3) (VStr "x");
            called (VNative (ResolveFn 0)) VNull;
            called (VNative (RejectFn 1)) error]
      /\ state_of (snd outj) 0 = REJECTED
      /\ result_of (snd outj) 0 = Some error)
  /\ (Part000.newPromiseCapability Part000Spec.initial
      = (Returned (capability R), d)
      /\ fst out = Returned VUndefined
      /\ map callee (calls (snd out)) = [VFunction 3; VNative (ResolveFn 0)]
      /\ state_of (snd out) 0 = FULFILLED
      /\ result_of (snd out) 0 = Some VNull).
Proof. vm_compute. repeat split. Qed.



(** A run of the two files on [f.then(v => v); f.then(e => null);
    resolve(5)] followed by two turns of the host loop: the promise is
    fulfilled by the call, and the functions called are the resolving
    function, the first handler, the resolve of its downstream pair, the
    second handler and the resolve of its downstream pair (which, in
    src/promise.js, throws on null into the reject of that pair). *)
Example two_handlers_run :
  let s2 :=
    snd (Part000.Promise_then (VPromise 0) (VFunction 3) VUndefined
      (snd (Part000.Promise_then (VPromise 0) (VFunction 1) VUndefined
         (Part000Spec.with_capability Part000Spec.initial)))) in
  let s3 := Part000.perform demo_host
              (Part000.Call (VNative (ResolveFn 0)) VUndefined [VNum 5]) s2 in
  let s4 := Part000.perform demo_host (Part000.Turn 2) s3 in
  let sj2 :=
    snd (PromiseJs.Promise_then (VPromise 0) (VFunction 3) VUndefined
      (snd (PromiseJs.Promise_then (VPromise 0) (VFunction 1) VUndefined
         (PromiseJsSpec.with_capability PromiseJsSpec.initial)))) in
  let sj3 := PromiseJs.perform demo_host
               (PromiseJs.Call (VNative (ResolveFn 0)) VUndefined [VNum 5])
               sj2 in
  let sj4 := PromiseJs.perform demo_host (PromiseJs.Turn 2) sj3 in
  (state_of s2 0 = PENDING /\ state_of s3 0 = FULFILLED
   /\ calls s3 = calls s2 ++ [{| callee := VNative (ResolveFn 0);
                                 receiver := VUndefined;
                                 arguments := [VNum 5] |}]
   /\ map callee (calls s4)
      = [VNative (ResolveFn 0); VFunction 1; VNative (ResolveFn 1);
         VFunction 3; VNative (ResolveFn 2)])
  /\ (state_of sj2 0 = PENDING /\ state_of sj3 0 = FULFILLED
      /\ calls sj3 = calls sj2 ++ [{| callee := VNative (ResolveFn 0);
                                      receiver := VUndefined;
                                      arguments := [VNum 5] |}]
      /\ map callee (calls sj4)
         = [VNative (ResolveFn 0); VFunction 1; VNative (ResolveFn 2);
            VFunction 3; VNative (ResolveFn 4); VNative (RejectFn 5)]).
Proof. vm_compute. repeat split; reflexivity. Qed.

(** Claim C7 (self-resolution), in both files.  The first call of a pair's
    resolve with the pair's own pending promise returns normally and leaves
    the promise rejected with the TypeError 'resolution === promise'; all it
    schedules are the jobs of the reject reactions registered so far.  In
    src/unnamed/part_000 the promise then stays rejected with that error in
    every later heap. *)
Theorem self_resolution_rejects (H : Host) (c p : nat) (s : Part000.St)
    (cj pj : nat) (sj : PromiseJs.St) :
  well_formed s -> p < next_promise s ->
  Part000.promise_var (closures s c) = p ->
  Part000.alreadySettled (closures s c) = false ->
  state_of s p = PENDING ->
  closures sj cj = {| PromiseJs.Promise_var := Some pj;
                      PromiseJs.AlreadyResolved_var := Some false |} ->
  is_promise_object (heap sj pj) = true ->
  let error := VTypeError "resolution === promise" in
  let out := Part000.resolve H c (VPromise p) s in
  let outj := PromiseJs.resolve_Function H cj (VPromise pj) sj in
  (fst out = Returned VUndefined
   /\ state_of (snd out) p = REJECTED
   /\ result_of (snd out) p = Some error
   /\ (exists l, rejectReactions_of s p = Some l
        /\ queue (snd out)
           = queue s ++ map (fun r => ReactionJob r error) l)
   /\ forall s', Part000.later H (snd out) s' ->
        state_of s' p = REJECTED /\ result_of s' p = Some error)
  /\ (fst outj = Returned VUndefined
      /\ state_of (snd outj) pj = REJECTED
      /\ result_of (snd outj) pj = Some error
      /\ exists l, rejectReactions_of sj pj = Some l
           /\ queue (snd outj)
              = queue sj ++ map (fun r => ReactionJob r error) l).
Proof.
  intros Hs Hlt Hc Hf Hp Hcj Hoj error out outj. split.
  - pose proof (@Part000Facts.resolve_self_p0 H c s) as K. cbv zeta in K.
    rewrite Hc in K.
    destruct (K Hf Hp (Hs p)) as (l & s1 & Hl & E & F1 & F2 & F3). clear K.
    destruct (Part000Facts.resolve_ok H c (VPromise p) Hs) as [W [G _]].
    fold out in W, G, E.
    assert (E1 : fst out = Returned VUndefined) by now rewrite E.
    assert (E2 : snd out = s1) by now rewrite E.
    rewrite E2 in *.
    split; [exact E1 |]. split; [exact F1 |]. split; [exact F2 |].
    split; [exists l; split; assumption |].
    intros s' Hl'.
    destruct (Part000Facts.later_ok Hl' W) as [_ [_ [[_ Hk] _]]].
    destruct (Hk p) as [Q1 Q2].
    + pose proof (grows_promises G); lia.
    + rewrite F1. discriminate.
    + rewrite Q1, Q2, F1, F2. split; reflexivity.
  - destruct (@PromiseJsFacts.resolve_self_js H cj pj sj Hcj Hoj)
      as (l & Hl & E & F1 & F2 & F3).
    repeat split; try assumption. exists l. split; assumption.
Qed.

Lemma self_resolution_rejects_witness :
  state_of (snd (Part000.resolve demo_host 0 (VPromise 0)
                   (Part000Spec.with_capability Part000Spec.initial))) 0
  = REJECTED
  /\ state_of (snd (PromiseJs.resolve_Function demo_host 0 (VPromise 0)
                      (PromiseJsSpec.with_capability PromiseJsSpec.initial))) 0
     = REJECTED.
Proof.
  destruct (@self_resolution_rejects demo_host 0 0
              (Part000Spec.with_capability Part000Spec.initial) 0 0
              (PromiseJsSpec.with_capability PromiseJsSpec.initial))
    as ((_ & A & _) & (_ & B & _)).
  - intros q. destruct q; reflexivity.
  - cbn. lia.
  - reflexivity.
  - reflexivity.
  - reflexivity.
  - reflexivity.
  - reflexivity.
  - exact (conj A B).
Defined.

(** Claim C9 (called without [new], or with an executor that is not
    callable, the constructor throws a TypeError and makes no promise):
    neither file keeps it for every executor.  Both build the second
    TypeError from the template literal [`Promise resolver ${executor} is not
    a function`], which converts the executor to a string before the error
    exists.  A primitive has its text.  An object is converted by its own
    [toString], and what that throws leaves the constructor in place of the
    TypeError: [new Promise({ toString () { throw 'boom' } })] throws 'boom'.
    The rest of the claim holds in both files: without [new] the TypeError
    'undefined is not a promise' is thrown whatever the executor; with an
    executor that is not callable the constructor throws, the TypeError
    whenever the conversion returns; and in all these cases the heap is left
    as it was, so that no promise object and no resolving function has been
    made. *)
Theorem constructor_guards (H : Host) (executor : value) (s : Part000.St)
    (sj : PromiseJs.St) :
  isCallable executor = false ->
  let thrown :=
    match ToString H executor with
    | Returned text =>
        VTypeError (String.append "Promise resolver "
                      (String.append text " is not a function"))
    | Thrown e => e
    end in
  (forall e, Part000.Promise H false e s
             = (Thrown (VTypeError "undefined is not a promise"), s))
  /\ Part000.Promise H true executor s = (Thrown thrown, s)
  /\ (forall e, PromiseJs.Promise H false e sj
                = (Thrown (VTypeError "undefined is not a promise"), sj))
  /\ PromiseJs.Promise H true executor sj = (Thrown thrown, sj).
Proof.
  intros Hc thrown.
  destruct (Part000Facts.Promise_guards H executor s) as [_ A].
  destruct (PromiseJsFacts.Promise_guards_js H executor sj) as [_ B].
  specialize (A Hc). specialize (B Hc). subst thrown.
  split; [intros e; apply Part000Facts.Promise_guards |].
  split; [rewrite A; now destruct (ToString H executor) |].
  split; [intros e; apply PromiseJsFacts.Promise_guards_js |].
  rewrite B; now destruct (ToString H executor).
Qed.

Lemma constructor_guards_witness :
  (Part000.Promise demo_host true (VObject 2) Part000Spec.initial
   = (Thrown (VStr "boom"), Part000Spec.initial)
   /\ PromiseJs.Promise demo_host true (VObject 2) PromiseJsSpec.initial
      = (Thrown (VStr "boom"), PromiseJsSpec.initial))
  /\ (Part000.Promise demo_host true (VNum 42) Part000Spec.initial
      = (Thrown (VTypeError "Promise resolver 42 is not a function"),
         Part000Spec.initial)
      /\ PromiseJs.Promise demo_host true (VNum 42) PromiseJsSpec.initial
         = (Thrown (VTypeError "Promise resolver 42 is not a function"),
            PromiseJsSpec.initial))
  /\ Part000.Promise demo_host true (VNum (10 ^ 21)) Part000Spec.initial
     = (Thrown (VTypeError "Promise resolver 1e+21 is not a function"),
        Part000Spec.initial)
  /\ Part000.Promise demo_host true (VObject 3) Part000Spec.initial
     = (Thrown (VTypeError "Promise resolver 1,2 is not a function"),
        Part000Spec.initial)
  /\ Part000.Promise demo_host true (VTypeError EmptyString)
       Part000Spec.initial
     = (Thrown (VTypeError "Promise resolver TypeError is not a function"),
        Part000Spec.initial).
Proof.
  destruct (@constructor_guards demo_host (VObject 2) Part000Spec.initial
              PromiseJsSpec.initial eq_refl) as (_ & A & _ & B).
  destruct (@constructor_guards demo_host (VNum 42) Part000Spec.initial
              PromiseJsSpec.initial eq_refl) as (_ & C & _ & D).
  destruct (@constructor_guards demo_host (VNum (10 ^ 21)) Part000Spec.initial
              PromiseJsSpec.initial eq_refl) as (_ & E & _).
  destruct (@constructor_guards demo_host (VObject 3) Part000Spec.initial
              PromiseJsSpec.initial eq_refl) as (_ & F & _).
  destruct (@constructor_guards demo_host (VTypeError EmptyString)
              Part000Spec.initial PromiseJsSpec.initial eq_refl)
    as (_ & G & _).
  repeat split; assumption.
Defined.

(** * More facts about src/unnamed/part_000 *)
Module Part000More.
Import Part000 Part000Spec Part000Facts.

Lemma settle_frame (s : St) p st v l :
  let s' := with_queue (queue s ++ map (fun r => ReactionJob r v) l)
              (settled p st v s) in
  (forall q, q <> p -> heap s' q = heap s q) /\ closures s' = closures s
  /\ next_promise s' = next_promise s /\ next_closure s' = next_closure s
  /\ calls s' = calls s /\ ran s' = ran s /\ console s' = console s.
Proof.
  cbv zeta. split; [| repeat split].
  intros q Hq. cbn [heap with_queue]. now apply settled_other.
Qed.


Lemma with_capability_other (s : St) p :
  p < next_promise s -> heap (with_capability s) p = heap s p.
Proof. intros Hp. cbn. apply override_other. lia. Qed.

Lemma with_capability_new (s : St) :
  heap (with_capability s) (next_promise s) = created_promise
  /\ closures (with_capability s) (next_closure s)
     = {| promise_var := next_promise s; alreadySettled := false |}
  /\ (forall c, c <> next_closure s ->
        closures (with_capability s) c = closures s c)
  /\ queue (with_capability s) = queue s
  /\ next_promise (with_capability s) = S (next_promise s)
  /\ next_closure (with_capability s) = S (next_closure s).
Proof.
  cbn. rewrite !override_same. repeat split.
  intros c Hc. now apply override_other.
Qed.

(** [then] on a settled promise, as one equation. *)
Lemma Promise_then_settled_eq p h j (s : St) :
  state_of s p <> PENDING -> p < next_promise s ->
  Promise_then (VPromise p) h j s
  = (Returned (VPromise (next_promise s)),
     update p (set_PromiseIsHandled_own true)
       (with_queue
          (queue s ++
           [ReactionJob
              {| capability := new_capability s;
                 type := match state_of s p with
                         | REJECTED => Reject | _ => Fulfill end;
                 handler := coerce (match state_of s p with
                                    | REJECTED => j | _ => h end) |}
              (read (result_of s p))])
          (with_capability s))).
Proof.
  intros Hp Hlt.
  unfold Promise_then. cbn [isPromise instanceof_Promise negb].
  unfold bind at 1. rewrite newPromiseCapability_effect.
  fold (with_capability s). fold (new_capability s).
  pose proof (with_capability_other s Hlt) as Hh.
  unfold performPromiseThen. fold (coerce h). fold (coerce j).
  unfold setImmediate, bind, gets, modify, ret.
  unfold state_of, result_of in *. rewrite Hh.
  destruct (prop_value (PromiseState (heap s p))); [contradiction | |];
    cbv beta; rewrite ?Hh; reflexivity.
Qed.


Lemma call_ResolveFn H c this v (s : St) :
  call H (VNative (ResolveFn c)) this [v] s
  = resolve H c v
      (with_calls (calls s ++ [{| callee := VNative (ResolveFn c);
                                  receiver := this; arguments := [v] |}]) s).
Proof. reflexivity. Qed.

Lemma call_RejectFn H c this v (s : St) :
  call H (VNative (RejectFn c)) this [v] s
  = reject c v
      (with_calls (calls s ++ [{| callee := VNative (RejectFn c);
                                  receiver := this; arguments := [v] |}]) s).
Proof. reflexivity. Qed.

Lemma call_function H f this args (s : St) :
  call H (VFunction f) this args s
  = exec H (body H f this args)
      (with_calls (calls s ++ [{| callee := VFunction f;
                                  receiver := this; arguments := args |}]) s).
Proof. reflexivity. Qed.

Lemma reject_eq c v (s : St) :
  let p := promise_var (closures s c) in
  alreadySettled (closures s c) = false ->
  state_of s p = PENDING -> is_promise_object (heap s p) = true ->
  exists l, rejectReactions_of s p = Some l
    /\ reject c v s = (Returned VUndefined, settled_by c p REJECTED v l s).
Proof.
  intros p Hc Hp Ho.
  set (s0 := update_closure c (set_alreadySettled true) s).
  assert (Hp0 : state_of s0 p = PENDING) by exact Hp.
  assert (Ho0 : is_promise_object (heap s0 p) = true) by exact Ho.
  destruct (rejectPromise_effect s0 p v Hp0 Ho0) as (l & Hl & Hf).
  exists l. split; [exact Hl |].
  rewrite reject_fresh by exact Hc. exact Hf.
Qed.

Lemma resolve_plain_eq H c v (s : St) :
  let p := promise_var (closures s c) in
  alreadySettled (closures s c) = false ->
  state_of s p = PENDING -> is_promise_object (heap s p) = true ->
  plain_value H v = true ->
  exists l, fulfillReactions_of s p = Some l
    /\ resolve H c v s = (Returned VUndefined, settled_by c p FULFILLED v l s).
Proof.
  intros p Hc Hp Ho Hv.
  set (s0 := update_closure c (set_alreadySettled true) s).
  assert (Hp0 : state_of s0 p = PENDING) by exact Hp.
  assert (Ho0 : is_promise_object (heap s0 p) = true) by exact Ho.
  destruct (fulfillPromise_effect s0 p v Hp0 Ho0) as (l & Hl & Hf).
  exists l. split; [exact Hl |].
  rewrite resolve_fresh by exact Hc. fold p. fold s0. cbv zeta.
  rewrite (plain_value_not_promise H v p Hv).
  unfold try_catch, bind, lift.
  destruct v; cbn in Hv |- *; try discriminate Hv; try exact Hf;
    match goal with
    | |- context [object_then H ?o] => destruct (object_then H o)
    | |- context [function_then H ?f] => destruct (function_then H f)
    | _ => idtac
    end; try discriminate Hv; cbn; try rewrite Hv; try rewrite Hf;
    try reflexivity.
Qed.

Lemma settled_by_facts c p st v l (s : St) :
  is_promise_object (heap s p) = true ->
  let s' := settled_by c p st v l s in
  state_of s' p = st /\ result_of s' p = Some v
  /\ queue s' = queue s ++ map (fun r => ReactionJob r v) l
  /\ (forall q, q <> p -> heap s' q = heap s q)
  /\ closures s' = override (closures s) c (set_alreadySettled true (closures s c))
  /\ calls s' = calls s /\ ran s' = ran s
  /\ next_promise s' = next_promise s /\ next_closure s' = next_closure s
  /\ console s' = console s.
Proof.
  intros Ho. cbv zeta. unfold settled_by.
  set (s0 := update_closure c (set_alreadySettled true) s).
  assert (Ho0 : is_promise_object (heap s0 p) = true) by exact Ho.
  destruct (settled_facts s0 p st v Ho0) as (F1 & F2 & _ & _ & F5 & F6 & _).
  repeat split; try assumption.
  intros q Hq. cbn [heap with_queue]. now rewrite settled_other.
Qed.


Lemma Promise_reject_eq H r (s : St) :
  Promise_reject H r s
  = (Returned (VPromise (next_promise s)),
     settled_by (next_closure s) (next_promise s) REJECTED r []
       (capability_made (RejectFn (next_closure s))
          (capability_object (new_capability s)) [r] s)).
Proof.
  unfold Promise_reject. unfold bind at 1.
  rewrite newPromiseCapability_effect.
  cbn [cap_reject cap_promise cap_resolve].
  unfold bind at 1. rewrite call_RejectFn.
  fold (new_capability s).
  match goal with
  | |- context [reject _ _ ?s1] =>
      change s1 with (capability_made (RejectFn (next_closure s))
                        (capability_object (new_capability s)) [r] s)
  end.
  destruct (capability_made_facts (RejectFn (next_closure s))
              (capability_object (new_capability s)) [r] s) as (Hc & Hh & Hq).
  set (s1 := capability_made _ _ _ s) in *.
  destruct (@reject_eq (next_closure s) r s1) as (l & Hl & E).
  - now rewrite Hc.
  - rewrite Hc. unfold state_of. cbn [promise_var]. now rewrite Hh.
  - rewrite Hc. cbn [promise_var]. now rewrite Hh.
  - rewrite Hc in Hl, E. cbn [promise_var] in Hl, E.
    unfold rejectReactions_of in Hl. rewrite Hh in Hl. injection Hl as <-.
    rewrite E. reflexivity.
Qed.

Lemma with_capability_well_formed (s : St) :
  well_formed s -> well_formed (with_capability s).
Proof.
  intros Hs p. cbn. unfold override.
  destruct (Nat.eqb p (next_promise s)); [reflexivity | apply Hs].
Qed.

(** The constructor behind its guards: the executor runs on the heap with
    the new promise and pair, and a throw goes to the pair's reject. *)
Lemma Promise_unfold H executor (s : St) :
  isCallable executor = true ->
  Promise H true executor s
  = match call H executor VUndefined
            [VNative (ResolveFn (next_closure s));
             VNative (RejectFn (next_closure s))] (with_capability s) with
    | (Returned _, s1) => (Returned (VPromise (next_promise s)), s1)
    | (Thrown e, s1) =>
        match reject (next_closure s) e s1 with
        | (Returned _, s2) => (Returned (VPromise (next_promise s)), s2)
        | (Thrown e', s2) => (Thrown e', s2)
        end
    end.
Proof.
  intros Hc. unfold Promise. cbn [negb]. rewrite Hc. cbn [negb].
  unfold bind at 1. unfold Promise_body. unfold bind at 1.
  unfold allocate_promise at 1. unfold bind at 1.
  unfold createResolvingFunctions, allocate_closure at 1.
  cbn [next_closure with_heap closures].
  fold (with_capability s).
  unfold bind at 1. unfold attempt.
  destruct (call H executor VUndefined _ (with_capability s)) as [[u | e] s1].
  - reflexivity.
  - unfold bind. destruct (reject (next_closure s) e s1) as [[u | e'] s2];
      reflexivity.
Qed.

Lemma call_logs_first H f this args (s : St) :
  well_formed s -> isCallable f = true ->
  well_formed (snd (call H f this args s))
  /\ extends s (snd (call H f this args s))
  /\ exists rest,
       calls (snd (call H f this args s))
       = calls s ++ {| callee := f; receiver := this; arguments := args |}
                    :: rest.
Proof.
  intros Hs Hf.
  destruct (call_ok H f this args Hs) as [W E].
  split; [exact W |]. split; [exact E |].
  exact (proj2 (call_logged H f this args Hs Hf)).
Qed.

(** What a reaction job does to the promise of its capability, by case. *)
Section DownstreamOfJob.
Variable H : Host.
Variables (c q : nat) (s : St).
Hypothesis Ho : is_promise_object (heap s q) = true.
Hypothesis Hp : state_of s q = PENDING.
Hypothesis Hc : closures s c = {| promise_var := q; alreadySettled := false |}.

(** The pair's resolve, called first on [s] with more calls logged. *)
Lemma downstream_resolve l v :
  plain_value H v = true ->
  exists lf, fulfillReactions_of s q = Some lf
    /\ resolve H c v (with_calls l s)
       = (Returned VUndefined, settled_by c q FULFILLED v lf (with_calls l s)).
Proof.
  intros Hv.
  destruct (@resolve_plain_eq H c v (with_calls l s)) as (lf & Hl & E);
    try (cbn [closures with_calls]; rewrite Hc;
         first [reflexivity | assumption]);
    try assumption.
  cbn [closures with_calls] in Hl, E.
  rewrite Hc in Hl, E. cbn [promise_var] in Hl, E.
  exists lf. split; [exact Hl | exact E].
Qed.

Lemma downstream_reject l v :
  exists lr, rejectReactions_of s q = Some lr
    /\ reject c v (with_calls l s)
       = (Returned VUndefined, settled_by c q REJECTED v lr (with_calls l s)).
Proof.
  destruct (@reject_eq c v (with_calls l s)) as (lr & Hl & E);
    try (cbn [closures with_calls]; rewrite Hc;
         first [reflexivity | assumption]).
  cbn [closures with_calls] in Hl, E.
  rewrite Hc in Hl, E. cbn [promise_var] in Hl, E.
  exists lr. split; [exact Hl | exact E].
Qed.

Variables (R : Reaction) (a : value).
Hypothesis Hcap :
  capability R = {| cap_promise := VPromise q;
                    cap_resolve := VNative (ResolveFn c);
                    cap_reject := VNative (RejectFn c) |}.

Lemma job_passes_value_on :
  truthy (handler R) = false -> type R = Fulfill -> plain_value H a = true ->
  exists lf l, fulfillReactions_of s q = Some lf
    /\ promiseReactionJob H R a s
       = (Returned VUndefined, settled_by c q FULFILLED a lf (with_calls l s)).
Proof.
  intros Hh Ht Ha.
  set (l := calls s ++ [{| callee := VNative (ResolveFn c);
                           receiver := capability_object (capability R);
                           arguments := [a] |}]).
  destruct (@downstream_resolve l a Ha) as (lf & Hl & E).
  exists lf, l. split; [exact Hl |].
  unfold promiseReactionJob. cbv zeta. rewrite Hh, Ht. cbn [negb].
  rewrite Hcap at 1. cbn [cap_resolve].
  unfold bind. rewrite call_ResolveFn. fold l.
  now rewrite E.
Qed.

Lemma job_passes_reason_on :
  truthy (handler R) = false -> type R = Reject ->
  exists lr l, rejectReactions_of s q = Some lr
    /\ promiseReactionJob H R a s
       = (Returned VUndefined, settled_by c q REJECTED a lr (with_calls l s)).
Proof.
  intros Hh Ht.
  set (l := calls s ++ [{| callee := VNative (RejectFn c);
                           receiver := capability_object (capability R);
                           arguments := [a] |}]).
  destruct (@downstream_reject l a) as (lr & Hl & E).
  exists lr, l. split; [exact Hl |].
  unfold promiseReactionJob. cbv zeta. rewrite Hh, Ht. cbn [negb].
  rewrite Hcap at 1. cbn [cap_reject].
  unfold bind. rewrite call_RejectFn. fold l.
  now rewrite E.
Qed.

Lemma job_settles_with_handler_result f w :
  handler R = VFunction f -> body H f VUndefined [a] = Ret (Returned w) ->
  plain_value H w = true ->
  exists lf l, fulfillReactions_of s q = Some lf
    /\ promiseReactionJob H R a s
       = (Returned VUndefined, settled_by c q FULFILLED w lf (with_calls l s)).
Proof.
  intros Hh Hb Hw.
  set (l0 := calls s ++ [{| callee := VFunction f; receiver := VUndefined;
                            arguments := [a] |}]).
  set (l := l0 ++ [{| callee := VNative (ResolveFn c);
                      receiver := capability_object (capability R);
                      arguments := [w] |}]).
  destruct (@downstream_resolve l w Hw) as (lf & Hl & E).
  exists lf, l. split; [exact Hl |].
  unfold promiseReactionJob. cbv zeta. rewrite Hh. cbn [truthy negb].
  unfold try_catch. unfold bind at 1. rewrite call_function. fold l0.
  rewrite Hb. cbn [exec lift].
  rewrite Hcap at 1. cbn [cap_resolve].
  unfold bind. rewrite call_ResolveFn. cbn [calls with_calls]. fold l.
  change (with_calls l (with_calls l0 s)) with (with_calls l s).
  now rewrite E.
Qed.

Lemma job_settles_with_handler_error f e :
  handler R = VFunction f -> body H f VUndefined [a] = Ret (Thrown e) ->
  exists lr l, rejectReactions_of s q = Some lr
    /\ promiseReactionJob H R a s
       = (Returned VUndefined, settled_by c q REJECTED e lr (with_calls l s)).
Proof.
  intros Hh Hb.
  set (l0 := calls s ++ [{| callee := VFunction f; receiver := VUndefined;
                            arguments := [a] |}]).
  set (l := l0 ++ [{| callee := VNative (RejectFn c);
                      receiver := capability_object (capability R);
                      arguments := [e] |}]).
  destruct (@downstream_reject l e) as (lr & Hl & E).
  exists lr, l. split; [exact Hl |].
  unfold promiseReactionJob. cbv zeta. rewrite Hh. cbn [truthy negb].
  unfold try_catch. unfold bind at 1. rewrite call_function. fold l0.
  rewrite Hb. cbn [exec lift].
  rewrite Hcap at 1. cbn [cap_reject].
  unfold bind. rewrite call_RejectFn. cbn [calls with_calls]. fold l.
  change (with_calls l (with_calls l0 s)) with (with_calls l s).
  now rewrite E.
Qed.

End DownstreamOfJob.

(** The heap on which a thenable job calls [then]: one more pair, for
    [p]. *)
Lemma promiseResolveThenableJob_unfold H p thenable then_ (s : St) :
  promiseResolveThenableJob H p thenable then_ s
  = try_catch
      (call H then_ thenable [VNative (ResolveFn (next_closure s));
                              VNative (RejectFn (next_closure s))])
      (fun error => reject (next_closure s) error)
      (with_closures
         (override (closures s) (next_closure s)
            {| promise_var := p; alreadySettled := false |})
         (S (next_closure s)) s).
Proof. reflexivity. Qed.

Lemma resolve_thenable_eq H c v t (s : St) :
  alreadySettled (closures s c) = false ->
  thenable H v = true -> get_then H v = Returned t ->
  v <> VPromise (promise_var (closures s c)) ->
  resolve H c v s
  = (Returned VUndefined,
     with_queue
       (queue s ++ [ResolveThenableJob (promise_var (closures s c)) v t])
       (update_closure c (set_alreadySettled true) s)).
Proof.
  intros Hc Hv Ht Hn.
  rewrite resolve_fresh by exact Hc. cbv zeta.
  assert (Hself : strict_equal v (VPromise (promise_var (closures s c)))
                  = false).
  { unfold strict_equal. destruct (value_eq_dec _ _); [contradiction | auto]. }
  rewrite Hself.
  assert (Hcall : isCallable t = true).
  { unfold thenable in Hv. rewrite Ht in Hv.
    destruct v; try discriminate Hv; exact Hv. }
  unfold try_catch, bind, lift, setImmediate, modify, ret.
  destruct v; cbn in Hv |- *; try discriminate Hv; cbn in Ht;
    first [ rewrite Ht, Hcall; reflexivity
          | injection Ht as <-; reflexivity ].
Qed.

(** The thenable job of a settled promise [q] of the library: [q.then] is
    called with a new pair for [p] and schedules the one job of [then] on a
    settled promise, with the functions of the pair as handlers. *)
Lemma thenable_job_of_settled H p q (s : St) :
  well_formed s -> state_of s q <> PENDING -> q < next_promise s ->
  let k := next_closure s in
  let R := {| capability := {| cap_promise := VPromise (next_promise s);
                               cap_resolve := VNative (ResolveFn (S k));
                               cap_reject := VNative (RejectFn (S k)) |};
              type := match state_of s q with
                      | REJECTED => Reject | _ => Fulfill end;
              handler := match state_of s q with
                         | REJECTED => VNative (RejectFn k)
                         | _ => VNative (ResolveFn k) end |} in
  exists sD,
    promiseResolveThenableJob H p (VPromise q) (VNative PromiseThen) s
    = (Returned (VPromise (next_promise s)), sD)
    /\ well_formed sD
    /\ queue sD = queue s ++ [ReactionJob R (read (result_of s q))]
    /\ closures sD k = {| promise_var := p; alreadySettled := false |}
    /\ (forall x, x <> q -> x < next_promise s -> heap sD x = heap s x)
    /\ next_promise s <= next_promise sD
    /\ ran sD = ran s.
Proof.
  intros Hs Hq Hlt. cbv zeta.
  destruct (promiseResolveThenableJob_ok H p (VPromise q) (VNative PromiseThen)
              Hs) as (W & _).
  set (k := next_closure s) in *.
  set (sA := with_closures
               (override (closures s) k
                  {| promise_var := p; alreadySettled := false |}) (S k) s).
  set (sC := with_calls
               (calls sA ++
                [{| callee := VNative PromiseThen; receiver := VPromise q;
                    arguments := [VNative (ResolveFn k);
                                  VNative (RejectFn k)] |}]) sA).
  assert (HqC : state_of sC q <> PENDING) by exact Hq.
  assert (HltC : q < next_promise sC) by exact Hlt.
  pose proof (@Promise_then_settled_eq q (VNative (ResolveFn k))
                (VNative (RejectFn k)) sC HqC HltC) as E.
  assert (U : promiseResolveThenableJob H p (VPromise q) (VNative PromiseThen) s
              = try_catch
                  (Promise_then (VPromise q) (VNative (ResolveFn k))
                     (VNative (RejectFn k)))
                  (fun error => reject k error) sC) by reflexivity.
  rewrite U in W |- *. unfold try_catch in W |- *. rewrite E in W |- *.
  cbn [snd] in W.
  eexists. split; [reflexivity |]. split; [exact W |].
  split.
  { cbn [queue update with_heap with_queue].
    change (state_of sC q) with (state_of s q).
    change (result_of sC q) with (result_of s q).
    unfold new_capability. change (next_promise sC) with (next_promise s).
    change (next_closure sC) with (S k).
    destruct (state_of s q); reflexivity. }
  split.
  { cbn [closures update with_heap with_queue with_capability with_closures].
    rewrite override_other by (cbn; lia). cbn. apply override_same. }
  split.
  { intros x Hx Hxl. rewrite heap_update_other by exact Hx.
    cbn [heap with_queue]. rewrite with_capability_other by exact Hxl.
    reflexivity. }
  split; [cbn; lia | reflexivity].
Qed.

(** A reaction job whose handler is a function of a pair that has not been
    used, for a pending promise [p]. *)
Lemma job_with_pair_handler H (R : Reaction) a k k' p (s : St) :
  well_formed s -> state_of s p = PENDING -> p < next_promise s ->
  closures s k = {| promise_var := p; alreadySettled := false |} ->
  cap_resolve (capability R) = VNative (ResolveFn k') ->
  (handler R = VNative (ResolveFn k) -> plain_value H a = true ->
   state_of (snd (promiseReactionJob H R a s)) p = FULFILLED
   /\ result_of (snd (promiseReactionJob H R a s)) p = Some a)
  /\ (handler R = VNative (RejectFn k) ->
      state_of (snd (promiseReactionJob H R a s)) p = REJECTED
      /\ result_of (snd (promiseReactionJob H R a s)) p = Some a).
Proof.
  intros Hs Hp Hlt Hc Hcap. split.
  - intros Hf Ha.
    set (l := calls s ++ [{| callee := VNative (ResolveFn k);
                             receiver := VUndefined; arguments := [a] |}]).
    destruct (@downstream_resolve H k p s (Hs p) Hp Hc l a Ha)
      as (lf & _ & E).
    set (sX := settled_by k p FULFILLED a lf (with_calls l s)) in *.
    assert (WX : well_formed sX).
    { assert (W0 : well_formed (with_calls l s)) by exact Hs.
      pose proof (resolve_ok H k a W0) as (W & _). now rewrite E in W. }
    destruct (@settled_by_facts k p FULFILLED a lf (with_calls l s) (Hs p))
      as (F1 & F2 & _ & _ & _ & _ & _ & F8 & _). fold sX in F1, F2, F8.
    destruct (@call_resolve_returns H k' (capability_object (capability R))
                VUndefined sX WX) as (sY & EY).
    destruct (call_ok H (VNative (ResolveFn k'))
                (capability_object (capability R)) [VUndefined] WX)
      as (_ & _ & K & _).
    rewrite EY in K. cbn [snd] in K.
    destruct (keeps_settled K (p := p)) as [K1 K2];
      [rewrite F8; exact Hlt | rewrite F1; discriminate |].
    assert (EJ : promiseReactionJob H R a s = (Returned VUndefined, sY)).
    { unfold promiseReactionJob. cbv zeta. rewrite Hf. cbn [truthy negb].
      unfold try_catch. unfold bind at 1. rewrite call_ResolveFn. fold l.
      rewrite E. rewrite Hcap. unfold bind. rewrite EY. reflexivity. }
    rewrite EJ. cbn [snd]. split; congruence.
  - intros Hr.
    set (l := calls s ++ [{| callee := VNative (RejectFn k);
                             receiver := VUndefined; arguments := [a] |}]).
    destruct (@downstream_reject k p s (Hs p) Hp Hc l a) as (lr & _ & E).
    set (sX := settled_by k p REJECTED a lr (with_calls l s)) in *.
    assert (WX : well_formed sX).
    { assert (W0 : well_formed (with_calls l s)) by exact Hs.
      pose proof (reject_ok k a W0) as (W & _). now rewrite E in W. }
    destruct (@settled_by_facts k p REJECTED a lr (with_calls l s) (Hs p))
      as (F1 & F2 & _ & _ & _ & _ & _ & F8 & _). fold sX in F1, F2, F8.
    destruct (@call_resolve_returns H k' (capability_object (capability R))
                VUndefined sX WX) as (sY & EY).
    destruct (call_ok H (VNative (ResolveFn k'))
                (capability_object (capability R)) [VUndefined] WX)
      as (_ & _ & K & _).
    rewrite EY in K. cbn [snd] in K.
    destruct (keeps_settled K (p := p)) as [K1 K2];
      [rewrite F8; exact Hlt | rewrite F1; discriminate |].
    assert (EJ : promiseReactionJob H R a s = (Returned VUndefined, sY)).
    { unfold promiseReactionJob. cbv zeta. rewrite Hr. cbn [truthy negb].
      unfold try_catch. unfold bind at 1. rewrite call_RejectFn. fold l.
      rewrite E. rewrite Hcap. unfold bind. rewrite EY. reflexivity. }
    rewrite EJ. cbn [snd]. split; congruence.
Qed.

(** [then] on a pending promise, read off [Promise_then_pending]. *)
Lemma then_pending_effect (p : nat) (h j : value) (s : St)
    (lf lr : list Reaction) :
  is_promise_object (heap s p) = true -> p < next_promise s ->
  state_of s p = PENDING ->
  fulfillReactions_of s p = Some lf -> rejectReactions_of s p = Some lr ->
  let cap := new_capability s in
  let s' := snd (Promise_then (VPromise p) h j s) in
  fst (Promise_then (VPromise p) h j s)
  = Returned (VPromise (next_promise s))
  /\ fulfillReactions_of s' p
     = Some (lf ++ [{| capability := cap; type := Fulfill;
                       handler := coerce h |}])
  /\ rejectReactions_of s' p
     = Some (lr ++ [{| capability := cap; type := Reject;
                       handler := coerce j |}])
  /\ state_of s' p = PENDING /\ result_of s' p = result_of s p
  /\ queue s' = queue s
  /\ heap s' (next_promise s) = created_promise
  /\ closures s' (next_closure s)
     = {| promise_var := next_promise s; alreadySettled := false |}
  /\ PromiseIsHandled_own (heap s' p) = Some true
  /\ PromiseIsHandled (heap s' p) = PromiseIsHandled (heap s p)
  /\ (forall q, q < next_promise s -> q <> p -> heap s' q = heap s q)
  /\ (forall k, k <> next_closure s -> closures s' k = closures s k).
Proof.
  intros Ho Hlt Hp Hlf Hlr. cbv zeta.
  rewrite Promise_then_pending by assumption. cbn [fst snd].
  pose proof (with_capability_other s Hlt) as Hh.
  assert (Hn : next_promise s <> p) by lia.
  unfold fulfillReactions_of, rejectReactions_of, state_of, result_of in *.
  rewrite !heap_update_same.
  rewrite !heap_update_other by exact Hn.
  cbn [set_PromiseIsHandled_own push_reject push_fulfill
       PromiseFulfillReactions PromiseRejectReactions PromiseState prop_value
       PromiseResult PromiseIsHandled_own PromiseIsHandled].
  rewrite Hh, Hlf, Hlr, Hp.
  destruct (with_capability_new s) as (N1 & N2 & N3 & N4 & _).
  repeat split; try reflexivity; try assumption.
  intros q Hq Hqp. rewrite !heap_update_other by exact Hqp.
  now apply with_capability_other.
Qed.

(** One handler on a pending promise with nothing else registered or
    scheduled, then the settlement through the promise's pair, then one turn
    of the host loop. *)
Section Chain.
Variable H : Host.
Variables (c p : nat) (h j : value) (s : St).
Hypothesis Hs : well_formed s.
Hypothesis Hq : queue s = [].
Hypothesis Hc : closures s c = {| promise_var := p; alreadySettled := false |}.
Hypothesis Hcl : c < next_closure s.
Hypothesis Hpl : p < next_promise s.
Hypothesis Hp : state_of s p = PENDING.
Hypothesis Hlf : fulfillReactions_of s p = Some [].
Hypothesis Hlr : rejectReactions_of s p = Some [].

Let n := next_promise s.
Let k := next_closure s.
Let s1 := snd (Promise_then (VPromise p) h j s).
Let Rf := {| capability := new_capability s; type := Fulfill;
             handler := coerce h |}.
Let Rr := {| capability := new_capability s; type := Reject;
             handler := coerce j |}.

Lemma chain_after_then :
  well_formed s1 /\ closures s1 c = closures s c /\ state_of s1 p = PENDING
  /\ fulfillReactions_of s1 p = Some [Rf] /\ rejectReactions_of s1 p = Some [Rr]
  /\ queue s1 = []
  /\ heap s1 n = created_promise
  /\ closures s1 k = {| promise_var := n; alreadySettled := false |}.
Proof.
  destruct (Promise_then_ok (VPromise p) h j Hs) as (W & _).
  destruct (@then_pending_effect p h j s [] [] (Hs p) Hpl Hp Hlf Hlr)
    as (_ & A2 & A3 & A4 & _ & A6 & A7 & A8 & _ & _ & _ & A12).
  split; [exact W |]. split; [apply A12; unfold k; lia |].
  split; [exact A4 |]. split; [exact A2 |]. split; [exact A3 |].
  split; [unfold s1; now rewrite A6 |]. split; [exact A7 | exact A8].
Qed.

(** The heap on which the one job runs. *)
Lemma chain_job_heap st v R :
  let s2 := settled_by c p st v [R] s1 in
  let sT := take_job (ReactionJob R v) [] s2 in
  queue s2 = [ReactionJob R v]
  /\ is_promise_object (heap sT n) = true /\ state_of sT n = PENDING
  /\ closures sT k = {| promise_var := n; alreadySettled := false |}.
Proof.
  destruct chain_after_then as (W & C1 & P1 & _ & _ & Q1 & N1 & K1).
  cbv zeta.
  destruct (@settled_by_facts c p st v [R] s1 (W p))
    as (_ & _ & F3 & F4 & F5 & _).
  assert (Hnp : n <> p) by (unfold n; lia).
  assert (Hkc : k <> c) by (unfold k; lia).
  split; [rewrite F3, Q1; reflexivity |].
  cbn [heap closures take_job]. unfold state_of. cbn [heap take_job].
  rewrite (F4 n Hnp), N1, F5.
  rewrite override_other by exact Hkc.
  repeat split. exact K1.
Qed.

Lemma chain_fulfilled v :
  plain_value H v = true ->
  let s2 := settled_by c p FULFILLED v [Rf] s1 in
  resolve H c v s1 = (Returned VUndefined, s2)
  /\ run_jobs H 1 s2
     = snd (promiseReactionJob H Rf v (take_job (ReactionJob Rf v) [] s2)).
Proof.
  intros Hv. cbv zeta.
  destruct chain_after_then as (W & C1 & P1 & L1 & _).
  destruct (@resolve_plain_eq H c v s1) as (l & Hl & E);
    try (rewrite C1, Hc; first [reflexivity | assumption | apply W]);
    try assumption.
  rewrite C1, Hc in Hl, E. cbn [promise_var] in Hl, E.
  rewrite L1 in Hl. injection Hl as <-.
  split; [exact E |].
  destruct (chain_job_heap FULFILLED v Rf) as (Q2 & _).
  cbn [run_jobs]. rewrite Q2. reflexivity.
Qed.

Lemma chain_rejected v :
  let s2 := settled_by c p REJECTED v [Rr] s1 in
  reject c v s1 = (Returned VUndefined, s2)
  /\ run_jobs H 1 s2
     = snd (promiseReactionJob H Rr v (take_job (ReactionJob Rr v) [] s2)).
Proof.
  cbv zeta.
  destruct chain_after_then as (W & C1 & P1 & _ & L1 & _).
  destruct (@reject_eq c v s1) as (l & Hl & E);
    try (rewrite C1, Hc; first [reflexivity | assumption | apply W]).
  rewrite C1, Hc in Hl, E. cbn [promise_var] in Hl, E.
  rewrite L1 in Hl. injection Hl as <-.
  split; [exact E |].
  destruct (chain_job_heap REJECTED v Rr) as (Q2 & _).
  cbn [run_jobs]. rewrite Q2. reflexivity.
Qed.

End Chain.

(** The four ways a reaction job settles the promise of its capability. *)
Lemma job_downstream_cases H c q (s : St) (R : Reaction) a :
  is_promise_object (heap s q) = true -> state_of s q = PENDING ->
  closures s c = {| promise_var := q; alreadySettled := false |} ->
  capability R = {| cap_promise := VPromise q;
                    cap_resolve := VNative (ResolveFn c);
                    cap_reject := VNative (RejectFn c) |} ->
  let s' := snd (promiseReactionJob H R a s) in
  (truthy (handler R) = false -> type R = Fulfill -> plain_value H a = true ->
   state_of s' q = FULFILLED /\ result_of s' q = Some a)
  /\ (truthy (handler R) = false -> type R = Reject ->
      state_of s' q = REJECTED /\ result_of s' q = Some a)
  /\ (forall f w, handler R = VFunction f ->
        body H f VUndefined [a] = Ret (Returned w) -> plain_value H w = true ->
        state_of s' q = FULFILLED /\ result_of s' q = Some w)
  /\ (forall f e, handler R = VFunction f ->
        body H f VUndefined [a] = Ret (Thrown e) ->
        state_of s' q = REJECTED /\ result_of s' q = Some e).
Proof.
  intros Ho Hp Hc Hcap. cbv zeta.
  split; [| split; [| split]].
  - intros Hh Ht Ha.
    destruct (@job_passes_value_on H c q s Ho Hp Hc R a Hcap Hh Ht Ha)
      as (lf & l & _ & E).
    rewrite E. cbn [snd].
    destruct (@settled_by_facts c q FULFILLED a lf (with_calls l s) Ho)
      as (F1 & F2 & _). split; assumption.
  - intros Hh Ht.
    destruct (@job_passes_reason_on H c q s Ho Hp Hc R a Hcap Hh Ht)
      as (lr & l & _ & E).
    rewrite E. cbn [snd].
    destruct (@settled_by_facts c q REJECTED a lr (with_calls l s) Ho)
      as (F1 & F2 & _). split; assumption.
  - intros f w Hh Hb Hw.
    destruct (@job_settles_with_handler_result H c q s Ho Hp Hc R a Hcap f w
                Hh Hb Hw) as (lf & l & _ & E).
    rewrite E. cbn [snd].
    destruct (@settled_by_facts c q FULFILLED w lf (with_calls l s) Ho)
      as (F1 & F2 & _). split; assumption.
  - intros f e Hh Hb.
    destruct (@job_settles_with_handler_error H c q s Ho Hp Hc R a Hcap f e
                Hh Hb) as (lr & l & _ & E).
    rewrite E. cbn [snd].
    destruct (@settled_by_facts c q REJECTED e lr (with_calls l s) Ho)
      as (F1 & F2 & _). split; assumption.
Qed.

Lemma coerce_not_callable h :
  isCallable h = false -> coerce h = VUndefined.
Proof. intros Hh. unfold coerce. now rewrite Hh. Qed.

Lemma coerce_function f : coerce (VFunction f) = VFunction f.
Proof. reflexivity. Qed.

Lemma Promise_resolve_thenable_eq H v t (s : St) :
  thenable H v = true -> get_then H v = Returned t ->
  v <> VPromise (next_promise s) ->
  Promise_resolve H v s
  = (Returned (VPromise (next_promise s)),
     with_queue (queue s ++ [ResolveThenableJob (next_promise s) v t])
       (update_closure (next_closure s) (set_alreadySettled true)
          (capability_made (ResolveFn (next_closure s))
             (capability_object (new_capability s)) [v] s))).
Proof.
  intros Hv Ht Hn. rewrite Promise_resolve_unfold. cbv zeta.
  fold (new_capability s).
  destruct (capability_made_facts (ResolveFn (next_closure s))
              (capability_object (new_capability s)) [v] s) as (Hc & Hh & Hq).
  set (s1 := capability_made _ _ _ s) in *.
  rewrite (@resolve_thenable_eq H (next_closure s) v t s1);
    rewrite ?Hc; cbn [promise_var alreadySettled]; auto.
Qed.

(** A handler that returns [w] at once: the job ends as the downstream
    resolve, called with [w], ends. *)
Lemma job_resolves_with_result H c (s : St) (R : Reaction) a f w s' :
  cap_resolve (capability R) = VNative (ResolveFn c) ->
  handler R = VFunction f -> body H f VUndefined [a] = Ret (Returned w) ->
  resolve H c w
    (with_calls
       ((calls s ++ [{| callee := VFunction f; receiver := VUndefined;
                        arguments := [a] |}])
        ++ [{| callee := VNative (ResolveFn c);
               receiver := capability_object (capability R);
               arguments := [w] |}]) s)
  = (Returned VUndefined, s') ->
  promiseReactionJob H R a s = (Returned VUndefined, s').
Proof.
  intros Hcap Hh Hb E.
  unfold promiseReactionJob. cbv zeta. rewrite Hh. cbn [truthy negb].
  unfold try_catch. unfold bind at 1. rewrite call_function.
  rewrite Hb. cbn [exec lift].
  rewrite Hcap. unfold bind. rewrite call_ResolveFn. cbn [calls with_calls].
  match goal with
  | |- context [resolve H c w ?st] =>
      match type of E with
      | resolve H c w ?st' = _ => change st with st'
      end
  end.
  now rewrite E.
Qed.

Lemma job_handler_result_cases H c q (s : St) (R : Reaction) a f w :
  is_promise_object (heap s q) = true -> state_of s q = PENDING ->
  closures s c = {| promise_var := q; alreadySettled := false |} ->
  cap_resolve (capability R) = VNative (ResolveFn c) ->
  handler R = VFunction f -> body H f VUndefined [a] = Ret (Returned w) ->
  let s' := snd (promiseReactionJob H R a s) in
  (forall t, thenable H w = true -> get_then H w = Returned t ->
     w <> VPromise q ->
     state_of s' q = PENDING
     /\ queue s' = queue s ++ [ResolveThenableJob q w t])
  /\ (w = VPromise q ->
      state_of s' q = REJECTED
      /\ result_of s' q = Some (VTypeError "resolution === promise"))
  /\ (forall e, plain_value H w = false -> get_then H w = Thrown e ->
        state_of s' q = REJECTED /\ result_of s' q = Some e).
Proof.
  intros Ho Hp Hc Hcap Hh Hb. cbv zeta.
  set (l := (calls s ++ [{| callee := VFunction f; receiver := VUndefined;
                            arguments := [a] |}])
            ++ [{| callee := VNative (ResolveFn c);
                   receiver := capability_object (capability R);
                   arguments := [w] |}]).
  set (s0 := with_calls l s).
  assert (Hc0 : closures s0 c
                = {| promise_var := q; alreadySettled := false |}) by exact Hc.
  assert (Hf0 : alreadySettled (closures s0 c) = false) by now rewrite Hc0.
  assert (Hq0 : promise_var (closures s0 c) = q) by now rewrite Hc0.
  split; [| split].
  - intros t Hw Ht Hn.
    assert (Hn0 : w <> VPromise (promise_var (closures s0 c)))
      by now rewrite Hq0.
    pose proof (@resolve_thenable_eq H c w t s0 Hf0 Hw Ht Hn0) as E.
    rewrite (@job_resolves_with_result H c s R a f w _ Hcap Hh Hb E).
    cbn [snd]. rewrite Hq0. split; [exact Hp | reflexivity].
  - intros ->.
    pose proof (@resolve_self_p0 H c s0) as K. cbv zeta in K.
    rewrite Hq0 in K.
    destruct (K Hf0 Hp Ho) as (lr & s1 & _ & E & F1 & F2 & _).
    rewrite (@job_resolves_with_result H c s R a f (VPromise q) _ Hcap Hh Hb E).
    split; assumption.
  - intros e Hw He.
    assert (Hobj : isObject w || isFunction w = true)
      by (destruct w; try discriminate Hw; try discriminate He; reflexivity).
    assert (Hnull : w <> VNull) by (intros ->; discriminate Hw).
    pose proof (@resolve_throwing_then_p0 H c w e s0) as K. cbv zeta in K.
    rewrite Hq0 in K.
    destruct (K Hf0 Hp Ho Hobj Hnull He) as (lr & s1 & _ & E & F1 & F2 & _).
    rewrite (@job_resolves_with_result H c s R a f w _ Hcap Hh Hb E).
    split; assumption.
Qed.

End Part000More.

(** * More facts about src/promise.js *)
Module PromiseJsMore.
Import PromiseJs PromiseJsSpec PromiseJsFacts.

Lemma RejectPromise_unfold (s : St) p v l :
  rejectReactions_of s p = Some l ->
  RejectPromise p v s
  = (Returned VUndefined,
     with_queue (queue s ++ map (fun r => ReactionJob r v) l)
       (with_console
          (console s ++
           if prop_value (PromiseIsHandled (heap (settled p REJECTED v s) p))
           then [] else ["HostPromiseRejectionTracker is invoked: reject"])
          (settled p REJECTED v s))).
Proof.
  intros Hl.
  unfold RejectPromise, HostPromiseRejectionTracker, console_log, bind, gets,
    modify.
  unfold rejectReactions_of in *. rewrite Hl.
  fold (settled p REJECTED v s).
  destruct (prop_value (PromiseIsHandled (heap (settled p REJECTED v s) p)));
    cbn [negb]; unfold ret; rewrite TriggerPromiseReactions_array_js.
  - unfold settled, update, with_heap, with_queue, with_console; cbn.
    now rewrite app_nil_r.
  - reflexivity.
Qed.

Lemma settled_handled C (s : State C) p st v :
  PromiseIsHandled (heap (settled p st v s) p) = PromiseIsHandled (heap s p).
Proof.
  unfold settled. rewrite !heap_update_same. reflexivity.
Qed.


Lemma with_capability_other_js (s : St) p :
  p < next_promise s -> heap (with_capability s) p = heap s p.
Proof.
  intros Hp. destruct (with_capability_facts_js s) as (-> & _).
  apply override_other. lia.
Qed.

Lemma with_capability_console_js (s : St) :
  console (with_capability s) = console s.
Proof. reflexivity. Qed.

Lemma with_capability_new_js (s : St) :
  heap (with_capability s) (next_promise s) = created_promise.
Proof.
  destruct (with_capability_facts_js s) as (-> & _). apply override_same.
Qed.

(** [then] on a settled promise, as one equation. *)
Lemma Promise_then_settled_eq_js p h j (s : St) :
  state_of s p <> PENDING -> p < next_promise s ->
  Promise_then (VPromise p) h j s
  = (Returned (VPromise (next_promise s)),
     update p (set_PromiseIsHandled true)
       (with_queue
          (queue s ++
           [ReactionJob
              {| capability := new_capability s;
                 type := match state_of s p with
                         | REJECTED => Reject | _ => Fulfill end;
                 handler := coerce (match state_of s p with
                                    | REJECTED => j | _ => h end) |}
              (read (result_of s p))])
          (with_console
             (console s ++
              String.append "state: " (state_name (state_of s p)) ::
              match state_of s p with
              | REJECTED =>
                  if prop_value (PromiseIsHandled (heap s p)) then []
                  else ["HostPromiseRejectionTracker is invoked: handle"]
              | _ => []
              end)
             (with_capability s)))).
Proof.
  intros Hp Hlt.
  unfold Promise_then. cbn [IsPromise instanceof_Promise negb].
  unfold bind at 1. rewrite NewPromiseCapability_effect_js.
  pose proof (with_capability_other_js s Hlt) as Hh.
  destruct (with_capability_facts_js s) as (_ & _ & Hq & _).
  unfold PerformPromiseThen. fold (coerce h). fold (coerce j).
  unfold HostPromiseRejectionTracker, console_log, setImmediate, bind, gets,
    modify, ret.
  unfold state_of, result_of in *. rewrite Hh.
  destruct (prop_value (PromiseState (heap s p))); [contradiction | |];
    cbv beta; cbn [heap with_console]; rewrite ?Hh.
  - cbn [queue with_console]. rewrite Hq. reflexivity.
  - destruct (prop_value (PromiseIsHandled (heap s p))); cbn [negb];
      cbn [queue with_console]; rewrite Hq, ?with_capability_console_js.
    + reflexivity.
    + cbn [console with_console]. rewrite <- app_assoc. reflexivity.
Qed.


Lemma reject_Function_eq_js c p v (s : St) :
  Promise_var (closures s c) = Some p ->
  alreadyResolved_of (closures s c) = false ->
  reject_Function c v s
  = RejectPromise p v
      (update_closure c (fun e =>
         {| Promise_var := Promise_var e; AlreadyResolved_var := Some true |}) s).
Proof.
  intros Hp Hc.
  unfold reject_Function. unfold bind at 1. unfold gets at 1.
  unfold bind at 1. unfold gets at 1. rewrite Hp, Hc.
  unfold bind at 1. unfold setAlreadyResolved, modify at 1.
  unfold the_promise. unfold bind at 1. unfold ret at 1.
  reflexivity.
Qed.

Lemma reject_Function_used_js c v (s : St) :
  alreadyResolved_of (closures s c) = true ->
  reject_Function c v s = (Returned VUndefined, s).
Proof.
  intros Hc. unfold reject_Function, bind, gets. now rewrite Hc.
Qed.

Lemma resolve_Function_used_js H c v (s : St) :
  alreadyResolved_of (closures s c) = true ->
  resolve_Function H c v s = (Returned VUndefined, s).
Proof.
  intros Hc. unfold resolve_Function, bind, gets. now rewrite Hc.
Qed.

Lemma Promise_reject_unfold_js H r (s : St) :
  Promise_reject H r s
  = match RejectPromise (next_promise s) r
            (update_closure (S (next_closure s))
               (fun e => {| Promise_var := Promise_var e;
                            AlreadyResolved_var := Some true |})
               (with_calls
                  (calls (with_capability s) ++
                   [{| callee := VNative (RejectFn (S (next_closure s)));
                       receiver := VUndefined; arguments := [r] |}])
                  (with_capability s))) with
    | (Returned _, s') => (Returned (VPromise (next_promise s)), s')
    | (Thrown e, s') => (Thrown e, s')
    end.
Proof.
  unfold Promise_reject. unfold bind at 1.
  rewrite NewPromiseCapability_effect_js.
  cbn [cap_reject cap_promise new_capability].
  unfold bind at 1. rewrite call_RejectFn_js.
  destruct (with_capability_facts_js s) as (_ & _ & _ & _ & Hc).
  set (s1 := with_calls _ (with_capability s)).
  assert (Hc1 : closures s1 (S (next_closure s))
                = {| Promise_var := Some (next_promise s);
                     AlreadyResolved_var := Some false |}) by exact Hc.
  rewrite (@reject_Function_eq_js (S (next_closure s)) (next_promise s) r s1)
    by (rewrite Hc1; reflexivity).
  destruct (RejectPromise _ _ _) as [[u | e] s']; reflexivity.
Qed.

Lemma keeps_bindings_refl (s : St) : keeps_bindings s s.
Proof. split; auto. Qed.

Lemma keeps_bindings_trans (a b c : St) :
  keeps_bindings a b -> keeps_bindings b c -> keeps_bindings a c.
Proof.
  intros [N1 P1 F1] [N2 P2 F2]. split.
  - lia.
  - intros k Hk. rewrite P2 by lia. now apply P1.
  - intros k Hk Hf. apply F2; [lia |]. now apply F1.
Qed.

Local Abbreviation okb := (sound anything keeps_bindings).

Lemma same_closures_kb (f : St -> St) :
  (forall s, closures (f s) = closures s) ->
  (forall s, next_closure (f s) = next_closure s) ->
  okb (modify f).
Proof.
  intros Hc Hn s _. split; [exact I |]. cbn [snd modify].
  split; rewrite ?Hn, ?Hc; auto.
Qed.

Lemma raise_flag_kb c : okb (setAlreadyResolved c true).
Proof.
  intros s _. split; [exact I |].
  unfold setAlreadyResolved, modify, update_closure. cbn [snd].
  split; cbn [next_closure closures with_closures]; [apply Nat.le_refl | |].
  - intros k _. unfold override.
    destruct (Nat.eqb_spec k c) as [-> | _]; reflexivity.
  - intros k _ Hk. unfold override.
    destruct (Nat.eqb_spec k c) as [-> | _]; [reflexivity | exact Hk].
Qed.

Lemma CreateResolvingFunctions_kb promise :
  okb (CreateResolvingFunctions promise).
Proof.
  intros s _. split; [exact I |]. cbn [snd].
  assert (E : forall c, c < next_closure s ->
            closures (snd (CreateResolvingFunctions promise s)) c
            = closures s c).
  { intros c Hc. cbn. unfold override.
    repeat match goal with
    | |- context [Nat.eqb ?a ?b] =>
        destruct (Nat.eqb_spec a b); [lia |]; cbn
    end. reflexivity. }
  split.
  - cbn. lia.
  - intros c Hc. now rewrite E.
  - intros c Hc Hf. now rewrite E.
Qed.

Ltac walk_kb known :=
  sound_walk keeps_bindings_refl keeps_bindings_trans
    ltac:(idtac; first
      [ known
      | lazymatch goal with
        | |- sound _ _ (setImmediate _) =>
            unfold setImmediate; apply same_closures_kb; reflexivity
        | |- sound _ _ (log_call _) =>
            unfold log_call; apply same_closures_kb; reflexivity
        | |- sound _ _ (console_log _) =>
            unfold console_log; apply same_closures_kb; reflexivity
        | |- sound _ _ (HostPromiseRejectionTracker _ _) =>
            unfold HostPromiseRejectionTracker, console_log;
            apply same_closures_kb; reflexivity
        | |- sound _ _ (setAlreadyResolved _ true) => apply raise_flag_kb
        | |- sound _ _ (CreateResolvingFunctions _) =>
            apply CreateResolvingFunctions_kb
        | |- sound _ _ (the_promise _) => unfold the_promise
        | |- sound _ _ allocate_promise =>
            intros ? _; split; [exact I | cbn; split; auto]
        | |- sound _ _ (modify (update _ _)) =>
            apply same_closures_kb; reflexivity
        end ]).

Lemma TriggerPromiseReactions_kb reactions argument :
  okb (TriggerPromiseReactions reactions argument).
Proof. unfold TriggerPromiseReactions. walk_kb fail. Qed.

Lemma FulfillPromise_kb promise v : okb (FulfillPromise promise v).
Proof.
  unfold FulfillPromise.
  walk_kb ltac:(idtac; lazymatch goal with
                | |- sound _ _ (TriggerPromiseReactions _ _) =>
                    apply TriggerPromiseReactions_kb
                end).
Qed.

Lemma RejectPromise_kb promise reason : okb (RejectPromise promise reason).
Proof.
  unfold RejectPromise.
  walk_kb ltac:(idtac; lazymatch goal with
                | |- sound _ _ (TriggerPromiseReactions _ _) =>
                    apply TriggerPromiseReactions_kb
                end).
Qed.

Ltac walk_kb2 known :=
  walk_kb ltac:(idtac; first
    [ known
    | lazymatch goal with
      | |- sound _ _ (TriggerPromiseReactions _ _) =>
          apply TriggerPromiseReactions_kb
      | |- sound _ _ (FulfillPromise _ _) => apply FulfillPromise_kb
      | |- sound _ _ (RejectPromise _ _) => apply RejectPromise_kb
      end ]).

Lemma resolve_Function_kb H c resolution : okb (resolve_Function H c resolution).
Proof. unfold resolve_Function. walk_kb2 fail. Qed.

Lemma reject_Function_kb c reason : okb (reject_Function c reason).
Proof. unfold reject_Function. walk_kb2 fail. Qed.

Lemma Promise_body_kb A (executor : value -> value -> M Closure A) :
  (forall r j, okb (executor r j)) -> okb (Promise_body executor).
Proof.
  intros He. unfold Promise_body.
  walk_kb2 ltac:(idtac; lazymatch goal with
                 | |- sound _ _ (executor _ _) => apply He
                 | |- sound _ _ (reject_Function _ _) =>
                     apply reject_Function_kb
                 end).
Qed.

Lemma NewPromiseCapability_kb : okb NewPromiseCapability.
Proof.
  unfold NewPromiseCapability.
  walk_kb2 ltac:(idtac; lazymatch goal with
                 | |- sound _ _ (Promise_body _) =>
                     apply Promise_body_kb; intros ? ?
                 end).
Qed.

Lemma PerformPromiseThen_kb promise onFulfilled onRejected resultCapability :
  okb (PerformPromiseThen promise onFulfilled onRejected resultCapability).
Proof. unfold PerformPromiseThen. walk_kb2 fail. Qed.

Lemma Promise_then_kb this onFulfilled onRejected :
  okb (Promise_then this onFulfilled onRejected).
Proof.
  unfold Promise_then.
  walk_kb2 ltac:(idtac; lazymatch goal with
                 | |- sound _ _ NewPromiseCapability =>
                     apply NewPromiseCapability_kb
                 | |- sound _ _ (PerformPromiseThen _ _ _ _) =>
                     apply PerformPromiseThen_kb
                 end).
Qed.

Lemma call_native_kb H f this args : okb (call_native H f this args).
Proof.
  destruct f; cbn;
    auto using resolve_Function_kb, reject_Function_kb, Promise_then_kb.
Qed.

Lemma Promise_deferred_kb : okb Promise_deferred.
Proof.
  unfold Promise_deferred.
  walk_kb2 ltac:(idtac; lazymatch goal with
                 | |- sound _ _ NewPromiseCapability =>
                     apply NewPromiseCapability_kb
                 end).
Qed.

Lemma exec_kb H t : okb (exec H t).
Proof.
  induction t as [c | f this args k IH | executor IHe k IH | k IH]; cbn.
  - walk_kb2 fail.
  - walk_kb2 ltac:(idtac; lazymatch goal with
                   | |- sound _ _ (call_native _ _ _ _) => apply call_native_kb
                   | |- sound _ _ (exec _ _) => apply IH
                   end).
  - walk_kb2 ltac:(idtac; lazymatch goal with
                   | |- sound _ _ (Promise_body _) =>
                       apply Promise_body_kb; intros ? ?; apply IHe
                   | |- sound _ _ (exec _ _) => apply IH
                   end).
  - walk_kb2 ltac:(idtac; lazymatch goal with
                   | |- sound _ _ Promise_deferred => apply Promise_deferred_kb
                   | |- sound _ _ (exec _ _) => apply IH
                   end).
Qed.

Lemma call_kb H f this args : okb (call H f this args).
Proof.
  unfold call.
  walk_kb2 ltac:(idtac; lazymatch goal with
                 | |- sound _ _ (call_native _ _ _ _) => apply call_native_kb
                 | |- sound _ _ (exec _ _) => apply exec_kb
                 end).
Qed.

Lemma Promise_kb H new_target executor : okb (Promise H new_target executor).
Proof.
  unfold Promise.
  walk_kb2 ltac:(idtac; lazymatch goal with
                 | |- sound _ _ (Promise_body _) =>
                     apply Promise_body_kb; intros ? ?; apply call_kb
                 end).
Qed.

Lemma PromiseReactionJob_kb H reaction argument :
  okb (PromiseReactionJob H reaction argument).
Proof.
  unfold PromiseReactionJob.
  walk_kb2 ltac:(idtac; lazymatch goal with
                 | |- sound _ _ (call _ _ _ _) => apply call_kb
                 end).
Qed.

Lemma PromiseResolveThenableJob_kb H promise resolution thenAction :
  okb (PromiseResolveThenableJob H promise resolution thenAction).
Proof.
  unfold PromiseResolveThenableJob.
  walk_kb2 ltac:(idtac; lazymatch goal with
                 | |- sound _ _ (call _ _ _ _) => apply call_kb
                 | |- sound _ _ (reject_Function _ _) =>
                     apply reject_Function_kb
                 end).
Qed.

Lemma Promise_resolve_kb H x : okb (Promise_resolve H x).
Proof.
  unfold Promise_resolve.
  walk_kb2 ltac:(idtac; lazymatch goal with
                 | |- sound _ _ NewPromiseCapability =>
                     apply NewPromiseCapability_kb
                 | |- sound _ _ (call _ _ _ _) => apply call_kb
                 end).
Qed.

Lemma Promise_reject_kb H r : okb (Promise_reject H r).
Proof.
  unfold Promise_reject.
  walk_kb2 ltac:(idtac; lazymatch goal with
                 | |- sound _ _ NewPromiseCapability =>
                     apply NewPromiseCapability_kb
                 | |- sound _ _ (call _ _ _ _) => apply call_kb
                 end).
Qed.

Lemma run_job_kb H j : okb (run_job H j).
Proof.
  destruct j; cbn;
    auto using PromiseReactionJob_kb, PromiseResolveThenableJob_kb.
Qed.


Lemma run_jobs_kb H n (s : St) : keeps_bindings s (run_jobs H n s).
Proof.
  revert s. induction n as [| n IH]; intros s; cbn.
  - apply keeps_bindings_refl.
  - destruct (queue s) as [| j q] eqn:Hq; [apply keeps_bindings_refl |].
    destruct (@run_job_kb H j (take_job j q s) I) as [_ E2].
    eapply keeps_bindings_trans; [| apply IH].
    eapply keeps_bindings_trans; [| exact E2].
    split; cbn; auto.
Qed.

Lemma perform_kb H a (s : St) : keeps_bindings s (perform H a s).
Proof.
  destruct a; cbv beta iota delta [perform].
  - now apply exec_kb.
  - now apply call_kb.
  - now apply Promise_kb.
  - now apply Promise_resolve_kb.
  - now apply Promise_reject_kb.
  - apply run_jobs_kb.
Qed.

Lemma later_kb H (s s' : St) : later H s s' -> keeps_bindings s s'.
Proof.
  induction 1 as [s | s s' a _ IH].
  - apply keeps_bindings_refl.
  - eapply keeps_bindings_trans; [exact IH | apply perform_kb].
Qed.

Lemma resolve_Function_fresh_js H c v (s : St) :
  alreadyResolved_of (closures s c) = false ->
  resolve_Function H c v s
  = (promise <- the_promise (Promise_var (closures s c)) ;;
     if strict_equal v (VPromise promise) then
       RejectPromise promise (VTypeError "resolution === promise")
     else if negb (isObject v) then FulfillPromise promise v
     else
       thenAction <- lift (get_then H v) ;;
       if negb (isCallable thenAction) then FulfillPromise promise v
       else
         setImmediate (ResolveThenableJob promise v thenAction) ;;;
         ret VUndefined)
      (update_closure c (fun e =>
         {| Promise_var := Promise_var e; AlreadyResolved_var := Some true |})
         s).
Proof.
  intros Hf. unfold resolve_Function.
  unfold bind at 1. unfold gets at 1. unfold bind at 1. unfold gets at 1.
  rewrite Hf. unfold bind at 1. reflexivity.
Qed.

Lemma reject_Function_fresh_js c v (s : St) :
  alreadyResolved_of (closures s c) = false ->
  reject_Function c v s
  = (promise <- the_promise (Promise_var (closures s c)) ;;
     RejectPromise promise v)
      (update_closure c (fun e =>
         {| Promise_var := Promise_var e; AlreadyResolved_var := Some true |})
         s).
Proof.
  intros Hf. unfold reject_Function.
  unfold bind at 1. unfold gets at 1. unfold bind at 1. unfold gets at 1.
  rewrite Hf. unfold bind at 1. reflexivity.
Qed.

Lemma resolve_Function_raises_js H c v (s : St) :
  c < next_closure s ->
  alreadyResolved_of (closures (snd (resolve_Function H c v s)) c) = true.
Proof.
  intros Hc. destruct (alreadyResolved_of (closures s c)) eqn:Hf.
  - now rewrite resolve_Function_used_js.
  - rewrite resolve_Function_fresh_js by exact Hf.
    match goal with
    | |- context [snd (?m ?s0)] =>
        assert (Hm : sound anything keeps_bindings m) by walk_kb2 fail;
        destruct (Hm s0 I) as [_ K];
        apply (bindings_flag K (c := c)); [exact Hc |]
    end.
    cbn. now rewrite override_same.
Qed.

Lemma reject_Function_raises_js c v (s : St) :
  c < next_closure s ->
  alreadyResolved_of (closures (snd (reject_Function c v s)) c) = true.
Proof.
  intros Hc. destruct (alreadyResolved_of (closures s c)) eqn:Hf.
  - now rewrite reject_Function_used_js.
  - rewrite reject_Function_fresh_js by exact Hf.
    match goal with
    | |- context [snd (?m ?s0)] =>
        assert (Hm : sound anything keeps_bindings m) by walk_kb2 fail;
        destruct (Hm s0 I) as [_ K];
        apply (bindings_flag K (c := c)); [exact Hc |]
    end.
    cbn. now rewrite override_same.
Qed.

Lemma with_capability_well_formed_js (s : St) :
  well_formed s -> well_formed (with_capability s).
Proof.
  intros Hs p. destruct (with_capability_facts_js s) as (-> & _).
  unfold override. destruct (Nat.eqb p (next_promise s)); [reflexivity | apply Hs].
Qed.

Lemma call_function_js H f this args (s : St) :
  call H (VFunction f) this args s
  = exec H (body H f this args)
      (with_calls (calls s ++ [{| callee := VFunction f;
                                  receiver := this; arguments := args |}]) s).
Proof. reflexivity. Qed.


Lemma Promise_unfold_js H executor (s : St) :
  isCallable executor = true ->
  Promise H true executor s
  = match call H executor VUndefined
            [VNative (ResolveFn (next_closure s));
             VNative (RejectFn (S (next_closure s)))] (with_capability s) with
    | (Returned _, s1) => (Returned (VPromise (next_promise s)), s1)
    | (Thrown e, s1) =>
        match reject_Function (S (next_closure s)) e s1 with
        | (Returned _, s2) => (Returned (VPromise (next_promise s)), s2)
        | (Thrown e', s2) => (Thrown e', s2)
        end
    end.
Proof.
  intros Hc. unfold Promise. cbn [negb]. rewrite Hc. cbn [negb].
  unfold bind at 1. unfold Promise_body. unfold bind at 1.
  unfold allocate_promise at 1. unfold bind at 1.
  change (CreateResolvingFunctions (next_promise s)
            (with_heap (override (heap s) (next_promise s) created_promise)
               (S (next_promise s)) s))
    with (Returned (next_closure s, S (next_closure s)), with_capability s).
  cbn [fst snd].
  unfold bind at 1. unfold attempt.
  destruct (call H executor VUndefined _ (with_capability s)) as [[u | e] s1].
  - reflexivity.
  - unfold bind.
    destruct (reject_Function (S (next_closure s)) e s1) as [[u | e'] s2];
      reflexivity.
Qed.


Lemma fulfills_directly_not_promise H v p :
  fulfills_directly_js H v = true -> strict_equal v (VPromise p) = false.
Proof.
  intros Hv. unfold strict_equal.
  destruct (value_eq_dec v (VPromise p)) as [-> | _]; [| reflexivity].
  discriminate Hv.
Qed.

Lemma resolve_Function_direct_eq_js H c p v (s : St) :
  Promise_var (closures s c) = Some p ->
  alreadyResolved_of (closures s c) = false ->
  fulfills_directly_js H v = true ->
  resolve_Function H c v s
  = FulfillPromise p v
      (update_closure c (fun e =>
         {| Promise_var := Promise_var e; AlreadyResolved_var := Some true |}) s).
Proof.
  intros Hp Hf Hv.
  rewrite resolve_Function_fresh_js by exact Hf. rewrite Hp.
  unfold the_promise. unfold bind at 1. unfold ret at 1.
  rewrite (fulfills_directly_not_promise H v p Hv).
  unfold fulfills_directly_js in Hv.
  destruct (negb (isObject v)) eqn:Ho; [reflexivity |].
  cbn [orb] in Hv. unfold bind, lift.
  destruct (get_then H v) as [t | e]; [| discriminate Hv].
  now rewrite Hv.
Qed.

(** The heap the executor of [new Promise] starts on. *)
Lemma executor_heap_js (s : St) l :
  let s0 := with_calls l (with_capability s) in
  closures s0 (next_closure s)
  = {| Promise_var := Some (next_promise s);
       AlreadyResolved_var := Some false |}
  /\ closures s0 (S (next_closure s))
     = {| Promise_var := Some (next_promise s);
          AlreadyResolved_var := Some false |}
  /\ heap s0 (next_promise s) = created_promise
  /\ queue s0 = queue s /\ console s0 = console s.
Proof.
  destruct (with_capability_facts_js s) as (Hh & _ & Hq & C1 & C2).
  cbv zeta. cbn [closures heap queue console with_calls].
  rewrite Hh, override_same. repeat split; assumption.
Qed.

(** The first call of a reject function whose promise has no reaction. *)
Lemma reject_Function_first_js c p v (s : St) :
  closures s c = {| Promise_var := Some p; AlreadyResolved_var := Some false |} ->
  is_promise_object (heap s p) = true ->
  let s' := snd (reject_Function c v s) in
  fst (reject_Function c v s) = Returned VUndefined
  /\ state_of s' p = REJECTED /\ result_of s' p = Some v
  /\ (exists lr, rejectReactions_of s p = Some lr
        /\ queue s' = queue s ++ map (fun r => ReactionJob r v) lr)
  /\ console s'
     = console s ++
       (if prop_value (PromiseIsHandled (heap s p)) then []
        else ["HostPromiseRejectionTracker is invoked: reject"])
  /\ (forall q, q <> p -> heap s' q = heap s q).
Proof.
  intros Hc Ho. cbv zeta.
  rewrite (@reject_Function_eq_js c p v s) by (rewrite Hc; reflexivity).
  set (s0 := update_closure c _ s).
  assert (Ho0 : is_promise_object (heap s0 p) = true) by exact Ho.
  destruct (promise_object_lists _ Ho0) as (lf & lr & _ & Hlr).
  rewrite (RejectPromise_unfold s0 p v Hlr). cbn [fst snd].
  destruct (settled_facts s0 p REJECTED v Ho0) as (F1 & F2 & _ & _ & F5 & _).
  rewrite settled_handled.
  split; [reflexivity |]. split; [exact F1 |]. split; [exact F2 |].
  split; [exists lr; split; [exact Hlr | reflexivity] |].
  split; [reflexivity |].
  intros q Hq. cbn [heap with_queue with_console].
  now rewrite settled_elsewhere.
Qed.

(** The first call of a resolve function with a value it takes as it is. *)
Lemma resolve_Function_first_js H c p v (s : St) :
  closures s c = {| Promise_var := Some p; AlreadyResolved_var := Some false |} ->
  is_promise_object (heap s p) = true ->
  fulfills_directly_js H v = true ->
  exists lf, fulfillReactions_of s p = Some lf
    /\ resolve_Function H c v s
       = (Returned VUndefined,
          with_queue (queue s ++ map (fun r => ReactionJob r v) lf)
            (settled p FULFILLED v
               (update_closure c (fun e =>
                  {| Promise_var := Promise_var e;
                     AlreadyResolved_var := Some true |}) s))).
Proof.
  intros Hc Ho Hv.
  rewrite (@resolve_Function_direct_eq_js H c p v s)
    by (rewrite ?Hc; auto).
  set (s0 := update_closure c _ s).
  assert (Ho0 : is_promise_object (heap s0 p) = true) by exact Ho.
  destruct (FulfillPromise_effect_js s0 p v Ho0) as (lf & Hlf & E).
  exists lf. split; [exact Hlf | exact E].
Qed.

Lemma resolve_Function_throws_js H c p v e (s : St) :
  closures s c = {| Promise_var := Some p; AlreadyResolved_var := Some false |} ->
  isObject v = true -> get_then H v = Thrown e ->
  resolve_Function H c v s
  = (Thrown e,
     update_closure c (fun e0 =>
       {| Promise_var := Promise_var e0; AlreadyResolved_var := Some true |}) s).
Proof.
  intros Hc Ho He.
  rewrite resolve_Function_fresh_js by (rewrite Hc; reflexivity).
  rewrite Hc. cbn [Promise_var the_promise].
  unfold bind at 1. unfold ret at 1.
  assert (Hself : strict_equal v (VPromise p) = false).
  { unfold strict_equal.
    destruct (value_eq_dec v (VPromise p)) as [-> | _]; [| reflexivity].
    discriminate He. }
  rewrite Hself, Ho. cbn [negb]. unfold bind, lift. now rewrite He.
Qed.

(** The first calls of the functions of a capability of src/promise.js. *)
Lemma call_resolve_first_js H c q v (s : St) :
  closures s c = {| Promise_var := Some q; AlreadyResolved_var := Some false |} ->
  is_promise_object (heap s q) = true ->
  fulfills_directly_js H v = true ->
  let out := call H (VNative (ResolveFn c)) VUndefined [v] s in
  fst out = Returned VUndefined
  /\ state_of (snd out) q = FULFILLED /\ result_of (snd out) q = Some v.
Proof.
  intros Hc Ho Hv. cbv zeta. rewrite call_ResolveFn_js.
  set (sl := with_calls _ s).
  destruct (@resolve_Function_first_js H c q v sl Hc Ho Hv) as (lf & _ & E).
  rewrite E. cbn [fst snd].
  set (sF := update_closure c _ sl).
  assert (HoF : is_promise_object (heap sF q) = true) by exact Ho.
  destruct (settled_facts sF q FULFILLED v HoF) as (F1 & F2 & _).
  repeat split; assumption.
Qed.

Lemma call_reject_first_js H c' q v (s : St) :
  closures s c' = {| Promise_var := Some q; AlreadyResolved_var := Some false |} ->
  is_promise_object (heap s q) = true ->
  let out := call H (VNative (RejectFn c')) VUndefined [v] s in
  fst out = Returned VUndefined
  /\ state_of (snd out) q = REJECTED /\ result_of (snd out) q = Some v.
Proof.
  intros Hc' Ho. cbv zeta. rewrite call_RejectFn_js.
  set (sl := with_calls _ s).
  destruct (@reject_Function_first_js c' q v sl Hc' Ho)
    as (R0 & R1 & R2 & _).
  repeat split; assumption.
Qed.

Lemma call_resolve_throws_js H c q v e (s : St) :
  closures s c = {| Promise_var := Some q; AlreadyResolved_var := Some false |} ->
  isObject v = true -> get_then H v = Thrown e ->
  call H (VNative (ResolveFn c)) VUndefined [v] s
  = (Thrown e,
     update_closure c (fun e0 =>
       {| Promise_var := Promise_var e0; AlreadyResolved_var := Some true |})
       (with_calls (calls s ++ [{| callee := VNative (ResolveFn c);
                                   receiver := VUndefined;
                                   arguments := [v] |}]) s)).
Proof.
  intros Hc Ho He. rewrite call_ResolveFn_js.
  now apply (@resolve_Function_throws_js H c q v e).
Qed.

Lemma CreateResolvingFunctions_facts_js p (s : St) :
  let sA := snd (CreateResolvingFunctions p s) in
  fst (CreateResolvingFunctions p s)
  = Returned (next_closure s, S (next_closure s))
  /\ closures sA (next_closure s)
     = {| Promise_var := Some p; AlreadyResolved_var := Some false |}
  /\ closures sA (S (next_closure s))
     = {| Promise_var := Some p; AlreadyResolved_var := Some false |}
  /\ heap sA = heap s /\ queue sA = queue s /\ calls sA = calls s
  /\ console sA = console s /\ next_promise sA = next_promise s.
Proof.
  assert (E1 : Nat.eqb (next_closure s) (S (next_closure s)) = false)
    by (apply Nat.eqb_neq; lia).
  assert (E2 : Nat.eqb (S (next_closure s)) (next_closure s) = false)
    by (apply Nat.eqb_neq; lia).
  repeat split; cbn; unfold override;
    rewrite ?Nat.eqb_refl, ?E1, ?E2; cbn; rewrite ?Nat.eqb_refl; reflexivity.
Qed.

Lemma PromiseResolveThenableJob_unfold_js H p thenable f (s : St) :
  PromiseResolveThenableJob H p thenable (VFunction f) s
  = try_catch
      (exec H (body H f thenable
                 [VNative (ResolveFn (next_closure s));
                  VNative (RejectFn (S (next_closure s)))]))
      (fun error => reject_Function (S (next_closure s)) error)
      (with_calls
         (calls s ++
          [{| callee := VFunction f; receiver := thenable;
              arguments := [VNative (ResolveFn (next_closure s));
                            VNative (RejectFn (S (next_closure s)))] |}])
         (snd (CreateResolvingFunctions p s))).
Proof. reflexivity. Qed.

End PromiseJsMore.

(** * Further properties of the two files *)

(** Property X1 (scheduling the jobs of a reaction list), both files. On a
    list of reactions [l], [triggerPromiseReactions] (and
    [TriggerPromiseReactions] of src/promise.js) returns undefined and appends
    to the queue one reaction job per reaction, in the order of the list, each
    with the given argument; nothing else of the heap changes, and on the
    empty list the heap is left as it is. *)
Theorem trigger_schedules_in_order (l : list Reaction) (v : value)
    (s : Part000.St) (sj : PromiseJs.St) :
  Part000.triggerPromiseReactions (Some l) v s
  = (Returned VUndefined,
     with_queue (queue s ++ map (fun r => ReactionJob r v) l) s)
  /\ PromiseJs.TriggerPromiseReactions (Some l) v sj
     = (Returned VUndefined,
        with_queue (queue sj ++ map (fun r => ReactionJob r v) l) sj)
  /\ snd (Part000.triggerPromiseReactions (Some []) v s) = s
  /\ snd (PromiseJs.TriggerPromiseReactions (Some []) v sj) = sj.
Proof.
  split; [apply Part000Facts.triggerPromiseReactions_array |].
  split; [apply PromiseJsFacts.TriggerPromiseReactions_array_js |].
  split; reflexivity.
Qed.

(** Property X2 (settling a pending promise), src/unnamed/part_000. On a
    pending promise, [fulfillPromise] returns undefined, sets the state to
    fulfilled and the result to the value, and schedules the jobs of the
    fulfill reactions registered so far, in order, and none of the reject
    reactions; [rejectPromise] does the same with the rejected state and the
    reject reactions. Both leave every other promise and every closure as they
    are. *)
Theorem settle_pending_p0 (p : nat) (v : value) (s : Part000.St) :
  is_promise_object (heap s p) = true -> state_of s p = PENDING ->
  exists lf lr,
    fulfillReactions_of s p = Some lf /\ rejectReactions_of s p = Some lr
    /\ (let s' := snd (Part000.fulfillPromise p v s) in
        fst (Part000.fulfillPromise p v s) = Returned VUndefined
        /\ state_of s' p = FULFILLED /\ result_of s' p = Some v
        /\ queue s' = queue s ++ map (fun r => ReactionJob r v) lf
        /\ (forall q, q <> p -> heap s' q = heap s q)
        /\ closures s' = closures s)
    /\ (let s' := snd (Part000.rejectPromise p v s) in
        fst (Part000.rejectPromise p v s) = Returned VUndefined
        /\ state_of s' p = REJECTED /\ result_of s' p = Some v
        /\ queue s' = queue s ++ map (fun r => ReactionJob r v) lr
        /\ (forall q, q <> p -> heap s' q = heap s q)
        /\ closures s' = closures s).
Proof.
  intros Ho Hp.
  destruct (Part000Facts.fulfillPromise_effect s p v Hp Ho) as (lf & Hlf & Ef).
  destruct (Part000Facts.rejectPromise_effect s p v Hp Ho) as (lr & Hlr & Er).
  exists lf, lr. split; [exact Hlf |]. split; [exact Hlr |].
  cbv zeta. rewrite Ef, Er. cbn [fst snd].
  destruct (settled_facts s p FULFILLED v Ho) as (F1 & F2 & _ & _ & F5 & _).
  destruct (settled_facts s p REJECTED v Ho) as (R1 & R2 & _ & _ & R5 & _).
  destruct (Part000More.settle_frame s p FULFILLED v lf) as (A1 & A2 & _).
  destruct (Part000More.settle_frame s p REJECTED v lr) as (B1 & B2 & _).
  repeat split; auto.
Qed.

Lemma settle_pending_p0_witness :
  let s := Part000Spec.with_capability Part000Spec.initial in
  state_of (snd (Part000.fulfillPromise 0 (VNum 5) s)) 0 = FULFILLED
  /\ state_of (snd (Part000.rejectPromise 0 (VNum 5) s)) 0 = REJECTED.
Proof.
  destruct (@settle_pending_p0 0 (VNum 5)
              (Part000Spec.with_capability Part000Spec.initial)
              eq_refl eq_refl)
    as (lf & lr & _ & _ & (_ & A & _) & (_ & B & _)).
  exact (conj A B).
Defined.

(** Property X3 (settlement without a guard), src/promise.js. [FulfillPromise]
    and [RejectPromise] of src/promise.js act on a promise in any state: they
    overwrite state and result and schedule the jobs of the whole reaction
    list (again, if the promise was settled before). [RejectPromise] prints
    the line of [HostPromiseRejectionTracker] exactly when the promise's
    handled flag is false; [FulfillPromise] prints nothing. Other promises are
    left alone. *)
Theorem promise_js_settlement_effect (p : nat) (v : value) (s : PromiseJs.St) :
  is_promise_object (heap s p) = true ->
  exists lf lr,
    fulfillReactions_of s p = Some lf /\ rejectReactions_of s p = Some lr
    /\ (let s' := snd (PromiseJs.FulfillPromise p v s) in
        fst (PromiseJs.FulfillPromise p v s) = Returned VUndefined
        /\ state_of s' p = FULFILLED /\ result_of s' p = Some v
        /\ queue s' = queue s ++ map (fun r => ReactionJob r v) lf
        /\ console s' = console s
        /\ (forall q, q <> p -> heap s' q = heap s q))
    /\ (let s' := snd (PromiseJs.RejectPromise p v s) in
        fst (PromiseJs.RejectPromise p v s) = Returned VUndefined
        /\ state_of s' p = REJECTED /\ result_of s' p = Some v
        /\ queue s' = queue s ++ map (fun r => ReactionJob r v) lr
        /\ console s'
           = console s ++
             (if prop_value (PromiseIsHandled (heap s p)) then []
              else ["HostPromiseRejectionTracker is invoked: reject"])
        /\ (forall q, q <> p -> heap s' q = heap s q)).
Proof.
  intros Ho.
  destruct (PromiseJsFacts.FulfillPromise_effect_js s p v Ho) as (lf & Hlf & Ef).
  destruct (promise_object_lists _ Ho) as (lf' & lr & _ & Hlr).
  exists lf, lr. split; [exact Hlf |]. split; [exact Hlr |].
  cbv zeta. rewrite Ef, (PromiseJsMore.RejectPromise_unfold s p v Hlr).
  cbn [fst snd].
  destruct (settled_facts s p FULFILLED v Ho) as (F1 & F2 & _ & _ & F5 & _).
  destruct (settled_facts s p REJECTED v Ho) as (R1 & R2 & _ & _ & R5 & _).
  rewrite PromiseJsMore.settled_handled.
  repeat split; auto.
  - intros q Hq. cbn [heap with_queue].
    now apply PromiseJsFacts.settled_elsewhere.
  - intros q Hq. cbn [heap with_queue with_console].
    now apply PromiseJsFacts.settled_elsewhere.
Qed.

Lemma promise_js_settlement_effect_witness :
  let s := snd (PromiseJs.FulfillPromise 0 (VNum 1)
                  (PromiseJsSpec.with_capability PromiseJsSpec.initial)) in
  state_of s 0 = FULFILLED
  /\ state_of (snd (PromiseJs.RejectPromise 0 (VStr "late") s)) 0 = REJECTED.
Proof.
  split; [reflexivity |].
  destruct (@promise_js_settlement_effect 0 (VStr "late")
              (snd (PromiseJs.FulfillPromise 0 (VNum 1)
                      (PromiseJsSpec.with_capability PromiseJsSpec.initial)))
              eq_refl)
    as (lf & lr & _ & _ & _ & (_ & B & _)).
  exact B.
Defined.

(** Property X4 (then on a receiver that is no promise), both files. Called on
    a receiver that is not a promise of the library, [then] throws the
    TypeError '!IsPromise(promise)' and changes nothing: no capability is made
    and nothing is scheduled. *)
Theorem then_rejects_other_receivers (this f r : value) (s : Part000.St)
    (sj : PromiseJs.St) :
  instanceof_Promise this = false ->
  Part000.Promise_then this f r s
  = (Thrown (VTypeError "!IsPromise(promise)"), s)
  /\ PromiseJs.Promise_then this f r sj
     = (Thrown (VTypeError "!IsPromise(promise)"), sj).
Proof.
  intros Hp. destruct this; try discriminate Hp; split; reflexivity.
Qed.

Lemma then_rejects_other_receivers_witness :
  Part000.Promise_then (VRecord (VPromise 0) VUndefined VUndefined)
    (VFunction 1) VUndefined Part000Spec.initial
  = (Thrown (VTypeError "!IsPromise(promise)"), Part000Spec.initial)
  /\ PromiseJs.Promise_then (VRecord (VPromise 0) VUndefined VUndefined)
       (VFunction 1) VUndefined PromiseJsSpec.initial
     = (Thrown (VTypeError "!IsPromise(promise)"), PromiseJsSpec.initial).
Proof.
  apply (@then_rejects_other_receivers
           (VRecord (VPromise 0) VUndefined VUndefined)).
  reflexivity.
Defined.

(** Property X5 (then on a pending promise), src/unnamed/part_000. On a
    pending promise [p], [then] returns a new promise, pending and with empty
    reaction lists, together with a new unused pair of resolving functions for
    it; it appends one Fulfill reaction to the fulfill list of [p] and one
    Reject reaction to its reject list, each holding that capability and the
    handler (undefined when the argument is not callable); it schedules
    nothing. It sets the own property [PromiseIsHandled] of [p] and leaves the
    property '[[PromiseIsHandled]]' alone, as it leaves state and result of
    [p], every other promise and every other closure. *)
Theorem then_on_pending_p0 (p : nat) (h j : value) (s : Part000.St)
    (lf lr : list Reaction) :
  is_promise_object (heap s p) = true -> p < next_promise s ->
  state_of s p = PENDING ->
  fulfillReactions_of s p = Some lf -> rejectReactions_of s p = Some lr ->
  let cap := Part000Spec.new_capability s in
  let s' := snd (Part000.Promise_then (VPromise p) h j s) in
  fst (Part000.Promise_then (VPromise p) h j s)
  = Returned (VPromise (next_promise s))
  /\ fulfillReactions_of s' p
     = Some (lf ++ [{| capability := cap; type := Fulfill;
                       handler := coerce h |}])
  /\ rejectReactions_of s' p
     = Some (lr ++ [{| capability := cap; type := Reject;
                       handler := coerce j |}])
  /\ state_of s' p = PENDING /\ result_of s' p = result_of s p
  /\ queue s' = queue s
  /\ heap s' (next_promise s) = created_promise
  /\ closures s' (next_closure s)
     = {| Part000.promise_var := next_promise s;
          Part000.alreadySettled := false |}
  /\ PromiseIsHandled_own (heap s' p) = Some true
  /\ PromiseIsHandled (heap s' p) = PromiseIsHandled (heap s p)
  /\ (forall q, q < next_promise s -> q <> p -> heap s' q = heap s q)
  /\ (forall k, k <> next_closure s -> closures s' k = closures s k).
Proof.
  intros Ho Hlt Hp Hlf Hlr.
  exact (@Part000More.then_pending_effect p h j s lf lr Ho Hlt Hp Hlf Hlr).
Qed.

Lemma then_on_pending_p0_witness :
  let s := Part000Spec.with_capability Part000Spec.initial in
  fulfillReactions_of (snd (Part000.Promise_then (VPromise 0) (VFunction 1)
                              VUndefined s)) 0
  = Some [{| capability := Part000Spec.new_capability s; type := Fulfill;
             handler := VFunction 1 |}].
Proof.
  destruct (@then_on_pending_p0 0 (VFunction 1) VUndefined
              (Part000Spec.with_capability Part000Spec.initial) [] []
              eq_refl ltac:(cbn; lia) eq_refl eq_refl eq_refl)
    as (_ & A & _).
  exact A.
Defined.

(** Property X6 (then on a settled promise), src/unnamed/part_000. On a
    settled promise [p], [then] returns a new pending promise and schedules
    exactly one job: the Fulfill reaction with the first handler when [p] is
    fulfilled, the Reject reaction with the second when [p] is rejected, with
    the stored result as argument. It registers nothing on [p] and leaves
    state and result of [p] and every other promise as they are. *)
Theorem then_on_settled_p0 (p : nat) (h j : value) (s : Part000.St) :
  p < next_promise s -> state_of s p <> PENDING ->
  let cap := Part000Spec.new_capability s in
  let s' := snd (Part000.Promise_then (VPromise p) h j s) in
  fst (Part000.Promise_then (VPromise p) h j s)
  = Returned (VPromise (next_promise s))
  /\ queue s'
     = queue s ++
       [ReactionJob
          (match state_of s p with
           | REJECTED => {| capability := cap; type := Reject;
                            handler := coerce j |}
           | _ => {| capability := cap; type := Fulfill;
                     handler := coerce h |}
           end)
          (read (result_of s p))]
  /\ state_of s' p = state_of s p /\ result_of s' p = result_of s p
  /\ fulfillReactions_of s' p = fulfillReactions_of s p
  /\ rejectReactions_of s' p = rejectReactions_of s p
  /\ heap s' (next_promise s) = created_promise
  /\ closures s' (next_closure s)
     = {| Part000.promise_var := next_promise s;
          Part000.alreadySettled := false |}
  /\ (forall q, q < next_promise s -> q <> p -> heap s' q = heap s q).
Proof.
  intros Hlt Hp. cbv zeta.
  rewrite Part000More.Promise_then_settled_eq by assumption. cbn [fst snd].
  pose proof (Part000More.with_capability_other s Hlt) as Hh.
  assert (Hn : next_promise s <> p) by lia.
  unfold fulfillReactions_of, rejectReactions_of, state_of, result_of in *.
  rewrite !heap_update_same.
  rewrite !heap_update_other by exact Hn.
  cbn [set_PromiseIsHandled_own PromiseFulfillReactions PromiseRejectReactions
       PromiseState prop_value PromiseResult heap with_queue queue].
  rewrite Hh.
  destruct (Part000More.with_capability_new s) as (N1 & N2 & _ & N4 & _).
  split; [reflexivity |].
  split.
  { cbn [update with_heap queue with_queue].
    destruct (prop_value (PromiseState (heap s p))); reflexivity. }
  repeat split; try reflexivity; try assumption.
  intros q Hq Hqp. rewrite !heap_update_other by exact Hqp.
  cbn [heap with_queue]. now apply Part000More.with_capability_other.
Qed.

Lemma then_on_settled_p0_witness :
  let s := snd (Part000.fulfillPromise 0 (VNum 5)
                  (Part000Spec.with_capability Part000Spec.initial)) in
  queue (snd (Part000.Promise_then (VPromise 0) (VFunction 1) VUndefined s))
  = [ReactionJob {| capability := Part000Spec.new_capability s;
                    type := Fulfill; handler := VFunction 1 |} (VNum 5)].
Proof.
  destruct (@then_on_settled_p0 0 (VFunction 1) VUndefined
              (snd (Part000.fulfillPromise 0 (VNum 5)
                      (Part000Spec.with_capability Part000Spec.initial)))
              ltac:(vm_compute; lia) ltac:(discriminate))
    as (_ & A & _).
  exact A.
Defined.

(** Property X7 (then on a pending promise), src/promise.js. On a pending
    promise [p], [then] of src/promise.js returns a new pending promise,
    appends one Fulfill and one Reject reaction to the lists of [p], schedules
    nothing, prints the line 'state: pending' and assigns true to
    [PromiseIsHandled]; state and result of [p] and every other promise stay
    as they are. *)
Theorem then_on_pending_js (p : nat) (h j : value) (s : PromiseJs.St)
    (lf lr : list Reaction) :
  is_promise_object (heap s p) = true -> p < next_promise s ->
  state_of s p = PENDING ->
  fulfillReactions_of s p = Some lf -> rejectReactions_of s p = Some lr ->
  let cap := PromiseJsSpec.new_capability s in
  let s' := snd (PromiseJs.Promise_then (VPromise p) h j s) in
  fst (PromiseJs.Promise_then (VPromise p) h j s)
  = Returned (VPromise (next_promise s))
  /\ fulfillReactions_of s' p
     = Some (lf ++ [{| capability := cap; type := Fulfill;
                       handler := coerce h |}])
  /\ rejectReactions_of s' p
     = Some (lr ++ [{| capability := cap; type := Reject;
                       handler := coerce j |}])
  /\ state_of s' p = PENDING /\ result_of s' p = result_of s p
  /\ queue s' = queue s
  /\ console s' = console s ++ ["state: pending"]
  /\ heap s' (next_promise s) = created_promise
  /\ PromiseIsHandled (heap s' p) = assign (PromiseIsHandled (heap s p)) true
  /\ (forall q, q < next_promise s -> q <> p -> heap s' q = heap s q).
Proof.
  intros Ho Hlt Hp Hlf Hlr. cbv zeta.
  rewrite PromiseJsFacts.Promise_then_pending_js by assumption. cbn [fst snd].
  pose proof (PromiseJsMore.with_capability_other_js s Hlt) as Hh.
  assert (Hn : next_promise s <> p) by lia.
  destruct (PromiseJsFacts.with_capability_facts_js s) as (_ & _ & Hq & _).
  unfold fulfillReactions_of, rejectReactions_of, state_of, result_of in *.
  rewrite !heap_update_same.
  rewrite !heap_update_other by exact Hn.
  cbn [set_PromiseIsHandled push_reject push_fulfill
       PromiseFulfillReactions PromiseRejectReactions PromiseState prop_value
       PromiseResult PromiseIsHandled heap with_console].
  rewrite Hh, Hlf, Hlr, Hp.
  repeat split; try reflexivity; try assumption.
  - apply PromiseJsMore.with_capability_new_js.
  - intros q Hq' Hqp. rewrite !heap_update_other by exact Hqp.
    cbn [heap with_console].
    now apply PromiseJsMore.with_capability_other_js.
Qed.

Lemma then_on_pending_js_witness :
  let s := PromiseJsSpec.with_capability PromiseJsSpec.initial in
  console (snd (PromiseJs.Promise_then (VPromise 0) (VFunction 1)
                  VUndefined s))
  = ["state: pending"].
Proof.
  destruct (@then_on_pending_js 0 (VFunction 1) VUndefined
              (PromiseJsSpec.with_capability PromiseJsSpec.initial) [] []
              eq_refl ltac:(cbn; lia) eq_refl eq_refl eq_refl)
    as (_ & _ & _ & _ & _ & _ & A & _).
  exact A.
Defined.

(** Property X8 (then on a settled promise), src/promise.js. On a settled
    promise [p], [then] of src/promise.js returns a new pending promise and
    schedules exactly one job with the stored result. It prints 'state:
    fulfilled' or 'state: rejected', and on a rejected promise whose handled
    flag is false also the line of [HostPromiseRejectionTracker] for 'handle';
    it then assigns true to [PromiseIsHandled]. The lists, state and result of
    [p] and every other promise stay as they are. *)
Theorem then_on_settled_js (p : nat) (h j : value) (s : PromiseJs.St) :
  p < next_promise s -> state_of s p <> PENDING ->
  let cap := PromiseJsSpec.new_capability s in
  let s' := snd (PromiseJs.Promise_then (VPromise p) h j s) in
  fst (PromiseJs.Promise_then (VPromise p) h j s)
  = Returned (VPromise (next_promise s))
  /\ queue s'
     = queue s ++
       [ReactionJob
          (match state_of s p with
           | REJECTED => {| capability := cap; type := Reject;
                            handler := coerce j |}
           | _ => {| capability := cap; type := Fulfill;
                     handler := coerce h |}
           end)
          (read (result_of s p))]
  /\ console s'
     = console s ++
       String.append "state: " (PromiseJs.state_name (state_of s p)) ::
       match state_of s p with
       | REJECTED =>
           if prop_value (PromiseIsHandled (heap s p)) then []
           else ["HostPromiseRejectionTracker is invoked: handle"]
       | _ => []
       end
  /\ state_of s' p = state_of s p /\ result_of s' p = result_of s p
  /\ fulfillReactions_of s' p = fulfillReactions_of s p
  /\ rejectReactions_of s' p = rejectReactions_of s p
  /\ heap s' (next_promise s) = created_promise
  /\ PromiseIsHandled (heap s' p) = assign (PromiseIsHandled (heap s p)) true
  /\ (forall q, q < next_promise s -> q <> p -> heap s' q = heap s q).
Proof.
  intros Hlt Hp. cbv zeta.
  rewrite PromiseJsMore.Promise_then_settled_eq_js by assumption.
  cbn [fst snd].
  pose proof (PromiseJsMore.with_capability_other_js s Hlt) as Hh.
  assert (Hn : next_promise s <> p) by lia.
  unfold fulfillReactions_of, rejectReactions_of, state_of, result_of in *.
  rewrite !heap_update_same.
  rewrite !heap_update_other by exact Hn.
  cbn [set_PromiseIsHandled PromiseFulfillReactions PromiseRejectReactions
       PromiseState prop_value PromiseResult PromiseIsHandled heap with_queue
       with_console queue].
  rewrite Hh.
  split; [reflexivity |].
  split.
  { cbn [update with_heap queue with_queue].
    destruct (prop_value (PromiseState (heap s p))); reflexivity. }
  repeat split; try reflexivity.
  - apply PromiseJsMore.with_capability_new_js.
  - intros q Hq Hqp. rewrite !heap_update_other by exact Hqp.
    cbn [heap with_queue with_console].
    now apply PromiseJsMore.with_capability_other_js.
Qed.

Lemma then_on_settled_js_witness :
  let s := snd (PromiseJs.RejectPromise 0 (VStr "no")
                  (PromiseJsSpec.with_capability PromiseJsSpec.initial)) in
  console (snd (PromiseJs.Promise_then (VPromise 0) VUndefined (VFunction 3) s))
  = ["HostPromiseRejectionTracker is invoked: reject"; "state: rejected";
     "HostPromiseRejectionTracker is invoked: handle"].
Proof.
  destruct (@then_on_settled_js 0 VUndefined (VFunction 3)
              (snd (PromiseJs.RejectPromise 0 (VStr "no")
                      (PromiseJsSpec.with_capability PromiseJsSpec.initial)))
              ltac:(vm_compute; lia) ltac:(discriminate))
    as (_ & _ & A & _).
  exact A.
Defined.

(** Property X9 (Promise.deferred), both files. [Promise.deferred], on any
    heap, returns the record of a new promise and its resolving functions and
    never throws (neither TypeError of [newPromiseCapability] can be reached).
    The promise is new, pending and has empty lists; the closure variables of
    the functions hold that promise and a false flag; the closures that
    existed, the queue, the log of calls and the console stay as they are. In
    src/unnamed/part_000 the two functions share one environment, in
    src/promise.js each has its own. *)
Theorem deferred_always_returns (s : Part000.St) (sj : PromiseJs.St) :
  (let s' := snd (Part000.Promise_deferred s) in
   fst (Part000.Promise_deferred s)
   = Returned (VRecord (VPromise (next_promise s))
                 (VNative (ResolveFn (next_closure s)))
                 (VNative (RejectFn (next_closure s))))
   /\ heap s' = override (heap s) (next_promise s) created_promise
   /\ next_promise s' = S (next_promise s)
   /\ closures s'
      = override (closures s) (next_closure s)
          {| Part000.promise_var := next_promise s;
             Part000.alreadySettled := false |}
   /\ next_closure s' = S (next_closure s)
   /\ queue s' = queue s /\ ran s' = ran s /\ calls s' = calls s
   /\ console s' = console s)
  /\ (let s' := snd (PromiseJs.Promise_deferred sj) in
      fst (PromiseJs.Promise_deferred sj)
      = Returned (VRecord (VPromise (next_promise sj))
                    (VNative (ResolveFn (next_closure sj)))
                    (VNative (RejectFn (S (next_closure sj)))))
      /\ heap s' = override (heap sj) (next_promise sj) created_promise
      /\ next_promise s' = S (next_promise sj)
      /\ closures s' (next_closure sj)
         = {| PromiseJs.Promise_var := Some (next_promise sj);
              PromiseJs.AlreadyResolved_var := Some false |}
      /\ closures s' (S (next_closure sj))
         = {| PromiseJs.Promise_var := Some (next_promise sj);
              PromiseJs.AlreadyResolved_var := Some false |}
      /\ (forall c, c < next_closure sj -> closures s' c = closures sj c)
      /\ next_closure s' = S (S (next_closure sj))
      /\ queue s' = queue sj /\ ran s' = ran sj /\ calls s' = calls sj
      /\ console s' = console sj).
Proof.
  split.
  - cbv zeta. unfold Part000.Promise_deferred, bind.
    rewrite Part000Facts.newPromiseCapability_effect. cbn.
    repeat split.
  - cbv zeta. unfold PromiseJs.Promise_deferred, bind.
    rewrite PromiseJsFacts.NewPromiseCapability_effect_js.
    destruct (PromiseJsFacts.with_capability_facts_js sj)
      as (A & B & C & D & E).
    cbn [fst snd]. repeat split; try assumption.
    intros c Hc. cbn. unfold override.
    destruct (Nat.eqb_spec c (S (next_closure sj))) as [-> | _]; [lia |].
    destruct (Nat.eqb_spec c (next_closure sj)) as [-> | _]; [lia |].
    cbn. destruct (Nat.eqb_spec c (S (next_closure sj))) as [-> | _]; [lia |].
    destruct (Nat.eqb_spec c (next_closure sj)) as [-> | _]; [lia |].
    reflexivity.
Qed.

(** Property X10 (Promise.reject), both files. [Promise.reject(r)], for every
    value [r] (a thenable or a promise too: nothing is unwrapped), returns a
    new promise that is already rejected with [r]; it schedules nothing and
    leaves the other promises alone. src/promise.js also prints the line of
    [HostPromiseRejectionTracker] for 'reject'. *)
Theorem static_reject_rejects (H : Host) (r : value) (s : Part000.St)
    (sj : PromiseJs.St) :
  (let s' := snd (Part000.Promise_reject H r s) in
   fst (Part000.Promise_reject H r s) = Returned (VPromise (next_promise s))
   /\ state_of s' (next_promise s) = REJECTED
   /\ result_of s' (next_promise s) = Some r
   /\ queue s' = queue s
   /\ (forall q, q <> next_promise s -> heap s' q = heap s q))
  /\ (let s' := snd (PromiseJs.Promise_reject H r sj) in
      fst (PromiseJs.Promise_reject H r sj)
      = Returned (VPromise (next_promise sj))
      /\ state_of s' (next_promise sj) = REJECTED
      /\ result_of s' (next_promise sj) = Some r
      /\ queue s' = queue sj
      /\ console s'
         = console sj ++ ["HostPromiseRejectionTracker is invoked: reject"]
      /\ (forall q, q <> next_promise sj -> heap s' q = heap sj q)).
Proof.
  split.
  - cbv zeta. rewrite Part000More.Promise_reject_eq. cbn [fst snd].
    set (s1 := Part000Spec.capability_made _ _ _ s).
    destruct (Part000Facts.capability_made_facts
                (RejectFn (next_closure s))
                (capability_object (Part000Spec.new_capability s)) [r] s)
      as (Hc & Hh & Hq). fold s1 in Hc, Hh, Hq.
    assert (Ho : is_promise_object (heap s1 (next_promise s)) = true)
      by now rewrite Hh.
    destruct (@Part000More.settled_by_facts (next_closure s) (next_promise s)
                REJECTED r [] s1 Ho) as (F1 & F2 & F3 & F4 & _).
    split; [reflexivity |]. split; [exact F1 |]. split; [exact F2 |].
    split; [rewrite F3, Hq; cbn; now rewrite app_nil_r |].
    intros q Hne. rewrite (F4 q Hne). cbn. now apply override_other.
  - cbv zeta. rewrite PromiseJsMore.Promise_reject_unfold_js.
    destruct (PromiseJsFacts.with_capability_facts_js sj)
      as (Hheap & Hnext & Hq & _ & Hc).
    set (s2 := update_closure _ _ _).
    assert (Hh2 : heap s2 = override (heap sj) (next_promise sj) created_promise)
      by exact Hheap.
    assert (Ho : is_promise_object (heap s2 (next_promise sj)) = true)
      by (rewrite Hh2, override_same; reflexivity).
    assert (Hl : rejectReactions_of s2 (next_promise sj) = Some [])
      by (unfold rejectReactions_of; rewrite Hh2, override_same; reflexivity).
    rewrite (PromiseJsMore.RejectPromise_unfold s2 (next_promise sj) r Hl).
    cbn [fst snd].
    destruct (settled_facts s2 (next_promise sj) REJECTED r Ho)
      as (F1 & F2 & _ & _ & F5 & _).
    rewrite PromiseJsMore.settled_handled, Hh2, override_same.
    cbn [created_promise PromiseIsHandled prop_value].
    split; [reflexivity |]. split; [exact F1 |]. split; [exact F2 |].
    split; [cbn [queue with_queue]; cbn; rewrite app_nil_r; exact Hq |].
    split; [reflexivity |].
    intros q Hne. cbn [heap with_queue with_console].
    rewrite PromiseJsFacts.settled_elsewhere by exact Hne.
    rewrite Hh2. now apply override_other.
Qed.

(** Property X11 (the constructor runs the executor at once),
    src/unnamed/part_000. Called with [new] and a callable executor on a
    well-formed heap, the constructor returns the new promise and never
    throws, whatever the executor does: the executor is called synchronously,
    first of all calls, with receiver undefined and the two resolving
    functions of the new promise, and what it throws is caught. *)
Theorem constructor_runs_executor_p0 (H : Host) (executor : value)
    (s : Part000.St) :
  well_formed s -> isCallable executor = true ->
  let s' := snd (Part000.Promise H true executor s) in
  fst (Part000.Promise H true executor s)
  = Returned (VPromise (next_promise s))
  /\ well_formed s'
  /\ next_promise s < next_promise s'
  /\ exists rest,
       calls s'
       = calls s ++
         {| callee := executor; receiver := VUndefined;
            arguments := [VNative (ResolveFn (next_closure s));
                          VNative (RejectFn (next_closure s))] |} :: rest.
Proof.
  intros Hs Hc. cbv zeta.
  rewrite Part000More.Promise_unfold by exact Hc.
  pose proof (Part000More.with_capability_well_formed Hs) as W0.
  destruct (@Part000More.call_logs_first H executor VUndefined
              [VNative (ResolveFn (next_closure s));
               VNative (RejectFn (next_closure s))]
              (Part000Spec.with_capability s) W0 Hc)
    as (W1 & (G1 & _) & rest & Hcalls).
  pose proof (grows_promises G1) as Hn. cbn [next_promise
    Part000Spec.with_capability with_closures with_heap] in Hn.
  destruct (Part000.call H executor VUndefined _ _) as [[u | e] s1];
    cbn [fst snd] in *.
  - split; [reflexivity |]. split; [exact W1 |]. split; [lia |].
    exists rest. exact Hcalls.
  - destruct (Part000Facts.reject_returns (next_closure s) e W1) as (s2 & E).
    destruct (Part000Facts.reject_ok (next_closure s) e W1) as (W2 & (G2 & _)).
    destruct (@Part000Facts.reject_quiet (next_closure s) e s1 I)
      as (_ & Q & _).
    rewrite E in *. cbn [fst snd] in *.
    split; [reflexivity |]. split; [exact W2 |].
    split; [pose proof (grows_promises G2); lia |].
    exists rest. rewrite Q. exact Hcalls.
Qed.

Lemma constructor_runs_executor_p0_witness :
  fst (Part000.Promise demo_host true (VFunction 2) Part000Spec.initial)
  = Returned (VPromise 0).
Proof.
  destruct (@constructor_runs_executor_p0 demo_host (VFunction 2)
              Part000Spec.initial Part000Facts.initial_well_formed eq_refl)
    as (A & _).
  exact A.
Defined.

(** Property X12 (what the executor decides), src/unnamed/part_000. An
    executor that throws [e] at once leaves the new promise rejected with [e];
    an executor that calls its resolve with a plain value [v] leaves it
    fulfilled with [v], whether it then returns or throws (the throw is
    swallowed, the pair being used). Nothing is scheduled. *)
Theorem executor_outcome_p0 (H : Host) (f : nat) (s : Part000.St) :
  well_formed s ->
  let n := next_promise s in
  let args := [VNative (ResolveFn (next_closure s));
               VNative (RejectFn (next_closure s))] in
  let s' := snd (Part000.Promise H true (VFunction f) s) in
  (forall e, body H f VUndefined args = Ret (Thrown e) ->
     state_of s' n = REJECTED /\ result_of s' n = Some e
     /\ queue s' = queue s)
  /\ (forall this v r, plain_value H v = true ->
        body H f VUndefined args
        = Invoke (ResolveFn (next_closure s)) this [v] (fun _ => Ret r) ->
        state_of s' n = FULFILLED /\ result_of s' n = Some v
        /\ queue s' = queue s).
Proof.
  intros Hs. cbv zeta.
  set (s0 := with_calls
               (calls (Part000Spec.with_capability s) ++
                [{| callee := VFunction f; receiver := VUndefined;
                    arguments := [VNative (ResolveFn (next_closure s));
                                  VNative (RejectFn (next_closure s))] |}])
               (Part000Spec.with_capability s)).
  destruct (Part000More.with_capability_new s) as (N1 & N2 & _ & N4 & _).
  assert (Hc0 : closures s0 (next_closure s)
                = {| Part000.promise_var := next_promise s;
                     Part000.alreadySettled := false |}) by exact N2.
  assert (Hh0 : heap s0 (next_promise s) = created_promise) by exact N1.
  assert (Hq0 : queue s0 = queue s) by exact N4.
  assert (Ho0 : is_promise_object (heap s0 (next_promise s)) = true)
    by now rewrite Hh0.
  assert (Hp0 : state_of s0 (next_promise s) = PENDING)
    by (unfold state_of; now rewrite Hh0).
  split.
  - intros e Hb.
    destruct (@Part000More.reject_eq (next_closure s) e s0) as (l & Hl & E);
      try (rewrite Hc0; first [reflexivity | assumption]).
    rewrite Hc0 in Hl, E. cbn [Part000.promise_var] in Hl, E.
    unfold rejectReactions_of in Hl. rewrite Hh0 in Hl. injection Hl as <-.
    assert (E' : Part000.Promise H true (VFunction f) s
                 = (Returned (VPromise (next_promise s)),
                    settled_by (next_closure s) (next_promise s) REJECTED e []
                      s0)).
    { rewrite Part000More.Promise_unfold by reflexivity.
      rewrite Part000More.call_function. fold s0. rewrite Hb.
      cbn [Part000.exec lift]. now rewrite E. }
    rewrite E'. cbn [snd].
    destruct (@Part000More.settled_by_facts (next_closure s) (next_promise s)
                REJECTED e [] s0 Ho0) as (F1 & F2 & F3 & _).
    split; [exact F1 |]. split; [exact F2 |].
    rewrite F3, Hq0. cbn. now rewrite app_nil_r.
  - intros this v r Hv Hb.
    destruct (@Part000More.resolve_plain_eq H (next_closure s) v s0)
      as (l & Hl & E);
      try (rewrite Hc0; first [reflexivity | assumption]); try assumption.
    rewrite Hc0 in Hl, E. cbn [Part000.promise_var] in Hl, E.
    unfold fulfillReactions_of in Hl. rewrite Hh0 in Hl. injection Hl as <-.
    destruct (@Part000More.settled_by_facts (next_closure s) (next_promise s)
                FULFILLED v [] s0 Ho0) as (F1 & F2 & F3 & _ & F5 & _).
    set (s1 := settled_by _ _ _ _ _ s0) in *.
    assert (Hused : Part000.alreadySettled (closures s1 (next_closure s))
                    = true)
      by (rewrite F5, override_same; reflexivity).
    assert (E' : Part000.Promise H true (VFunction f) s
                 = (Returned (VPromise (next_promise s)), s1)).
    { rewrite Part000More.Promise_unfold by reflexivity.
      rewrite Part000More.call_function. fold s0. rewrite Hb.
      cbn [Part000.exec Part000.call_native argument nth].
      unfold bind at 1. unfold attempt. rewrite E.
      cbn [Part000.exec lift].
      destruct r as [u | e]; [reflexivity |].
      now rewrite (Part000Facts.reject_used (next_closure s) e s1 Hused). }
    rewrite E'. cbn [snd].
    split; [exact F1 |]. split; [exact F2 |].
    rewrite F3, Hq0. cbn. now rewrite app_nil_r.
Qed.

Lemma executor_outcome_p0_witness :
  (let s' := snd (Part000.Promise (throwing_host (VStr "boom")) true
                    (VFunction 0) Part000Spec.initial) in
   state_of s' 0 = REJECTED /\ result_of s' 0 = Some (VStr "boom")
   /\ queue s' = [])
  /\ (let s' := snd (Part000.Promise demo_host true (VFunction 2)
                       Part000Spec.initial) in
      state_of s' 0 = FULFILLED /\ result_of s' 0 = Some (VNum 1)
      /\ queue s' = []).
Proof.
  split.
  - destruct (@executor_outcome_p0 (throwing_host (VStr "boom")) 0
                Part000Spec.initial Part000Facts.initial_well_formed)
      as (A & _).
    exact (A (VStr "boom") eq_refl).
  - destruct (@executor_outcome_p0 demo_host 2
                Part000Spec.initial Part000Facts.initial_well_formed)
      as (_ & B).
    exact (B VUndefined (VNum 1) (Thrown (VStr "late")) eq_refl eq_refl).
Defined.



(** Property X14 (what the executor decides), src/promise.js. In
    src/promise.js an executor that throws [e] at once leaves the new promise
    rejected with [e] and the tracker line printed; one that calls its resolve
    with a value the function takes as it is and returns leaves it fulfilled
    with that value; one that calls resolve and then throws [e] leaves it
    rejected with [e], the reject function having its own flag. *)
Theorem executor_outcome_js (H : Host) (f : nat) (s : PromiseJs.St) :
  well_formed s ->
  let n := next_promise s in
  let args := [VNative (ResolveFn (next_closure s));
               VNative (RejectFn (S (next_closure s)))] in
  let s' := snd (PromiseJs.Promise H true (VFunction f) s) in
  (forall e, body H f VUndefined args = Ret (Thrown e) ->
     state_of s' n = REJECTED /\ result_of s' n = Some e
     /\ queue s' = queue s
     /\ console s'
        = console s ++ ["HostPromiseRejectionTracker is invoked: reject"])
  /\ (forall this v u, fulfills_directly_js H v = true ->
        body H f VUndefined args
        = Invoke (ResolveFn (next_closure s)) this [v]
            (fun _ => Ret (Returned u)) ->
        state_of s' n = FULFILLED /\ result_of s' n = Some v
        /\ queue s' = queue s /\ console s' = console s)
  /\ (forall this v e, fulfills_directly_js H v = true ->
        body H f VUndefined args
        = Invoke (ResolveFn (next_closure s)) this [v]
            (fun _ => Ret (Thrown e)) ->
        state_of s' n = REJECTED /\ result_of s' n = Some e
        /\ queue s' = queue s).
Proof.
  intros Hs. cbv zeta.
  set (c := next_closure s). set (n := next_promise s).
  set (s0 := with_calls
               (calls (PromiseJsSpec.with_capability s) ++
                [{| callee := VFunction f; receiver := VUndefined;
                    arguments := [VNative (ResolveFn c);
                                  VNative (RejectFn (S c))] |}])
               (PromiseJsSpec.with_capability s)).
  destruct (PromiseJsMore.executor_heap_js s
              (calls (PromiseJsSpec.with_capability s) ++
               [{| callee := VFunction f; receiver := VUndefined;
                   arguments := [VNative (ResolveFn c);
                                 VNative (RejectFn (S c))] |}]))
    as (C1 & C2 & Hh & Hq & Hcon).
  fold s0 c n in C1, C2, Hh, Hq, Hcon.
  assert (Ho0 : is_promise_object (heap s0 n) = true) by now rewrite Hh.
  assert (U : forall b,
            body H f VUndefined [VNative (ResolveFn c);
                                 VNative (RejectFn (S c))] = b ->
            PromiseJs.Promise H true (VFunction f) s
            = match PromiseJs.exec H b s0 with
              | (Returned _, s1) => (Returned (VPromise n), s1)
              | (Thrown e, s1) =>
                  match PromiseJs.reject_Function (S c) e s1 with
                  | (Returned _, s2) => (Returned (VPromise n), s2)
                  | (Thrown e', s2) => (Thrown e', s2)
                  end
              end).
  { intros b <-. rewrite PromiseJsMore.Promise_unfold_js by reflexivity.
    reflexivity. }
  split; [| split].
  - intros e Hb.
    destruct (@PromiseJsMore.reject_Function_first_js (S c) n e s0 C2 Ho0)
      as (R0 & R1 & R2 & (lr & Hlr & R3) & R4 & _).
    unfold rejectReactions_of in Hlr. rewrite Hh in Hlr.
    injection Hlr as <-.
    assert (E' : snd (PromiseJs.Promise H true (VFunction f) s)
                 = snd (PromiseJs.reject_Function (S c) e s0)).
    { rewrite (U _ Hb). cbn [PromiseJs.exec lift].
      destruct (PromiseJs.reject_Function (S c) e s0) as [[u | e'] s2];
        reflexivity. }
    rewrite E'.
    split; [exact R1 |]. split; [exact R2 |].
    split; [rewrite R3, Hq; cbn; now rewrite app_nil_r |].
    rewrite R4, Hh, Hcon. reflexivity.
  - intros this v u Hv Hb.
    destruct (@PromiseJsMore.resolve_Function_first_js H c n v s0 C1 Ho0 Hv)
      as (lf & Hlf & E).
    unfold fulfillReactions_of in Hlf. rewrite Hh in Hlf.
    injection Hlf as <-.
    set (sF := update_closure c _ s0) in E.
    set (s1 := with_queue _ (settled n FULFILLED v sF)) in E.
    assert (E' : snd (PromiseJs.Promise H true (VFunction f) s) = s1).
    { rewrite (U _ Hb).
      cbn [PromiseJs.exec PromiseJs.call_native argument nth].
      unfold bind at 1. unfold attempt. rewrite E. reflexivity. }
    rewrite E'.
    assert (HoF : is_promise_object (heap sF n) = true) by exact Ho0.
    destruct (settled_facts sF n FULFILLED v HoF) as (F1 & F2 & _).
    split; [exact F1 |]. split; [exact F2 |].
    split; [cbn; rewrite app_nil_r; exact Hq | exact Hcon].
  - intros this v e Hv Hb.
    destruct (@PromiseJsMore.resolve_Function_first_js H c n v s0 C1 Ho0 Hv)
      as (lf & Hlf & E).
    unfold fulfillReactions_of in Hlf. rewrite Hh in Hlf.
    injection Hlf as <-.
    set (sF := update_closure c _ s0) in E.
    set (s1 := with_queue _ (settled n FULFILLED v sF)) in E.
    assert (HoF : is_promise_object (heap sF n) = true) by exact Ho0.
    assert (C2' : closures s1 (S c)
                  = {| PromiseJs.Promise_var := Some n;
                       PromiseJs.AlreadyResolved_var := Some false |}).
    { destruct (settled_facts sF n FULFILLED v HoF)
        as (_ & _ & _ & _ & _ & F6 & _).
      cbn [closures with_queue s1]. rewrite F6. cbn.
      rewrite override_other by lia. exact C2. }
    assert (W1 : is_promise_object (heap s1 n) = true).
    { assert (WF : well_formed sF)
        by exact (PromiseJsMore.with_capability_well_formed_js Hs).
      destruct (PromiseJsFacts.settled_grows n FULFILLED v WF) as (W & _).
      exact (W n). }
    destruct (@PromiseJsMore.reject_Function_first_js (S c) n e s1 C2' W1)
      as (R0 & R1 & R2 & (lr & Hlr & R3) & _).
    destruct (settled_facts sF n FULFILLED v HoF)
      as (_ & _ & _ & F4 & F5 & _).
    assert (Hlr' : lr = []).
    { unfold rejectReactions_of in *. cbn [heap with_queue s1] in Hlr.
      rewrite F4 in Hlr. change (heap sF n) with (heap s0 n) in Hlr.
      rewrite Hh in Hlr. now injection Hlr as <-. }
    subst lr.
    assert (E' : snd (PromiseJs.Promise H true (VFunction f) s)
                 = snd (PromiseJs.reject_Function (S c) e s1)).
    { rewrite (U _ Hb).
      cbn [PromiseJs.exec PromiseJs.call_native argument nth].
      unfold bind at 1. unfold attempt. rewrite E.
      cbn [PromiseJs.exec lift].
      destruct (PromiseJs.reject_Function (S c) e s1) as [[u | e'] s2];
        reflexivity. }
    rewrite E'.
    split; [exact R1 |]. split; [exact R2 |].
    rewrite R3. cbn [queue with_queue s1]. cbn. rewrite !app_nil_r.
    exact Hq.
Qed.

Lemma executor_outcome_js_witness :
  (let s' := snd (PromiseJs.Promise (throwing_host (VStr "boom")) true
                    (VFunction 0) PromiseJsSpec.initial) in
   state_of s' 0 = REJECTED /\ result_of s' 0 = Some (VStr "boom"))
  /\ (let s' := snd (PromiseJs.Promise demo_host true (VFunction 2)
                       PromiseJsSpec.initial) in
      state_of s' 0 = REJECTED /\ result_of s' 0 = Some (VStr "late")).
Proof.
  split.
  - destruct (@executor_outcome_js (throwing_host (VStr "boom")) 0
                PromiseJsSpec.initial PromiseJsFacts.initial_well_formed_js)
      as (A & _).
    destruct (A (VStr "boom") eq_refl) as (B & C & _). exact (conj B C).
  - destruct (@executor_outcome_js demo_host 2
                PromiseJsSpec.initial PromiseJsFacts.initial_well_formed_js)
      as (_ & _ & A).
    destruct (A VUndefined (VNum 1) (VStr "late") eq_refl eq_refl)
      as (B & C & _).
    exact (conj B C).
Defined.

(** Property X15 (a reaction without handler passes its argument on),
    src/unnamed/part_000. A reaction job without handler, for a capability
    whose promise is pending and whose pair is unused, passes its argument on:
    a Fulfill reaction with a plain argument leaves the downstream promise
    fulfilled with it, a Reject reaction leaves it rejected with it, and the
    reactions registered on the downstream promise are scheduled. *)
Theorem reaction_job_passes_through_p0 (H : Host) (R : Reaction) (a : value)
    (c q : nat) (s : Part000.St) :
  is_promise_object (heap s q) = true -> state_of s q = PENDING ->
  closures s c
  = {| Part000.promise_var := q; Part000.alreadySettled := false |} ->
  capability R = {| cap_promise := VPromise q;
                    cap_resolve := VNative (ResolveFn c);
                    cap_reject := VNative (RejectFn c) |} ->
  truthy (handler R) = false ->
  let out := Part000.promiseReactionJob H R a s in
  (type R = Fulfill -> plain_value H a = true ->
   exists lf, fulfillReactions_of s q = Some lf
     /\ fst out = Returned VUndefined
     /\ state_of (snd out) q = FULFILLED /\ result_of (snd out) q = Some a
     /\ queue (snd out) = queue s ++ map (fun r => ReactionJob r a) lf)
  /\ (type R = Reject ->
      exists lr, rejectReactions_of s q = Some lr
        /\ fst out = Returned VUndefined
        /\ state_of (snd out) q = REJECTED /\ result_of (snd out) q = Some a
        /\ queue (snd out) = queue s ++ map (fun r => ReactionJob r a) lr).
Proof.
  intros Ho Hp Hc Hcap Hh. cbv zeta. split.
  - intros Ht Ha.
    destruct (@Part000More.job_passes_value_on H c q s Ho Hp Hc R a Hcap Hh
                Ht Ha) as (lf & l & Hl & E).
    exists lf. split; [exact Hl |]. rewrite E. cbn [fst snd].
    destruct (@Part000More.settled_by_facts c q FULFILLED a lf
                (with_calls l s) Ho) as (F1 & F2 & F3 & _).
    repeat split; assumption.
  - intros Ht.
    destruct (@Part000More.job_passes_reason_on H c q s Ho Hp Hc R a Hcap Hh
                Ht) as (lr & l & Hl & E).
    exists lr. split; [exact Hl |]. rewrite E. cbn [fst snd].
    destruct (@Part000More.settled_by_facts c q REJECTED a lr
                (with_calls l s) Ho) as (F1 & F2 & F3 & _).
    repeat split; assumption.
Qed.

Lemma reaction_job_passes_through_p0_witness :
  let s0 := Part000Spec.with_capability Part000Spec.initial in
  let s := snd (Part000.Promise_then (VPromise 0) VUndefined VUndefined s0) in
  let cap := Part000Spec.new_capability s0 in
  state_of (snd (Part000.promiseReactionJob demo_host
                   {| capability := cap; type := Fulfill;
                      handler := VUndefined |} (VNum 5) s)) 1 = FULFILLED
  /\ state_of (snd (Part000.promiseReactionJob demo_host
                      {| capability := cap; type := Reject;
                         handler := VUndefined |} (VStr "no") s)) 1
     = REJECTED.
Proof.
  split.
  - destruct (@reaction_job_passes_through_p0 demo_host
                {| capability := Part000Spec.new_capability
                     (Part000Spec.with_capability Part000Spec.initial);
                   type := Fulfill; handler := VUndefined |} (VNum 5) 1 1
                (snd (Part000.Promise_then (VPromise 0) VUndefined VUndefined
                        (Part000Spec.with_capability Part000Spec.initial)))
                eq_refl eq_refl eq_refl eq_refl eq_refl) as (A & _).
    destruct (A eq_refl eq_refl) as (lf & _ & _ & B & _). exact B.
  - destruct (@reaction_job_passes_through_p0 demo_host
                {| capability := Part000Spec.new_capability
                     (Part000Spec.with_capability Part000Spec.initial);
                   type := Reject; handler := VUndefined |} (VStr "no") 1 1
                (snd (Part000.Promise_then (VPromise 0) VUndefined VUndefined
                        (Part000Spec.with_capability Part000Spec.initial)))
                eq_refl eq_refl eq_refl eq_refl eq_refl) as (_ & A).
    destruct (A eq_refl) as (lr & _ & _ & B & _). exact B.
Defined.

(** Property X16 (the handler's completion settles the downstream promise),
    src/unnamed/part_000. A reaction job with a handler that returns a plain
    value [w] leaves the downstream promise fulfilled with [w], whatever the
    type of the reaction (so a rejection handler that returns recovers the
    chain); a handler that throws [e] leaves it rejected with [e]. *)
Theorem reaction_job_handler_decides_p0 (H : Host) (R : Reaction)
    (a : value) (f c q : nat) (s : Part000.St) :
  is_promise_object (heap s q) = true -> state_of s q = PENDING ->
  closures s c
  = {| Part000.promise_var := q; Part000.alreadySettled := false |} ->
  capability R = {| cap_promise := VPromise q;
                    cap_resolve := VNative (ResolveFn c);
                    cap_reject := VNative (RejectFn c) |} ->
  handler R = VFunction f ->
  let out := Part000.promiseReactionJob H R a s in
  (forall w, body H f VUndefined [a] = Ret (Returned w) ->
     plain_value H w = true ->
     exists lf, fulfillReactions_of s q = Some lf
       /\ fst out = Returned VUndefined
       /\ state_of (snd out) q = FULFILLED /\ result_of (snd out) q = Some w
       /\ queue (snd out) = queue s ++ map (fun r => ReactionJob r w) lf)
  /\ (forall e, body H f VUndefined [a] = Ret (Thrown e) ->
      exists lr, rejectReactions_of s q = Some lr
        /\ fst out = Returned VUndefined
        /\ state_of (snd out) q = REJECTED /\ result_of (snd out) q = Some e
        /\ queue (snd out) = queue s ++ map (fun r => ReactionJob r e) lr).
Proof.
  intros Ho Hp Hc Hcap Hh. cbv zeta. split.
  - intros w Hb Hw.
    destruct (@Part000More.job_settles_with_handler_result H c q s Ho Hp Hc
                R a Hcap f w Hh Hb Hw) as (lf & l & Hl & E).
    exists lf. split; [exact Hl |]. rewrite E. cbn [fst snd].
    destruct (@Part000More.settled_by_facts c q FULFILLED w lf
                (with_calls l s) Ho) as (F1 & F2 & F3 & _).
    repeat split; assumption.
  - intros e Hb.
    destruct (@Part000More.job_settles_with_handler_error H c q s Ho Hp Hc
                R a Hcap f e Hh Hb) as (lr & l & Hl & E).
    exists lr. split; [exact Hl |]. rewrite E. cbn [fst snd].
    destruct (@Part000More.settled_by_facts c q REJECTED e lr
                (with_calls l s) Ho) as (F1 & F2 & F3 & _).
    repeat split; assumption.
Qed.

Lemma reaction_job_handler_decides_p0_witness :
  let s0 := Part000Spec.with_capability Part000Spec.initial in
  let s := snd (Part000.Promise_then (VPromise 0) VUndefined (VFunction 3)
                  s0) in
  let R := {| capability := Part000Spec.new_capability s0; type := Reject;
              handler := VFunction 3 |} in
  state_of (snd (Part000.promiseReactionJob demo_host R (VStr "no") s)) 1
  = FULFILLED
  /\ result_of (snd (Part000.promiseReactionJob demo_host R (VStr "no") s)) 1
     = Some VNull
  /\ state_of (snd (Part000.promiseReactionJob (throwing_host (VStr "boom"))
                      R (VStr "no") s)) 1 = REJECTED.
Proof.
  destruct (@reaction_job_handler_decides_p0 demo_host
              {| capability := Part000Spec.new_capability
                   (Part000Spec.with_capability Part000Spec.initial);
                 type := Reject; handler := VFunction 3 |} (VStr "no") 3 1 1
              (snd (Part000.Promise_then (VPromise 0) VUndefined (VFunction 3)
                      (Part000Spec.with_capability Part000Spec.initial)))
              eq_refl eq_refl eq_refl eq_refl eq_refl) as (A & _).
  destruct (A VNull eq_refl eq_refl) as (lf & _ & _ & B & C & _).
  destruct (@reaction_job_handler_decides_p0 (throwing_host (VStr "boom"))
              {| capability := Part000Spec.new_capability
                   (Part000Spec.with_capability Part000Spec.initial);
                 type := Reject; handler := VFunction 3 |} (VStr "no") 3 1 1
              (snd (Part000.Promise_then (VPromise 0) VUndefined (VFunction 3)
                      (Part000Spec.with_capability Part000Spec.initial)))
              eq_refl eq_refl eq_refl eq_refl eq_refl) as (_ & A').
  destruct (A' (VStr "boom") eq_refl) as (lr & _ & _ & D & _).
  exact (conj B (conj C D)).
Defined.

(** Property X17 (the reaction job and the downstream promise),
    src/promise.js. For a capability of src/promise.js with unused functions:
    without handler a Fulfill reaction fulfills the downstream promise with an
    argument the resolve function takes as it is, and lets the TypeError of
    reading [then] escape the job when the argument is null or has a throwing
    [then]; a Reject reaction rejects it. With a handler, a returned value of
    the first kind fulfills the downstream promise, a returned value whose
    [then] cannot be read rejects it with that error (so a handler returning
    null rejects), and a throw rejects it. *)
Theorem reaction_job_settles_downstream_js (H : Host) (R : Reaction)
    (a : value) (c c' q : nat) (s : PromiseJs.St) :
  is_promise_object (heap s q) = true -> c <> c' ->
  closures s c = {| PromiseJs.Promise_var := Some q;
                    PromiseJs.AlreadyResolved_var := Some false |} ->
  closures s c' = {| PromiseJs.Promise_var := Some q;
                     PromiseJs.AlreadyResolved_var := Some false |} ->
  capability R = {| cap_promise := VPromise q;
                    cap_resolve := VNative (ResolveFn c);
                    cap_reject := VNative (RejectFn c') |} ->
  let out := PromiseJs.PromiseReactionJob H R a s in
  (handler R = VUndefined -> type R = Fulfill ->
   fulfills_directly_js H a = true ->
   fst out = Returned VUndefined
   /\ state_of (snd out) q = FULFILLED /\ result_of (snd out) q = Some a)
  /\ (handler R = VUndefined -> type R = Fulfill ->
      forall e, PromiseJs.isObject a = true -> get_then H a = Thrown e ->
      fst out = Thrown e /\ heap (snd out) = heap s)
  /\ (handler R = VUndefined -> type R = Reject ->
      fst out = Returned VUndefined
      /\ state_of (snd out) q = REJECTED /\ result_of (snd out) q = Some a)
  /\ (forall f w, handler R = VFunction f ->
      body H f VUndefined [a] = Ret (Returned w) ->
      fulfills_directly_js H w = true ->
      fst out = Returned VUndefined
      /\ state_of (snd out) q = FULFILLED /\ result_of (snd out) q = Some w)
  /\ (forall f w e, handler R = VFunction f ->
      body H f VUndefined [a] = Ret (Returned w) ->
      PromiseJs.isObject w = true -> get_then H w = Thrown e ->
      fst out = Returned VUndefined
      /\ state_of (snd out) q = REJECTED /\ result_of (snd out) q = Some e)
  /\ (forall f e, handler R = VFunction f ->
      body H f VUndefined [a] = Ret (Thrown e) ->
      fst out = Returned VUndefined
      /\ state_of (snd out) q = REJECTED /\ result_of (snd out) q = Some e).
Proof.
  intros Ho Hne Hc Hc' Hcap. cbv zeta.
  assert (Undef : handler R = VUndefined ->
            PromiseJs.PromiseReactionJob H R a s
            = (match type R with
               | Fulfill =>
                   PromiseJs.call H (VNative (ResolveFn c)) VUndefined [a]
               | Reject =>
                   PromiseJs.call H (VNative (RejectFn c')) VUndefined [a]
               end ;;; ret VUndefined) s).
  { intros Hh. unfold PromiseJs.PromiseReactionJob. cbv zeta.
    rewrite Hh, Hcap. reflexivity. }
  assert (Fun : forall f, handler R = VFunction f ->
            PromiseJs.PromiseReactionJob H R a s
            = try_catch
                (handlerResult <- PromiseJs.exec H (body H f VUndefined [a]) ;;
                 PromiseJs.call H (VNative (ResolveFn c)) VUndefined
                   [handlerResult] ;;; ret VUndefined)
                (fun error =>
                   PromiseJs.call H (VNative (RejectFn c')) VUndefined [error]
                   ;;; ret VUndefined)
                (with_calls
                   (calls s ++ [{| callee := VFunction f;
                                   receiver := VUndefined;
                                   arguments := [a] |}]) s)).
  { intros f Hh. unfold PromiseJs.PromiseReactionJob. cbv zeta.
    rewrite Hh, Hcap. reflexivity. }
  split; [| split; [| split; [| split; [| split]]]].
  - intros Hh Ht Hv. rewrite (Undef Hh), Ht.
    destruct (@PromiseJsMore.call_resolve_first_js H c q a s Hc Ho Hv)
      as (A & B & C).
    unfold bind.
    destruct (PromiseJs.call H (VNative (ResolveFn c)) VUndefined [a] s)
      as [[u | e] s1]; cbn [fst snd] in *; [| discriminate A].
    repeat split; assumption.
  - intros Hh Ht e Hobj He. rewrite (Undef Hh), Ht.
    unfold bind.
    rewrite (@PromiseJsMore.call_resolve_throws_js H c q a e s Hc Hobj He).
    split; reflexivity.
  - intros Hh Ht. rewrite (Undef Hh), Ht.
    destruct (@PromiseJsMore.call_reject_first_js H c' q a s Hc' Ho)
      as (A & B & C).
    unfold bind.
    destruct (PromiseJs.call H (VNative (RejectFn c')) VUndefined [a] s)
      as [[u | e] s1]; cbn [fst snd] in *; [| discriminate A].
    repeat split; assumption.
  - intros f w Hh Hb Hv. rewrite (Fun f Hh), Hb.
    set (s0 := with_calls _ s).
    destruct (@PromiseJsMore.call_resolve_first_js H c q w s0 Hc Ho Hv)
      as (A & B & C).
    unfold try_catch, bind. cbn [PromiseJs.exec lift].
    destruct (PromiseJs.call H (VNative (ResolveFn c)) VUndefined [w] s0)
      as [[u | e] s1]; cbn [fst snd] in *; [| discriminate A].
    repeat split; assumption.
  - intros f w e Hh Hb Hobj He. rewrite (Fun f Hh), Hb.
    set (s0 := with_calls _ s).
    unfold try_catch, bind. cbn [PromiseJs.exec lift].
    rewrite (@PromiseJsMore.call_resolve_throws_js H c q w e s0 Hc Hobj He).
    set (s1 := update_closure c _ _).
    assert (Hc1 : closures s1 c'
                  = {| PromiseJs.Promise_var := Some q;
                       PromiseJs.AlreadyResolved_var := Some false |}).
    { cbn. rewrite override_other by auto. exact Hc'. }
    assert (Ho1 : is_promise_object (heap s1 q) = true) by exact Ho.
    destruct (@PromiseJsMore.call_reject_first_js H c' q e s1 Hc1 Ho1)
      as (A & B & C).
    destruct (PromiseJs.call H (VNative (RejectFn c')) VUndefined [e] s1)
      as [[u | e'] s2]; cbn [fst snd] in *; [| discriminate A].
    repeat split; assumption.
  - intros f e Hh Hb. rewrite (Fun f Hh), Hb.
    set (s0 := with_calls _ s).
    destruct (@PromiseJsMore.call_reject_first_js H c' q e s0 Hc' Ho)
      as (A & B & C).
    unfold try_catch, bind. cbn [PromiseJs.exec lift].
    destruct (PromiseJs.call H (VNative (RejectFn c')) VUndefined [e] s0)
      as [[u | e'] s1]; cbn [fst snd] in *; [| discriminate A].
    repeat split; assumption.
Qed.

Lemma reaction_job_settles_downstream_js_witness :
  let s0 := PromiseJsSpec.with_capability PromiseJsSpec.initial in
  let s := snd (PromiseJs.Promise_then (VPromise 0) (VFunction 3) VUndefined
                  s0) in
  let R := {| capability := PromiseJsSpec.new_capability s0; type := Fulfill;
              handler := VFunction 3 |} in
  state_of (snd (PromiseJs.PromiseReactionJob demo_host R (VNum 5) s)) 1
  = REJECTED
  /\ result_of (snd (PromiseJs.PromiseReactionJob demo_host R (VNum 5) s)) 1
     = Some (VTypeError "Cannot read property 'then' of null").
Proof.
  destruct (@reaction_job_settles_downstream_js demo_host
              {| capability := PromiseJsSpec.new_capability
                   (PromiseJsSpec.with_capability PromiseJsSpec.initial);
                 type := Fulfill; handler := VFunction 3 |} (VNum 5) 2 3 1
              (snd (PromiseJs.Promise_then (VPromise 0) (VFunction 3)
                      VUndefined
                      (PromiseJsSpec.with_capability PromiseJsSpec.initial)))
              eq_refl ltac:(lia) eq_refl eq_refl eq_refl)
    as (_ & _ & _ & _ & A & _).
  destruct (A 3 VNull _ eq_refl eq_refl eq_refl eq_refl) as (_ & B & C).
  exact (conj B C).
Defined.

(** Property X18 (one link of a chain), src/unnamed/part_000. Let [then]
    register the handlers [h] and [j] on a pending promise with nothing else
    registered and an empty queue, let the promise be settled through its
    pair, and let the host loop run one callback; [n] is the promise [then]
    returned. After fulfilment with a plain value [v], [n] is fulfilled with
    [v] when [h] is not callable; after rejection with [v], [n] is rejected
    with [v] when [j] is not callable. When the handler of the settlement is
    a host function that throws at once, [n] is rejected with what it throws.
    When it returns [w] at once, [n] is fulfilled with [w] if [w] is a plain
    value, still pending behind the job that will call [then] of [w] if [w]
    is a thenable other than [n], rejected with the TypeError 'resolution ===
    promise' if [w] is [n] itself, and rejected with what reading [then] of
    [w] throws if that read throws. A handler acts at once when it returns or
    throws without calling into the library. *)
Theorem then_chain_p0 (H : Host) (c p : nat) (h j v : value)
    (s : Part000.St) :
  well_formed s -> queue s = [] ->
  closures s c
  = {| Part000.promise_var := p; Part000.alreadySettled := false |} ->
  c < next_closure s -> p < next_promise s -> state_of s p = PENDING ->
  fulfillReactions_of s p = Some [] -> rejectReactions_of s p = Some [] ->
  let n := next_promise s in
  let s1 := snd (Part000.Promise_then (VPromise p) h j s) in
  fst (Part000.Promise_then (VPromise p) h j s) = Returned (VPromise n)
  /\ (plain_value H v = true ->
      link_outcome H n h v FULFILLED
        (Part000.run_jobs H 1 (snd (Part000.resolve H c v s1))))
  /\ link_outcome H n j v REJECTED
       (Part000.run_jobs H 1 (snd (Part000.reject c v s1))).
Proof.
  intros Hs Hq Hc Hcl Hpl Hp Hlf Hlr. cbv zeta.
  assert (Link : forall st g (R : Reaction),
            capability R = Part000Spec.new_capability s ->
            handler R = coerce g ->
            type R = match st with REJECTED => Reject | _ => Fulfill end ->
            st <> PENDING ->
            (st = FULFILLED -> plain_value H v = true) ->
            link_outcome H (next_promise s) g v st
              (snd (Part000.promiseReactionJob H R v
                      (take_job (ReactionJob R v) []
                         (settled_by c p st v [R]
                            (snd (Part000.Promise_then (VPromise p) h j
                                    s))))))).
  { intros st g R Hcap Hh Ht Hst Hv.
    destruct (@Part000More.chain_job_heap c p h j s Hs Hq Hcl Hpl Hp Hlf Hlr
                st v R) as (_ & Ho & Hpn & Hk).
    set (sT := take_job (ReactionJob R v) [] _) in *.
    destruct (@Part000More.job_downstream_cases H (next_closure s)
                (next_promise s) sT R v Ho Hpn Hk Hcap) as (A & B & C & D).
    split; [| split].
    - intros Hg. rewrite Hh, (Part000More.coerce_not_callable g Hg) in A, B.
      destruct st; [contradiction | |].
      + apply A; auto.
      + apply B; auto.
    - intros f e -> Hb. apply (D f e); [exact Hh | exact Hb].
    - intros f w -> Hb.
      destruct (@Part000More.job_handler_result_cases H (next_closure s) (next_promise s)
                  sT R v f w Ho Hpn Hk ltac:(now rewrite Hcap) Hh Hb)
        as (T1 & T2 & T3).
      split; [intros Hw; now apply (C f w) |].
      split; [| split; assumption].
      intros t Hw Ht' Hn. destruct (T1 t Hw Ht' Hn) as [Q1 Q2].
      split; [exact Q1 | exact Q2]. }
  split.
  { destruct (@Part000More.then_pending_effect p h j s [] [] (Hs p) Hpl Hp
                Hlf Hlr) as (A1 & _). exact A1. }
  split.
  - intros Hv.
    destruct (@Part000More.chain_fulfilled H c p h j s Hs Hq Hc Hcl Hpl Hp
                Hlf Hlr v Hv) as (E & Run).
    rewrite E. cbn [snd]. rewrite Run.
    apply Link; try reflexivity; [discriminate | auto].
  - destruct (@Part000More.chain_rejected H c p h j s Hs Hq Hc Hcl Hpl Hp
                Hlf Hlr v) as (E & Run).
    rewrite E. cbn [snd]. rewrite Run.
    apply Link; try reflexivity; [discriminate | discriminate].
Qed.

Lemma then_chain_p0_witness :
  let s := Part000Spec.with_capability Part000Spec.initial in
  let s1 := snd (Part000.Promise_then (VPromise 0) (VFunction 0) (VFunction 3)
                   s) in
  let s3 := Part000.run_jobs demo_host 1
              (snd (Part000.reject 0 (VStr "no") s1)) in
  let s4 := Part000.run_jobs demo_host 1
              (snd (Part000.resolve demo_host 0 (VNum 7) s1)) in
  (state_of s3 1 = FULFILLED /\ result_of s3 1 = Some VNull)
  /\ (state_of s4 1 = REJECTED
      /\ result_of s4 1 = Some (VTypeError "resolve is not a function")).
Proof.
  destruct (@then_chain_p0 demo_host 0 0 (VFunction 0) (VFunction 3) (VStr "no")
              (Part000Spec.with_capability Part000Spec.initial))
    as (_ & _ & _ & _ & A);
    [ intros q; destruct q; reflexivity | reflexivity | reflexivity
    | cbn; lia | cbn; lia | reflexivity | reflexivity | reflexivity | ].
  destruct (@then_chain_p0 demo_host 0 0 (VFunction 0) (VFunction 3) (VNum 7)
              (Part000Spec.with_capability Part000Spec.initial))
    as (_ & B & _);
    [ intros q; destruct q; reflexivity | reflexivity | reflexivity
    | cbn; lia | cbn; lia | reflexivity | reflexivity | reflexivity | ].
  destruct (B eq_refl) as (_ & B' & _).
  split; [exact (proj1 (A 3 VNull eq_refl eq_refl) eq_refl) |].
  exact (B' 0 (VTypeError "resolve is not a function") eq_refl eq_refl).
Defined.

(** Property X19 (resolving with a thenable), src/unnamed/part_000. The first
    call of a pair's resolve with a thenable other than the promise itself
    returns undefined, leaves every promise as it is, calls nothing and
    schedules exactly the job that will call the thenable's [then]; from then
    on both functions of the pair return at once and change nothing. *)
Theorem resolve_thenable_locks_in_p0 (H : Host) (c : nat) (v t : value)
    (s : Part000.St) :
  Part000.alreadySettled (closures s c) = false ->
  thenable H v = true -> get_then H v = Returned t ->
  v <> VPromise (Part000.promise_var (closures s c)) ->
  let s' := snd (Part000.resolve H c v s) in
  fst (Part000.resolve H c v s) = Returned VUndefined
  /\ heap s' = heap s
  /\ queue s'
     = queue s ++
       [ResolveThenableJob (Part000.promise_var (closures s c)) v t]
  /\ calls s' = calls s /\ ran s' = ran s
  /\ forall w, Part000.resolve H c w s' = (Returned VUndefined, s')
               /\ Part000.reject c w s' = (Returned VUndefined, s').
Proof.
  intros Hc Hv Ht Hn. cbv zeta.
  rewrite (Part000More.resolve_thenable_eq H c s Hc Hv Ht Hn).
  cbn [fst snd]. repeat split.
  - apply Part000Facts.resolve_used. cbn. now rewrite override_same.
  - apply Part000Facts.reject_used. cbn. now rewrite override_same.
Qed.

Lemma resolve_thenable_locks_in_p0_witness :
  let s := Part000Spec.with_capability Part000Spec.initial in
  let s' := snd (Part000.resolve demo_host 0 (VObject 0) s) in
  queue s' = [ResolveThenableJob 0 (VObject 0) (VFunction 0)]
  /\ Part000.reject 0 (VStr "late") s' = (Returned VUndefined, s').
Proof.
  destruct (@resolve_thenable_locks_in_p0 demo_host 0 (VObject 0)
              (VFunction 0)
              (Part000Spec.with_capability Part000Spec.initial)
              eq_refl eq_refl eq_refl ltac:(discriminate))
    as (_ & _ & A & _ & _ & B).
  exact (conj A (proj2 (B (VStr "late")))).
Defined.

(** Property X20 (the thenable job), src/unnamed/part_000. The thenable job
    calls the thenable's [then], first of all calls, with the thenable as
    receiver and a new pair of resolving functions for the promise. If [then]
    throws at once the promise, when pending, is rejected with the error; if
    it calls the new resolve with a plain value the promise is fulfilled with
    it, and if it calls the new reject the promise is rejected, whatever
    [then] does afterwards. *)
Theorem thenable_job_outcome_p0 (H : Host) (p f : nat) (thenable : value)
    (s : Part000.St) :
  well_formed s -> state_of s p = PENDING ->
  let c := next_closure s in
  let args := [VNative (ResolveFn c); VNative (RejectFn c)] in
  let out := Part000.promiseResolveThenableJob H p thenable (VFunction f) s in
  (exists rest,
     calls (snd out)
     = calls s ++ {| callee := VFunction f; receiver := thenable;
                     arguments := args |} :: rest)
  /\ (forall e, body H f thenable args = Ret (Thrown e) ->
      state_of (snd out) p = REJECTED /\ result_of (snd out) p = Some e)
  /\ (forall this v r, plain_value H v = true ->
      body H f thenable args
      = Invoke (ResolveFn c) this [v] (fun _ => Ret r) ->
      state_of (snd out) p = FULFILLED /\ result_of (snd out) p = Some v)
  /\ (forall this e r,
      body H f thenable args
      = Invoke (RejectFn c) this [e] (fun _ => Ret r) ->
      state_of (snd out) p = REJECTED /\ result_of (snd out) p = Some e).
Proof.
  intros Hs Hp. cbv zeta. pose proof (Hs p) as Ho.
  set (c := next_closure s).
  set (args := [VNative (ResolveFn c); VNative (RejectFn c)]).
  set (sA := with_closures
               (override (closures s) c
                  {| Part000.promise_var := p;
                     Part000.alreadySettled := false |}) (S c) s).
  set (s0 := with_calls
               (calls sA ++ [{| callee := VFunction f; receiver := thenable;
                                arguments := args |}]) sA).
  assert (Hc0 : closures s0 c
                = {| Part000.promise_var := p;
                     Part000.alreadySettled := false |})
    by (cbn; apply override_same).
  assert (Ho0 : is_promise_object (heap s0 p) = true) by exact Ho.
  assert (Hp0 : state_of s0 p = PENDING) by exact Hp.
  assert (U : Part000.promiseResolveThenableJob H p thenable (VFunction f) s
              = try_catch (Part000.exec H (body H f thenable args))
                  (fun error => Part000.reject c error) s0)
    by reflexivity.
  assert (Rej : forall e l,
            exists lr,
              Part000.reject c e (with_calls l s0)
              = (Returned VUndefined,
                 settled_by c p REJECTED e lr (with_calls l s0))).
  { intros e l.
    destruct (@Part000More.downstream_reject c p s0 Ho0 Hp0 Hc0 l e)
      as (lr & _ & E).
    exists lr. exact E. }
  assert (Same : with_calls (calls s0) s0 = s0) by reflexivity.
  split; [| split; [| split]].
  - assert (WA : well_formed sA) by exact Hs.
    destruct (@Part000More.call_logs_first H (VFunction f) thenable args sA
                WA eq_refl) as (_ & _ & rest & Hcalls).
    exists rest.
    change (Part000.promiseResolveThenableJob H p thenable (VFunction f) s)
      with (try_catch (Part000.call H (VFunction f) thenable args)
              (fun error => Part000.reject c error) sA).
    unfold try_catch.
    destruct (Part000.call H (VFunction f) thenable args sA)
      as [[u | e] s1]; cbn [snd] in *; [exact Hcalls |].
    destruct (@Part000Facts.reject_quiet c e s1 I) as (_ & Q & _).
    rewrite Q. exact Hcalls.
  - intros e Hb.
    destruct (Rej e (calls s0)) as (lr & E). rewrite Same in E.
    assert (E' : Part000.promiseResolveThenableJob H p thenable (VFunction f) s
                 = (Returned VUndefined, settled_by c p REJECTED e lr s0)).
    { rewrite U, Hb. unfold try_catch. cbn [Part000.exec lift]. exact E. }
    rewrite E'. cbn [snd].
    destruct (@Part000More.settled_by_facts c p REJECTED e lr s0 Ho0)
      as (F1 & F2 & _).
    split; assumption.
  - intros this v r Hv Hb.
    destruct (@Part000More.downstream_resolve H c p s0 Ho0 Hp0 Hc0
                (calls s0) v Hv) as (lf & _ & E).
    rewrite Same in E.
    destruct (@Part000More.settled_by_facts c p FULFILLED v lf s0 Ho0)
      as (F1 & F2 & _ & _ & F5 & _).
    set (s1 := settled_by _ _ _ _ _ s0) in *.
    assert (Hused : Part000.alreadySettled (closures s1 c) = true)
      by (rewrite F5, override_same; reflexivity).
    assert (E' : snd (Part000.promiseResolveThenableJob H p thenable
                        (VFunction f) s) = s1).
    { rewrite U, Hb. unfold try_catch.
      cbn [Part000.exec Part000.call_native argument nth].
      unfold bind at 1. unfold attempt. rewrite E.
      cbn [Part000.exec lift].
      destruct r as [u | e]; [reflexivity |].
      now rewrite (Part000Facts.reject_used c e s1 Hused). }
    rewrite E'. split; assumption.
  - intros this e r Hb.
    destruct (Rej e (calls s0)) as (lr & E). rewrite Same in E.
    destruct (@Part000More.settled_by_facts c p REJECTED e lr s0 Ho0)
      as (F1 & F2 & _ & _ & F5 & _).
    set (s1 := settled_by _ _ _ _ _ s0) in *.
    assert (Hused : Part000.alreadySettled (closures s1 c) = true)
      by (rewrite F5, override_same; reflexivity).
    assert (E' : snd (Part000.promiseResolveThenableJob H p thenable
                        (VFunction f) s) = s1).
    { rewrite U, Hb. unfold try_catch.
      cbn [Part000.exec Part000.call_native argument nth].
      unfold bind at 1. unfold attempt. rewrite E.
      cbn [Part000.exec lift].
      destruct r as [u | e']; [reflexivity |].
      now rewrite (Part000Facts.reject_used c e' s1 Hused). }
    rewrite E'. split; assumption.
Qed.

Lemma thenable_job_outcome_p0_witness :
  let s := snd (Part000.resolve demo_host 0 (VObject 0)
                  (Part000Spec.with_capability Part000Spec.initial)) in
  let out := Part000.promiseResolveThenableJob demo_host 0 (VObject 0)
               (VFunction 0) s in
  state_of (snd out) 0 = FULFILLED /\ result_of (snd out) 0 = Some (VNum 5).
Proof.
  destruct (@thenable_job_outcome_p0 demo_host 0 0 (VObject 0)
              (snd (Part000.resolve demo_host 0 (VObject 0)
                      (Part000Spec.with_capability Part000Spec.initial))))
    as (_ & _ & A & _).
  - intros q. destruct q; reflexivity.
  - reflexivity.
  - exact (A VUndefined (VNum 5) (Returned VUndefined) eq_refl eq_refl).
Defined.

(** Property X21 (the thenable job), src/promise.js. The thenable job of
    src/promise.js calls the thenable's [then] with the thenable as receiver
    and two new resolving functions. If [then] throws at once the promise is
    rejected with the error and the job returns undefined; if it calls the new
    resolve with a value taken as it is, or the new reject, and returns, the
    promise is fulfilled or rejected accordingly and the job returns what
    [then] returned. *)
Theorem thenable_job_outcome_js (H : Host) (p f : nat) (thenable : value)
    (s : PromiseJs.St) :
  is_promise_object (heap s p) = true ->
  let c := next_closure s in
  let args := [VNative (ResolveFn c); VNative (RejectFn (S c))] in
  let out := PromiseJs.PromiseResolveThenableJob H p thenable (VFunction f) s in
  (forall e, body H f thenable args = Ret (Thrown e) ->
     fst out = Returned VUndefined
     /\ state_of (snd out) p = REJECTED /\ result_of (snd out) p = Some e)
  /\ (forall this v u, fulfills_directly_js H v = true ->
      body H f thenable args
      = Invoke (ResolveFn c) this [v] (fun _ => Ret (Returned u)) ->
      fst out = Returned u
      /\ state_of (snd out) p = FULFILLED /\ result_of (snd out) p = Some v)
  /\ (forall this e u,
      body H f thenable args
      = Invoke (RejectFn (S c)) this [e] (fun _ => Ret (Returned u)) ->
      fst out = Returned u
      /\ state_of (snd out) p = REJECTED /\ result_of (snd out) p = Some e).
Proof.
  intros Ho. cbv zeta.
  set (c := next_closure s).
  destruct (PromiseJsMore.CreateResolvingFunctions_facts_js p s)
    as (_ & C1 & C2 & Hh & _).
  fold c in C1, C2.
  set (s0 := with_calls
               (calls s ++
                [{| callee := VFunction f; receiver := thenable;
                    arguments := [VNative (ResolveFn c);
                                  VNative (RejectFn (S c))] |}])
               (snd (PromiseJs.CreateResolvingFunctions p s))).
  assert (C1' : closures s0 c
                = {| PromiseJs.Promise_var := Some p;
                     PromiseJs.AlreadyResolved_var := Some false |})
    by exact C1.
  assert (C2' : closures s0 (S c)
                = {| PromiseJs.Promise_var := Some p;
                     PromiseJs.AlreadyResolved_var := Some false |})
    by exact C2.
  assert (Ho0 : is_promise_object (heap s0 p) = true).
  { change (heap s0) with (heap (snd (PromiseJs.CreateResolvingFunctions p s))).
    now rewrite Hh. }
  split; [| split].
  - intros e Hb.
    rewrite PromiseJsMore.PromiseResolveThenableJob_unfold_js.
    fold c. fold s0. rewrite Hb. unfold try_catch. cbn [PromiseJs.exec lift].
    destruct (@PromiseJsMore.reject_Function_first_js (S c) p e s0 C2' Ho0)
      as (R0 & R1 & R2 & _).
    destruct (PromiseJs.reject_Function (S c) e s0) as [[u | e'] s2];
      cbn [fst snd] in *; [| discriminate R0].
    injection R0 as ->. repeat split; assumption.
  - intros this v u Hv Hb.
    rewrite PromiseJsMore.PromiseResolveThenableJob_unfold_js.
    fold c. fold s0. rewrite Hb. unfold try_catch.
    cbn [PromiseJs.exec PromiseJs.call_native argument nth].
    unfold bind, attempt.
    destruct (@PromiseJsMore.resolve_Function_first_js H c p v s0 C1' Ho0 Hv)
      as (lf & _ & E).
    rewrite E. cbn [PromiseJs.exec lift fst snd].
    set (sF := update_closure c _ s0).
    assert (HoF : is_promise_object (heap sF p) = true) by exact Ho0.
    destruct (settled_facts sF p FULFILLED v HoF) as (F1 & F2 & _).
    repeat split; assumption.
  - intros this e u Hb.
    rewrite PromiseJsMore.PromiseResolveThenableJob_unfold_js.
    fold c. fold s0. rewrite Hb. unfold try_catch.
    cbn [PromiseJs.exec PromiseJs.call_native argument nth].
    unfold bind, attempt.
    destruct (@PromiseJsMore.reject_Function_first_js (S c) p e s0 C2' Ho0)
      as (R0 & R1 & R2 & _).
    destruct (PromiseJs.reject_Function (S c) e s0) as [[u' | e'] s2];
      cbn [PromiseJs.exec lift fst snd] in *; [| discriminate R0].
    repeat split; assumption.
Qed.

Lemma thenable_job_outcome_js_witness :
  let s := snd (PromiseJs.resolve_Function demo_host 0 (VObject 0)
                  (PromiseJsSpec.with_capability PromiseJsSpec.initial)) in
  let out := PromiseJs.PromiseResolveThenableJob demo_host 0 (VObject 0)
               (VFunction 0) s in
  state_of (snd out) 0 = FULFILLED /\ result_of (snd out) 0 = Some (VNum 5).
Proof.
  destruct (@thenable_job_outcome_js demo_host 0 0 (VObject 0)
              (snd (PromiseJs.resolve_Function demo_host 0 (VObject 0)
                      (PromiseJsSpec.with_capability PromiseJsSpec.initial)))
              eq_refl)
    as (_ & A & _).
  destruct (A VUndefined (VNum 5) VUndefined eq_refl eq_refl) as (_ & B & C).
  exact (conj B C).
Defined.

(** Property X22 (adopting a settled promise of the library),
    src/unnamed/part_000. Resolving a pending promise [p] through its unused
    pair with another promise [q] of the library that is already settled (with
    a plain value when fulfilled), on an empty queue, leaves [p] pending and
    schedules one thenable job; after the first turn of the host loop [p] is
    still pending, and after the second it has the state and the result of
    [q]. *)
Theorem adopts_settled_promise_p0 (H : Host) (c p q : nat) (v : value)
    (s : Part000.St) :
  well_formed s -> queue s = [] ->
  closures s c
  = {| Part000.promise_var := p; Part000.alreadySettled := false |} ->
  p < next_promise s -> q < next_promise s -> q <> p ->
  state_of s p = PENDING -> state_of s q <> PENDING ->
  result_of s q = Some v ->
  (state_of s q = FULFILLED -> plain_value H v = true) ->
  let s1 := snd (Part000.resolve H c (VPromise q) s) in
  state_of s1 p = PENDING
  /\ queue s1 = [ResolveThenableJob p (VPromise q) (VNative PromiseThen)]
  /\ state_of (Part000.run_jobs H 1 s1) p = PENDING
  /\ state_of (Part000.run_jobs H 2 s1) p = state_of s q
  /\ result_of (Part000.run_jobs H 2 s1) p = Some v.
Proof.
  intros Hs Hq0 Hc Hpl Hql Hne Hp Hq Hres Hplain. cbv zeta.
  assert (Hflag : Part000.alreadySettled (closures s c) = false)
    by now rewrite Hc.
  assert (Hn : VPromise q <> VPromise (Part000.promise_var (closures s c))).
  { rewrite Hc. cbn. congruence. }
  rewrite (@Part000More.resolve_thenable_eq H c (VPromise q)
             (VNative PromiseThen) s Hflag eq_refl eq_refl Hn).
  rewrite Hc, Hq0. cbn [snd Part000.promise_var app].
  set (j1 := ResolveThenableJob p (VPromise q) (VNative PromiseThen)).
  set (s1 := with_queue [j1] _).
  split; [exact Hp |]. split; [reflexivity |].
  set (sT := take_job j1 [] s1).
  assert (WT : well_formed sT) by exact Hs.
  assert (HqT : state_of sT q <> PENDING) by exact Hq.
  destruct (@Part000More.thenable_job_of_settled H p q sT WT HqT Hql)
    as (sD & ED & WD & QD & CD & FD & ND & _).
  change (queue sT) with (@nil Job) in QD. cbn [app] in QD.
  change (state_of sT q) with (state_of s q) in QD.
  change (result_of sT q) with (result_of s q) in QD.
  rewrite Hres in QD. cbn [read] in QD.
  change (next_promise sT) with (next_promise s) in *.
  change (next_closure sT) with (next_closure s) in *.
  assert (R1 : Part000.run_jobs H 1 s1 = sD).
  { cbn [Part000.run_jobs queue s1 with_queue]. fold sT.
    cbn [Part000.run_job j1]. now rewrite ED. }
  assert (PD : state_of sD p = PENDING).
  { unfold state_of. rewrite (FD p) by (auto; lia). exact Hp. }
  split; [rewrite R1; exact PD |].
  set (k := next_closure s) in *.
  match type of QD with
  | queue sD = [ReactionJob ?R0 v] => set (R := R0) in *
  end.
  set (sE := take_job (ReactionJob R v) [] sD).
  assert (R2 : Part000.run_jobs H 2 s1
               = snd (Part000.promiseReactionJob H R v sE)).
  { change (Part000.run_jobs H 2 s1)
      with (Part000.run_jobs H 1 (Part000.run_jobs H 1 s1)).
    rewrite R1. cbn [Part000.run_jobs]. rewrite QD. reflexivity. }
  assert (WE : well_formed sE) by exact WD.
  assert (PE : state_of sE p = PENDING) by exact PD.
  assert (CE : closures sE k
               = {| Part000.promise_var := p;
                    Part000.alreadySettled := false |}) by exact CD.
  assert (LE : p < next_promise sE) by (cbn; lia).
  destruct (@Part000More.job_with_pair_handler H R v k (S k) p sE WE PE LE CE
              eq_refl) as (A & B).
  rewrite R2. unfold R in A, B. cbn [handler] in A, B.
  destruct (state_of s q) eqn:Eq; [contradiction | |].
  - apply A; [reflexivity | now apply Hplain].
  - apply B; reflexivity.
Qed.

Lemma adopts_settled_promise_p0_witness :
  let s := snd (Part000.Promise_resolve demo_host (VNum 5)
                  (Part000Spec.with_capability Part000Spec.initial)) in
  let s1 := snd (Part000.resolve demo_host 0 (VPromise 1) s) in
  state_of (Part000.run_jobs demo_host 2 s1) 0 = FULFILLED
  /\ result_of (Part000.run_jobs demo_host 2 s1) 0 = Some (VNum 5).
Proof.
  destruct (@adopts_settled_promise_p0 demo_host 0 0 1 (VNum 5)
              (snd (Part000.Promise_resolve demo_host (VNum 5)
                      (Part000Spec.with_capability Part000Spec.initial))))
    as (_ & _ & _ & A & B).
  - apply (Part000Facts.Promise_resolve_ok demo_host (VNum 5)).
    apply Part000More.with_capability_well_formed.
    exact Part000Facts.initial_well_formed.
  - reflexivity.
  - reflexivity.
  - vm_compute; lia.
  - vm_compute; lia.
  - discriminate.
  - reflexivity.
  - discriminate.
  - reflexivity.
  - reflexivity.
  - exact (conj A B).
Defined.

(** Property X23 (resolve on values it settles with at once),
    src/unnamed/part_000. The first call of a pair's resolve on its pending
    promise fulfills it with a plain value (null, a primitive, or an object or
    function whose [then] is not callable), and rejects it with the error when
    reading [then] throws; in both cases the call returns undefined and the
    jobs of the matching reactions are scheduled. *)
Theorem resolve_settles_directly_p0 (H : Host) (c : nat) (v : value)
    (s : Part000.St) :
  let p := Part000.promise_var (closures s c) in
  Part000.alreadySettled (closures s c) = false ->
  state_of s p = PENDING -> is_promise_object (heap s p) = true ->
  let out := Part000.resolve H c v s in
  (plain_value H v = true ->
   exists lf, fulfillReactions_of s p = Some lf
     /\ fst out = Returned VUndefined
     /\ state_of (snd out) p = FULFILLED /\ result_of (snd out) p = Some v
     /\ queue (snd out) = queue s ++ map (fun r => ReactionJob r v) lf)
  /\ (forall e, Part000.isObject v || Part000.isFunction v = true ->
        v <> VNull -> get_then H v = Thrown e ->
        exists lr, rejectReactions_of s p = Some lr
          /\ fst out = Returned VUndefined
          /\ state_of (snd out) p = REJECTED /\ result_of (snd out) p = Some e
          /\ queue (snd out) = queue s ++ map (fun r => ReactionJob r e) lr).
Proof.
  intros p Hc Hp Ho. cbv zeta. split.
  - intros Hv.
    destruct (@Part000Facts.resolve_plain_value_p0 H c v s Hc Hp Ho Hv)
      as (l & s' & Hl & E & F1 & F2 & F3).
    exists l. rewrite E. cbn [fst snd]. repeat split; assumption.
  - intros e Hobj Hnull He.
    destruct (@Part000Facts.resolve_throwing_then_p0 H c v e s Hc Hp Ho Hobj
                Hnull He) as (l & s' & Hl & E & F1 & F2 & F3).
    exists l. rewrite E. cbn [fst snd]. repeat split; assumption.
Qed.

Lemma resolve_settles_directly_p0_witness :
  let s := Part000Spec.with_capability Part000Spec.initial in
  (state_of (snd (Part000.resolve demo_host 0 VNull s)) 0 = FULFILLED
   /\ result_of (snd (Part000.resolve demo_host 0 VNull s)) 0 = Some VNull)
  /\ (state_of (snd (Part000.resolve demo_host 0 (VObject 1) s)) 0 = REJECTED
      /\ result_of (snd (Part000.resolve demo_host 0 (VObject 1) s)) 0
         = Some (VStr "boom")).
Proof.
  split.
  - destruct (@resolve_settles_directly_p0 demo_host 0 VNull
                (Part000Spec.with_capability Part000Spec.initial)
                eq_refl eq_refl eq_refl) as (A & _).
    destruct (A eq_refl) as (lf & _ & _ & B & C & _). exact (conj B C).
  - destruct (@resolve_settles_directly_p0 demo_host 0 (VObject 1)
                (Part000Spec.with_capability Part000Spec.initial)
                eq_refl eq_refl eq_refl) as (_ & A).
    destruct (A (VStr "boom") eq_refl ltac:(discriminate) eq_refl)
      as (lr & _ & _ & B & C & _).
    exact (conj B C).
Defined.

(** Property X24 (Promise.resolve), src/unnamed/part_000. [Promise.resolve(v)]
    returns a new promise: already fulfilled with [v], and nothing scheduled,
    when [v] is plain; still pending when [v] is a thenable, with the one
    thenable job scheduled and no function but the capability's resolve
    called. *)
Theorem static_resolve_p0 (H : Host) (v : value) (s : Part000.St) :
  let n := next_promise s in
  let out := Part000.Promise_resolve H v s in
  (plain_value H v = true ->
   fst out = Returned (VPromise n)
   /\ state_of (snd out) n = FULFILLED /\ result_of (snd out) n = Some v
   /\ queue (snd out) = queue s)
  /\ (forall t, thenable H v = true -> get_then H v = Returned t ->
      v <> VPromise n ->
      fst out = Returned (VPromise n)
      /\ state_of (snd out) n = PENDING /\ result_of (snd out) n = None
      /\ queue (snd out) = queue s ++ [ResolveThenableJob n v t]
      /\ calls (snd out)
         = calls s ++ [{| callee := VNative (ResolveFn (next_closure s));
                          receiver := capability_object
                                        (Part000Spec.new_capability s);
                          arguments := [v] |}]).
Proof.
  cbv zeta. split.
  - intros Hv.
    destruct (@Part000Facts.Promise_resolve_plain_p0 H v s Hv)
      as (s' & E & F1 & F2 & F3).
    rewrite E. cbn [fst snd]. repeat split; assumption.
  - intros t Hv Ht Hn.
    rewrite (@Part000More.Promise_resolve_thenable_eq H v t s Hv Ht Hn).
    cbn [fst snd].
    destruct (Part000Facts.capability_made_facts
                (ResolveFn (next_closure s))
                (capability_object (Part000Spec.new_capability s)) [v] s)
      as (_ & Hh & _).
    unfold state_of, result_of.
    cbn [heap with_queue update_closure with_closures]. rewrite Hh.
    repeat split.
Qed.

Lemma static_resolve_p0_witness :
  (let out := Part000.Promise_resolve demo_host VNull Part000Spec.initial in
   state_of (snd out) 0 = FULFILLED /\ result_of (snd out) 0 = Some VNull)
  /\ (let out := Part000.Promise_resolve demo_host (VFunction 7)
                   Part000Spec.initial in
      state_of (snd out) 0 = PENDING
      /\ queue (snd out) = [ResolveThenableJob 0 (VFunction 7) (VFunction 0)]).
Proof.
  destruct (@static_resolve_p0 demo_host VNull Part000Spec.initial)
    as (A & _).
  destruct (A eq_refl) as (_ & A1 & A2 & _).
  destruct (@static_resolve_p0 demo_host (VFunction 7) Part000Spec.initial)
    as (_ & B).
  destruct (B (VFunction 0) eq_refl eq_refl ltac:(discriminate))
    as (_ & B1 & _ & B2 & _).
  exact (conj (conj A1 A2) (conj B1 B2)).
Defined.

(** Property X25 (a pair is used once), src/unnamed/part_000. Once either
    function of a pair has been called, every call of either function, on
    every later heap and with any argument, returns undefined and leaves the
    heap as it is. *)
Theorem pair_is_one_shot_forever_p0 (H : Host) (c : nat) (v : value)
    (s s1 s2 : Part000.St) :
  well_formed s -> c < next_closure s ->
  s1 = snd (Part000.resolve H c v s) \/ s1 = snd (Part000.reject c v s) ->
  Part000.later H s1 s2 ->
  forall w, Part000.resolve H c w s2 = (Returned VUndefined, s2)
            /\ Part000.reject c w s2 = (Returned VUndefined, s2).
Proof.
  intros Hs Hc Hfirst Hlater.
  now apply (@Part000Facts.pair_is_one_shot_p0 H c v s s1 s2).
Qed.

Lemma pair_is_one_shot_forever_p0_witness :
  let s := Part000Spec.with_capability Part000Spec.initial in
  let s1 := snd (Part000.resolve demo_host 0 (VNum 1) s) in
  Part000.reject 0 (VNum 2) s1 = (Returned VUndefined, s1).
Proof.
  destruct (@pair_is_one_shot_forever_p0 demo_host 0 (VNum 1)
              (Part000Spec.with_capability Part000Spec.initial)
              (snd (Part000.resolve demo_host 0 (VNum 1)
                      (Part000Spec.with_capability Part000Spec.initial)))
              (snd (Part000.resolve demo_host 0 (VNum 1)
                      (Part000Spec.with_capability Part000Spec.initial)))
              (Part000More.with_capability_well_formed
                 Part000Facts.initial_well_formed)
              ltac:(cbn; lia) (or_introl eq_refl)
              (Part000.later_now demo_host _) (VNum 2))
    as (_ & A).
  exact A.
Defined.

(** Property X26 (a settled promise stays as it is), src/unnamed/part_000. On
    a settled promise [fulfillPromise] and [rejectPromise] return at once and
    change nothing, and the promise has the same state and result in every
    later heap, whatever user code, calls, constructions or host-loop turns
    come in between. *)
Theorem settled_promise_is_final_p0 (H : Host) (p : nat) (s : Part000.St) :
  well_formed s -> p < next_promise s -> state_of s p <> PENDING ->
  (forall v, Part000.fulfillPromise p v s = (Returned VUndefined, s)
             /\ Part000.rejectPromise p v s = (Returned VUndefined, s))
  /\ forall s', Part000.later H s s' ->
       state_of s' p = state_of s p /\ result_of s' p = result_of s p.
Proof.
  intros Hs Hp Hst. now apply Part000Facts.settled_is_final_p0.
Qed.

Lemma settled_promise_is_final_p0_witness :
  let s := snd (Part000.Promise_resolve demo_host (VNum 5)
                  Part000Spec.initial) in
  let s' := Part000.perform demo_host
              (Part000.Call (VNative (RejectFn 0)) VUndefined [VStr "late"])
              s in
  state_of s' 0 = FULFILLED /\ result_of s' 0 = Some (VNum 5).
Proof.
  destruct (@settled_promise_is_final_p0 demo_host 0
              (snd (Part000.Promise_resolve demo_host (VNum 5)
                      Part000Spec.initial)))
    as (_ & A).
  - apply (Part000Facts.Promise_resolve_ok demo_host (VNum 5)).
    exact Part000Facts.initial_well_formed.
  - vm_compute; lia.
  - discriminate.
  - exact (A _ (Part000.later_step
                  (Part000.Call (VNative (RejectFn 0)) VUndefined
                     [VStr "late"])
                  (Part000.later_now demo_host _))).
Defined.

(** Property X27 (each resolving function is used once), src/promise.js. In
    src/promise.js each resolving function on its own is one-shot: once a
    function has been called, every later call of that function, on every
    later heap and with any argument, returns undefined and leaves the heap as
    it is. *)
Theorem resolving_function_is_one_shot_js (H : Host) (c : nat) (v : value)
    (s s1 s2 : PromiseJs.St) :
  c < next_closure s ->
  s1 = snd (PromiseJs.resolve_Function H c v s)
  \/ s1 = snd (PromiseJs.reject_Function c v s) ->
  PromiseJs.later H s1 s2 ->
  forall w, PromiseJs.resolve_Function H c w s2 = (Returned VUndefined, s2)
            /\ PromiseJs.reject_Function c w s2 = (Returned VUndefined, s2).
Proof.
  intros Hc Hfirst Hlater w.
  assert (H1 : keeps_bindings s s1
               /\ PromiseJs.alreadyResolved_of (closures s1 c) = true).
  { destruct Hfirst as [-> | ->].
    - split; [apply (@PromiseJsMore.resolve_Function_kb H c v s I) |].
      now apply PromiseJsMore.resolve_Function_raises_js.
    - split; [apply (@PromiseJsMore.reject_Function_kb c v s I) |].
      now apply PromiseJsMore.reject_Function_raises_js. }
  destruct H1 as (K1 & F1).
  pose proof (PromiseJsMore.later_kb Hlater) as K2.
  assert (Hc1 : c < next_closure s1) by (pose proof (bindings_next K1); lia).
  pose proof (bindings_flag K2 Hc1 F1) as Hflag.
  split; [now apply PromiseJsMore.resolve_Function_used_js
         | now apply PromiseJsMore.reject_Function_used_js].
Qed.

Lemma resolving_function_is_one_shot_js_witness :
  let s := PromiseJsSpec.with_capability PromiseJsSpec.initial in
  let s1 := snd (PromiseJs.resolve_Function demo_host 0 (VNum 1) s) in
  PromiseJs.resolve_Function demo_host 0 (VNum 2) s1 = (Returned VUndefined, s1).
Proof.
  destruct (@resolving_function_is_one_shot_js demo_host 0 (VNum 1)
              (PromiseJsSpec.with_capability PromiseJsSpec.initial)
              (snd (PromiseJs.resolve_Function demo_host 0 (VNum 1)
                      (PromiseJsSpec.with_capability PromiseJsSpec.initial)))
              (snd (PromiseJs.resolve_Function demo_host 0 (VNum 1)
                      (PromiseJsSpec.with_capability PromiseJsSpec.initial)))
              ltac:(cbn; lia) (or_introl eq_refl)
              (PromiseJs.later_now demo_host _) (VNum 2))
    as (A & _).
  exact A.
Defined.

(** Property X28 (what no operation takes back), both files. From a
    well-formed heap every operation of either file (user code, a call of a
    function value, a construction, [Promise.resolve], [Promise.reject], turns
    of the host loop) leads to a well-formed heap: the reaction properties of
    every promise still hold arrays. And nothing recorded is taken back:
    addresses are not reused, every reaction registered on a promise stays in
    its list at its place, and every callback scheduled stays on the schedule
    at its place. *)
Theorem reachable_heaps_only_grow (H : Host) (s s' : Part000.St)
    (sj sj' : PromiseJs.St) :
  well_formed s -> Part000.later H s s' ->
  well_formed sj -> PromiseJs.later H sj sj' ->
  (well_formed s' /\ grows s s') /\ (well_formed sj' /\ grows sj sj').
Proof.
  intros Hs Hl Hsj Hlj. split.
  - destruct (Part000Facts.later_ok Hl Hs) as (W & G & _). now split.
  - destruct (PromiseJsFacts.later_js Hlj Hsj) as (W & G & _). now split.
Qed.

Lemma reachable_heaps_only_grow_witness :
  let s := Part000Spec.with_capability Part000Spec.initial in
  let sj := PromiseJsSpec.with_capability PromiseJsSpec.initial in
  grows s (Part000.perform demo_host (Part000.Turn 1)
             (Part000.perform demo_host
                (Part000.Call (VNative (ResolveFn 0)) VUndefined [VNum 5])
                (Part000.perform demo_host
                   (Part000.Call (VNative PromiseThen) (VPromise 0)
                      [VFunction 1]) s)))
  /\ grows sj (PromiseJs.perform demo_host (PromiseJs.Turn 1)
                 (PromiseJs.perform demo_host
                    (PromiseJs.Call (VNative (ResolveFn 0)) VUndefined
                       [VNum 5])
                    (PromiseJs.perform demo_host
                       (PromiseJs.Call (VNative PromiseThen) (VPromise 0)
                          [VFunction 1]) sj))).
Proof.
  destruct (@reachable_heaps_only_grow demo_host
              (Part000Spec.with_capability Part000Spec.initial)
              (Part000.perform demo_host (Part000.Turn 1)
                 (Part000.perform demo_host
                    (Part000.Call (VNative (ResolveFn 0)) VUndefined [VNum 5])
                    (Part000.perform demo_host
                       (Part000.Call (VNative PromiseThen) (VPromise 0)
                          [VFunction 1])
                       (Part000Spec.with_capability Part000Spec.initial))))
              (PromiseJsSpec.with_capability PromiseJsSpec.initial)
              (PromiseJs.perform demo_host (PromiseJs.Turn 1)
                 (PromiseJs.perform demo_host
                    (PromiseJs.Call (VNative (ResolveFn 0)) VUndefined
                       [VNum 5])
                    (PromiseJs.perform demo_host
                       (PromiseJs.Call (VNative PromiseThen) (VPromise 0)
                          [VFunction 1])
                       (PromiseJsSpec.with_capability PromiseJsSpec.initial)))))
    as ((_ & A) & (_ & B)).
  - intros q. destruct q; reflexivity.
  - repeat apply Part000.later_step. apply Part000.later_now.
  - intros q. destruct q; reflexivity.
  - repeat apply PromiseJs.later_step. apply PromiseJs.later_now.
  - exact (conj A B).
Defined.
